(** * Coverage-map reconstruction of [brownie/project/compiler.py]

    A shallow embedding of the source-map decoder ([expand_source_map],
    [_expand_row]), the branch extractor ([_get_recursive_branches],
    [_is_rightmost_operation], [_check_left_operator]) and the correlation
    walk, revert reconciliation and branch finaliser of
    [generate_coverage_data], together with the properties the
    specification states about them; then [format_link_references], and
    of [brownie/network/gas/strategies.py] the functions [_fetch_gasnow]
    and [GethMempoolStrategy.mempool_price], with further properties of
    all of these.

    Python values are modelled as follows.
    - [str] is [string]; a character is a code point below 256.
    - [int] is [Z].
    - a [dict] is an association list kept in insertion order ([dict_set]
      overwrites in place, appends a new key at the end), because the code
      iterates over several of its dictionaries.
    - a [set] is a duplicate-free list in the set's iteration order; that
      order is unspecified in Python, so it is part of the input.
    - an exception is the [Err] case of [result]; [try]/[except] is a match
      on it. *)

From Stdlib Require Import ZArith Ascii HexadecimalString.
From stdpp Require Import base list strings sorting.

Open Scope Z_scope.

(** ** Exceptions *)

Inductive exn : Set :=
  | IndexError
  | KeyError
  | TypeError
  | ValueError
  | StopIteration
  | AttributeError.

Inductive result (A : Type) : Type :=
  | Ok (a : A)
  | Err (e : exn).
Arguments Ok {A} a.
Arguments Err {A} e.

#[global] Instance result_ret : MRet result := fun A a => Ok a.
#[global] Instance result_bind : MBind result := fun A B f m =>
  match m with
  | Ok a => f a
  | Err e => Err e
  end.
#[global] Instance result_fmap : FMap result := fun A B f m =>
  match m with
  | Ok a => Ok (f a)
  | Err e => Err e
  end.


Definition of_option {A} (e : exn) (o : option A) : result A :=
  match o with Some a => Ok a | None => Err e end.

#[global] Instance exn_eq_dec : EqDecision exn.
Proof. solve_decision. Defined.

(** ** Strings *)

Module Str.

(** [s.split(sep)] for a one-character separator. *)
Fixpoint split (sep : ascii) (s : string) : list string :=
  match s with
  | EmptyString => [EmptyString]
  | String c s' =>
      if Ascii.eqb c sep then EmptyString :: split sep s'
      else match split sep s' with
           | [] => [String c EmptyString]
           | w :: ws => String c w :: ws
           end
  end.

Fixpoint count (sep : ascii) (s : string) : nat :=
  match s with
  | EmptyString => 0%nat
  | String c s' => ((if Ascii.eqb c sep then 1 else 0) + count sep s')%nat
  end.

(** [s[:n]] and [s[n:]]. *)
Fixpoint take (n : nat) (s : string) : string :=
  match n, s with
  | S n', String c s' => String c (take n' s')
  | _, _ => EmptyString
  end.

Fixpoint drop (n : nat) (s : string) : string :=
  match n, s with
  | S n', String _ s' => drop n' s'
  | _, _ => s
  end.

Definition upper_char (c : ascii) : ascii :=
  let n := Ascii.nat_of_ascii c in
  if ((97 <=? n) && (n <=? 122))%nat then Ascii.ascii_of_nat (n - 32) else c.

(** [s.upper()], on the letters a to z. *)
Fixpoint upper (s : string) : string :=
  match s with
  | EmptyString => EmptyString
  | String c s' => String (upper_char c) (upper s')
  end.

(** [hex(z)]. *)
Definition hex (z : Z) : string :=
  String.append (if z <? 0 then "-0x" else "0x")
    (NilZero.string_of_uint (N.to_hex_uint (Z.abs_N z))).

Definition is_space (c : ascii) : bool :=
  let n := Ascii.nat_of_ascii c in
  ((9 <=? n) && (n <=? 13) || (28 <=? n) && (n <=? 32)
   || (n =? 133) || (n =? 160))%nat.

Definition digit (c : ascii) : option Z :=
  let n := Ascii.nat_of_ascii c in
  if ((48 <=? n) && (n <=? 57))%nat then Some (Z.of_nat (n - 48)) else None.

Fixpoint lstrip (s : string) : string :=
  match s with
  | String c s' => if is_space c then lstrip s' else s
  | EmptyString => EmptyString
  end.

Fixpoint rstrip (s : string) : string :=
  match s with
  | EmptyString => EmptyString
  | String c s' =>
      match rstrip s' with
      | EmptyString => if is_space c then EmptyString else String c EmptyString
      | r => String c r
      end
  end.

(** The digits of a decimal literal after its first digit: a digit, or
    one underscore followed by a digit. *)
Fixpoint digits (acc : Z) (s : string) : option Z :=
  match s with
  | EmptyString => Some acc
  | String c s' =>
      match digit c with
      | Some d => digits (10 * acc + d) s'
      | None =>
          if Ascii.eqb c "_" then
            match s' with
            | String c' s'' =>
                match digit c' with
                | Some d => digits (10 * acc + d) s''
                | None => None
                end
            | EmptyString => None
            end
          else None
      end
  end.

Definition unsigned (s : string) : option Z :=
  match s with
  | String c s' => d ← digit c; digits d s'
  | EmptyString => None
  end.

(** [int(s)]: surrounding white space, an optional sign, decimal digits
    with single underscores between them; [ValueError] otherwise. *)
Definition int (s : string) : result Z :=
  of_option ValueError
    match rstrip (lstrip s) with
    | String "-" s' => Z.opp <$> unsigned s'
    | String "+" s' => unsigned s'
    | s' => unsigned s'
    end.

End Str.

(** ** Source Map Decoder *)

(** An element of an expanded row: [None], an [int] or a [str]. *)
Inductive field : Set :=
  | FNone
  | FInt (z : Z)
  | FStr (s : string).

#[global] Instance field_eq_dec : EqDecision field.
Proof. solve_decision. Defined.

Abbreviation row := (list field).

Definition _expand_row (r : string) : result row :=
  let r := Str.split ":" r in
  ints ← mapM (fun i => if bool_decide (i = EmptyString) then Ok FNone
                        else FInt <$> Str.int i) (take 3 r);
  Ok (ints ++ (FStr <$> drop 3 r) ++ replicate (4 - length r)%nat FNone).

(** [if source_map[i][x] is None: source_map[i][x] = source_map[i-1][x]] *)
Definition inherit (prev : option row) (cur : row) (x : nat) : result row :=
  match cur !! x with
  | None => Err IndexError
  | Some FNone =>
      match prev with
      | None => Err TypeError
      | Some p => v ← of_option IndexError (p !! x); Ok (<[x:=v]> cur)
      end
  | Some _ => Ok cur
  end.

(** One iteration of [for i in range(1, len(source_map))]; a row is falsy
    when it is [None] or an empty list. *)
Definition expand_entry (prev cur : option row) : result (option row) :=
  match cur with
  | None | Some [] => Ok prev
  | Some r =>
      r0 ← inherit prev r 0;
      r1 ← inherit prev r0 1;
      r2 ← inherit prev r1 2;
      r3 ← inherit prev r2 3;
      Ok (Some r3)
  end.

(** The loop, with [prev] the already expanded entry [i-1].  An empty entry
    becomes an alias of entry [i-1]; an aliased row is never written again
    (only rows fresh from [_expand_row] are, at their own iteration), so the
    aliasing is not observable and rows are modelled as values. *)
Fixpoint expand_from (prev : option row) (rest : list (option row))
  : result (list (option row)) :=
  match rest with
  | [] => Ok []
  | cur :: rest' =>
      cur' ← expand_entry prev cur;
      tl ← expand_from cur' rest';
      Ok (cur' :: tl)
  end.

Definition expand_source_map (source_map : string) : result (list (option row)) :=
  rows ← mapM (fun i => if bool_decide (i = EmptyString) then Ok None
                        else Some <$> _expand_row i) (Str.split ";" source_map);
  match rows with
  | [] => Ok []
  | r0 :: rest => tl ← expand_from r0 rest; Ok (r0 :: tl)
  end.

(** An expanded entry that later entries can inherit from: a row whose
    first four fields are all set. *)
Definition complete (entry : option row) : Prop :=
  exists r, entry = Some r
            /\ forall x, (x < 4)%nat -> exists v, r !! x = Some v /\ v ≠ FNone.

(** ** Dictionaries *)

Section Dict.
Context {K V : Type} `{EqDecision K}.

Fixpoint dict_get (k : K) (d : list (K * V)) : option V :=
  match d with
  | [] => None
  | (k', v) :: d' => if decide (k = k') then Some v else dict_get k d'
  end.

(** [d[k] = v] *)
Fixpoint dict_set (k : K) (v : V) (d : list (K * V)) : list (K * V) :=
  match d with
  | [] => [(k, v)]
  | (k', v') :: d' =>
      if decide (k = k') then (k', v) :: d' else (k', v') :: dict_set k v d'
  end.

(** [del d[k]] for a key known to be present; no change otherwise. *)
Fixpoint dict_del (k : K) (d : list (K * V)) : list (K * V) :=
  match d with
  | [] => []
  | (k', v') :: d' =>
      if decide (k = k') then d' else (k', v') :: dict_del k d'
  end.

(** [dict(items)] *)
Definition dict_of (items : list (K * V)) : list (K * V) :=
  foldl (fun d kv => dict_set kv.1 kv.2 d) [] items.

End Dict.

(** What a two-level dictionary holds: [g] of each value, in order. *)
Definition flat {K V X} (g : V -> list X) (d : list (K * V)) : list X :=
  d ≫= (fun kv => g kv.2).

(** [set(l)], in order of first occurrence. *)
Definition set_of {A} `{EqDecision A} (l : list A) : list A := remove_dups l.

(** ** Syntax tree, as far as [generate_coverage_data] queries it

    The nodes come from the [solcast] library.  A node is modelled by the
    attributes and query results the code reads from it. *)

Abbreviation Offset := (Z * Z)%type.

Record FunctionCall : Set := {
  fc_offset : Offset;            (* .offset *)
  fc_arguments : list Offset;    (* .arguments, each argument by its offset *)
}.

Record FunctionDefinition : Set := {
  fd_full_name : string;         (* .full_name *)
  (* .children(filters={'node_type': "FunctionCall", 'name': "revert"}) *)
  fd_reverts : list FunctionCall;
}.

Record SourceUnit : Type := {
  su_path : string;              (* .path *)
  (* .children(depth=2, inner_offset=o,
               filters={'node_type': "FunctionDefinition"}) *)
  su_functions_at : Offset -> list FunctionDefinition;
  (* .children(depth=2, include_children=False,
               filters={'node_type': "FunctionDefinition", 'full_name': n}) *)
  su_functions_named : string -> list FunctionDefinition;
}.

Record ContractDefinition : Type := {
  cd_contract_id : Z;            (* .contract_id *)
  cd_parent : SourceUnit;        (* .parent() *)
}.

(** A branch node of [get_branch_nodes]: its [.offset] and [.jump]. *)
Record BranchNode : Set := {
  bn_offset : Offset;
  bn_jump : bool;
}.

(** ** Program counter records *)

Module Pc.

(** An element of [pc_list]; an absent key is [None] (or [false] for the
    two markers, which are only ever set to [True]). *)
Record t : Set := mk {
  op : string;
  pc : Z;
  first_revert : bool;
  jump : option field;
  value : option string;
  path : option string;
  offset : option Offset;
  fn : option string;
  statement : option Z;
  branch : option Z;
  jump_revert : bool;
}.

Definition new (o : string) (p : Z) : t :=
  mk o p false None None None None None None None false.

Definition set_first_revert (e : t) : t :=
  mk (op e) (pc e) true (jump e) (value e) (path e) (offset e) (fn e)
     (statement e) (branch e) (jump_revert e).
Definition set_jump (j : field) (e : t) : t :=
  mk (op e) (pc e) (first_revert e) (Some j) (value e) (path e) (offset e)
     (fn e) (statement e) (branch e) (jump_revert e).
Definition set_value (v : string) (e : t) : t :=
  mk (op e) (pc e) (first_revert e) (jump e) (Some v) (path e) (offset e)
     (fn e) (statement e) (branch e) (jump_revert e).
Definition set_path (p : string) (e : t) : t :=
  mk (op e) (pc e) (first_revert e) (jump e) (value e) (Some p) (offset e)
     (fn e) (statement e) (branch e) (jump_revert e).
Definition set_offset (o : Offset) (e : t) : t :=
  mk (op e) (pc e) (first_revert e) (jump e) (value e) (path e) (Some o)
     (fn e) (statement e) (branch e) (jump_revert e).
Definition set_fn (f : string) (e : t) : t :=
  mk (op e) (pc e) (first_revert e) (jump e) (value e) (path e) (offset e)
     (Some f) (statement e) (branch e) (jump_revert e).
Definition set_statement (c : Z) (e : t) : t :=
  mk (op e) (pc e) (first_revert e) (jump e) (value e) (path e) (offset e)
     (fn e) (Some c) (branch e) (jump_revert e).
Definition set_branch (c : Z) (e : t) : t :=
  mk (op e) (pc e) (first_revert e) (jump e) (value e) (path e) (offset e)
     (fn e) (statement e) (Some c) (jump_revert e).
(** [.update({'offset': o, 'jump_revert': True})] *)
Definition set_jump_revert (o : Offset) (e : t) : t :=
  mk (op e) (pc e) (first_revert e) (jump e) (value e) (path e) (Some o)
     (fn e) (statement e) (branch e) true.

End Pc.

#[global] Instance pc_eq_dec : EqDecision Pc.t.
Proof. solve_decision. Defined.

(** ** Coverage Correlator *)

(** The variables of the [while source_map] loop. *)
Record state : Type := mkstate {
  opcodes : list string;                                  (* deque *)
  pc_list : list Pc.t;
  count : Z;
  pc : Z;
  first_revert : option string;
  revert_map : list (string * string * list nat);
  statement_nodes : list (string * list Offset);
  statement_map : list (string * list (string * list (Z * Offset)));
  branch_active : list (string * list (Offset * nat));
  branch_set : list (string * list (Offset * (nat * nat)));
}.

(** [source[k]]; a row that is [None] cannot be subscripted. *)
Definition item (source : option row) (k : nat) : result field :=
  r ← of_option TypeError source; of_option IndexError (r !! k).

(** [source[0]+source[1]].  Positions 0 to 2 of a row hold [None] or an
    [int] ([_expand_row] converts them), so the operands are never [str]. *)
Definition add (a b : field) : result Z :=
  match a, b with
  | FInt x, FInt y => Ok (x + y)
  | _, _ => Err TypeError
  end.

Section Walk.

(** [sources.is_inside_offset(inner, outer)], defined in
    [brownie/project/sources.py]; the walk is parametric in it. *)
Variable is_inside_offset : Offset -> Offset -> bool.
(** [source_nodes], keyed by contract id. *)
Variable source_nodes : list (Z * SourceUnit).
(** [branch_nodes] after line 247: per path, the set of branch offsets. *)
Variable branch_nodes : list (string * list Offset).

(** [source_nodes[key]]: the keys are contract ids, so any other key is
    missing. *)
Definition unit_of (key : field) : result SourceUnit :=
  match key with
  | FInt z => of_option KeyError (dict_get z source_nodes)
  | _ => Err KeyError
  end.

(** Lines 261-279: pop the entry's opcode, flag the first revert, record
    the jump code, advance [pc] and take a push operand. *)
Definition fetch (source : option row) (st : state)
  : result (list string * Pc.t * Z * option string) :=
  match opcodes st with
  | [] => Err IndexError                                 (* popleft *)
  | o :: ops =>
      let cur := Pc.new o (pc st) in
      let pl := pc_list st in
      let flag :=
        bool_decide (first_revert st = None)
        && bool_decide (o = "REVERT")
        && bool_decide (Pc.op <$> drop (length pl - 3) pl
                        = ["JUMPDEST"; "PUSH1"; "DUP1"]) in
      let fr :=
        if flag
        then Some (String.append "0x"
                     (Str.drop 2 (Str.upper (Str.hex (pc st - 4)))))
        else first_revert st in
      let cur := if flag then Pc.set_first_revert cur else cur in
      s3 ← item source 3;
      let cur := if bool_decide (s3 = FStr "-") then cur
                 else Pc.set_jump s3 cur in
      let pc1 := pc st + 1 in
      nxt ← of_option IndexError (head ops);             (* opcodes[0] *)
      if bool_decide (Str.take 2 nxt = "0x") then
        n ← Str.int (Str.drop 4 o);
        Ok (tail ops, Pc.set_value nxt cur, pc1 + n, fr)
      else Ok (ops, cur, pc1, fr)
  end.

(** Lines 293-304.  [idx] is [len(pc_list)-1].  The [for] of the first
    branch rebinds the function's variable [offset], which the rest of
    the iteration then reads: the result carries the value of [offset]
    after the statement. *)
Definition mark_branches (o : string) (idx : nat) (path : string)
    (offset : Offset) (st : state)
  : result (Offset * list (string * list (Offset * nat))
            * list (string * list (Offset * (nat * nat)))) :=
  active ← of_option KeyError (dict_get path (branch_active st));
  if negb (bool_decide (active = [])) && bool_decide (o = "JUMPI") then
    resolved ← of_option KeyError (dict_get path (branch_set st));
    let resolved :=
      foldl (fun acc kv => dict_set kv.1 (kv.2, idx) acc) resolved active in
    Ok (default offset (fst <$> last active),
        dict_set path [] (branch_active st),
        dict_set path resolved (branch_set st))
  else
    candidates ← of_option KeyError (dict_get path branch_nodes);
    if bool_decide (offset ∈ candidates) then
      resolved ← of_option KeyError (dict_get path (branch_set st));
      Ok (offset,
          dict_set path (dict_set offset idx active) (branch_active st),
          dict_set path (dict_del offset resolved) (branch_set st))
    else Ok (offset, branch_active st, branch_set st).

(** Lines 306-325, the [try] block: what it has changed when it ends or
    when [KeyError], [IndexError] or [StopIteration] interrupts it. *)
Definition attribute (unit : SourceUnit) (path : string) (offset : Offset)
    (cur : Pc.t) (st : state)
  : Pc.t * list (string * list Offset)
    * list (string * list (string * list (Z * Offset))) * Z :=
  let unchanged := (cur, statement_nodes st, statement_map st, count st) in
  match last (pc_list st) with
  | None => unchanged                                    (* pc_list[-2] *)
  | Some prev =>
      if bool_decide (Pc.offset prev = Some offset) then
        match Pc.fn prev with
        | None => unchanged                              (* ['fn'] *)
        | Some f => (Pc.set_fn f cur, statement_nodes st,
                     statement_map st, count st)
        end
      else
        match su_functions_at unit offset with
        | [] => unchanged                                (* [0] *)
        | f :: _ =>
            let name := fd_full_name f in
            let cur := Pc.set_fn name cur in
            let named := (cur, statement_nodes st, statement_map st,
                          count st) in
            match dict_get path (statement_nodes st) with
            | None => named
            | Some candidates =>
                match find (is_inside_offset offset) candidates with
                | None => named                          (* next(...) *)
                | Some statement =>
                    let nodes :=
                      dict_set path
                        (filter (fun i => i ≠ statement) candidates)
                        (statement_nodes st) in
                    match dict_get path (statement_map st) with
                    | None => (cur, nodes, statement_map st, count st)
                    | Some by_fn =>
                        let of_fn := default [] (dict_get name by_fn) in
                        (Pc.set_statement (count st) cur,
                         nodes,
                         dict_set path
                           (dict_set name
                              (dict_set (count st) statement of_fn) by_fn)
                           (statement_map st),
                         count st + 1)
                    end
                end
            end
        end
  end.

(** Lines 326-330.  [len(pc_list)] is [idx + 1]. *)
Definition track_revert (ops : list string) (fr : option string)
    (idx : nat) (cur : Pc.t) (rm : list (string * string * list nat))
  : result (list (string * string * list nat)) :=
  match Pc.value cur with
  | None => Ok rm
  | Some v =>
      if bool_decide (Some v = fr) then
        nxt ← of_option IndexError (head ops);
        if bool_decide (nxt ∈ ["JUMP"; "JUMPI"]) then
          p ← of_option KeyError (Pc.path cur);
          f ← of_option KeyError (Pc.fn cur);
          let values := default [] (dict_get (p, f) rm) in
          Ok (dict_set (p, f) (values ++ [S idx]) rm)
        else Ok rm
      else Ok rm
  end.

(** One iteration of the loop, for the popped entry [source]. *)
Definition step (source : option row) (st : state) : result state :=
  '(ops, cur, pc', fr) ← fetch source st;
  let idx := length (pc_list st) in
  let skip cur :=
    Ok (mkstate ops (pc_list st ++ [cur]) (count st) pc' fr (revert_map st)
          (statement_nodes st) (statement_map st) (branch_active st)
          (branch_set st)) in
  s2 ← item source 2;
  if bool_decide (s2 = FInt (-1)) then skip cur else
  unit ← unit_of s2;
  let path := su_path unit in
  let cur := Pc.set_path path cur in
  s0 ← item source 0;
  if bool_decide (s0 = FInt (-1)) then skip cur else
  s1 ← item source 1;
  stop ← add s0 s1;
  match s0 with
  | FInt start =>
      let offset := (start, stop) in
      let cur := Pc.set_offset offset cur in
      '(offset, active, resolved) ← mark_branches (Pc.op cur) idx path offset st;
      let '(cur, nodes, smap, cnt) := attribute unit path offset cur st in
      rm ← track_revert ops fr idx cur (revert_map st);
      Ok (mkstate ops (pc_list st ++ [cur]) cnt pc' fr rm nodes smap
            active resolved)
  | _ => Err TypeError
  end.

(** [while source_map: source = source_map.popleft() ...] *)
Fixpoint walk (source_map : list (option row)) (st : state) : result state :=
  match source_map with
  | [] => Ok st
  | source :: rest => st' ← step source st; walk rest st'
  end.

End Walk.

(** [for x in l: acc = f(acc, x)], stopping at the first exception. *)
Fixpoint fold_result {A B} (f : A -> B -> result A) (acc : A) (l : list B)
  : result A :=
  match l with
  | [] => Ok acc
  | x :: l' => acc' ← f acc x; fold_result f acc' l'
  end.

(** ** Revert Reconciliation Pass *)

(** [next((x for x in pc_list if 'offset' in x and x['offset'] == offset),
    False)]: a record is a non-empty dict, so the result is truthy exactly
    when some record carries the offset. *)
Definition has_offset (pl : list Pc.t) (o : Offset) : bool :=
  existsb (fun x => bool_decide (Pc.offset x = Some o)) pl.

(** Lines 342-349, for one bare [revert()] node; [values] is the list of
    jump steps still recorded for the function. *)
Definition claim (acc : list nat * list Pc.t) (node : FunctionCall)
  : result (list nat * list Pc.t) :=
  let '(values, pl) := acc in
  if has_offset pl (fc_offset node) then Ok acc
  else
    match values with
    | [] => Err IndexError                                 (* values[0] *)
    | i :: values' =>
        e ← of_option IndexError (pl !! i);                (* pc_list[...] *)
        Ok (values', <[i := Pc.set_jump_revert (fc_offset node) e]> pl)
    end.

(** The nodes of line 341: [i for i in revert_nodes if not i.arguments]. *)
Definition bare (revert_nodes : list FunctionCall) : list FunctionCall :=
  filter (fun i => fc_arguments i = []) revert_nodes.

(** Lines 334-349 for one item of [revert_map]. *)
Definition reconcile_function (source_nodes : list (Z * SourceUnit))
    (pl : list Pc.t) (entry : string * string * list nat)
  : result (list nat * list Pc.t) :=
  let '(path, fn_name, values) := entry in
  unit ← of_option StopIteration
           (find (fun u => bool_decide (su_path u = path)) (snd <$> source_nodes));
  fn_node ← of_option IndexError (head (su_functions_named unit fn_name));
  fold_result claim (values, pl) (bare (fd_reverts fn_node)).

(** Lines 333-349: the pass over [revert_map.items()].  The result is
    [pc_list] and [revert_map] with the claimed steps deleted. *)
Definition reconcile_reverts (source_nodes : list (Z * SourceUnit))
    (rm : list (string * string * list nat)) (pl : list Pc.t)
  : result (list (string * string * list nat) * list Pc.t) :=
  fold_result
    (fun acc entry =>
       '(values, pl) ← reconcile_function source_nodes acc.2 entry;
       Ok (acc.1 ++ [(entry.1, values)], pl))
    ([], pl) rm.

(** ** Branch Finalizer *)

Abbreviation BranchMap :=
  (list (string * list (string * list (Z * (Z * Z * bool))))).

(** Lines 356-368 for one resolved pair.  [source_nodes] is keyed by
    contract id, so [source_nodes[path]] on line 361 finds no key. *)
Definition finalize_branch (branch_original : list (string * list BranchNode))
    (acc : list Pc.t * BranchMap * Z)
    (entry : string * Offset * (nat * nat))
  : result (list Pc.t * BranchMap * Z) :=
  let '(pl, bm, cnt) := acc in
  let '(path, offset, (armed, jumpi)) := entry in
  e ← of_option IndexError (pl !! armed);
  let pl := <[armed := Pc.set_branch cnt e]> pl in
  e ← of_option IndexError (pl !! jumpi);
  let pl := <[jumpi := Pc.set_branch cnt e]> pl in
  e ← of_option IndexError (pl !! armed);
  fn ← of_option KeyError (Pc.fn e);
  nodes ← of_option KeyError (dict_get path branch_original);
  node ← of_option StopIteration
           (find (fun i => bool_decide (bn_offset i = offset)) nodes);
  by_fn ← of_option KeyError (dict_get path bm);
  let of_fn := default [] (dict_get fn by_fn) in
  Ok (pl,
      dict_set path
        (dict_set fn
           (dict_set cnt (offset.1, offset.2, bn_jump node) of_fn) by_fn) bm,
      cnt + 1).

(** [[(k, x, y) for k, v in branch_set.items() for x, y in v.items()]] *)
Definition resolved_pairs (bs : list (string * list (Offset * (nat * nat))))
  : list (string * Offset * (nat * nat)) :=
  bs ≫= (fun kv => (fun xy => (kv.1, xy.1, xy.2)) <$> kv.2).

(** Lines 352-368. *)
Definition finalize_branches (paths : list string)
    (branch_original : list (string * list BranchNode))
    (bs : list (string * list (Offset * (nat * nat))))
    (pl : list Pc.t) (cnt : Z)
  : result (list Pc.t * BranchMap * Z) :=
  fold_result (finalize_branch branch_original)
    (pl, dict_of ((fun i => (i, [])) <$> paths), cnt) (resolved_pairs bs).

(** [m[path][fn][index]], if all three keys are there. *)
Definition entry_at {V} (m : list (string * list (string * list (Z * V))))
    (path fn : string) (index : Z) : option V :=
  by_fn ← dict_get path m; of_fn ← dict_get fn by_fn; dict_get index of_fn.

(** The step [i] is the armed step or the [JUMPI] step of a resolved pair. *)
Definition mentions (entry : string * Offset * (nat * nat)) (i : nat) : Prop :=
  i = entry.2.1 \/ i = entry.2.2.

(** What the finaliser needs of a resolved pair: both steps exist, the
    armed step has a function label, the path is one of [paths] and the
    offset is that of a branch node of the path. *)
Definition attributable (paths : list string)
    (branch_original : list (string * list BranchNode)) (pl : list Pc.t)
    (entry : string * Offset * (nat * nat)) : Prop :=
  let '(path, offset, (armed, jumpi)) := entry in
  (exists e fn, pl !! armed = Some e /\ Pc.fn e = Some fn)
  /\ (jumpi < length pl)%nat
  /\ path ∈ paths
  /\ exists nodes node,
       dict_get path branch_original = Some nodes
       /\ find (fun i => bool_decide (bn_offset i = offset)) nodes = Some node.

(** The invariant of the loop on the branch markers: armed and resolving
    step indices are indices of [pc_list], marked offsets are branch
    offsets of their path, and every path of [branch_set] is one of
    [paths]. *)
Definition branch_inv (paths : list string)
    (branch_nodes : list (string * list Offset)) (st : state) : Prop :=
  (forall path active o a,
     (path, active) ∈ branch_active st -> (o, a) ∈ active ->
     (a < length (pc_list st))%nat
     /\ exists cands, dict_get path branch_nodes = Some cands /\ (o ∈ cands))
  /\ (forall path resolved,
        (path, resolved) ∈ branch_set st ->
        path ∈ paths
        /\ forall o a j,
             (o, (a, j)) ∈ resolved ->
             (a < length (pc_list st))%nat /\ (j < length (pc_list st))%nat
             /\ exists cands, dict_get path branch_nodes = Some cands /\ (o ∈ cands)).

(** ** [generate_coverage_data] *)

Record Contract : Type := {
  node : ContractDefinition;
  dependencies : list ContractDefinition;                  (* .dependencies *)
}.

Abbreviation StatementMap :=
  (list (string * list (string * list (Z * Offset)))).



(** The coverage indices that a statement map or branch map holds, and the
    candidates that the functions of one path have been assigned. *)
Definition coverage_indices {V}
    (m : list (string * list (string * list (Z * V)))) : list Z :=
  flat (flat (fun of_fn : list (Z * V) => of_fn.*1)) m.

Definition assigned (by_fn : list (string * list (Z * Offset))) : list Offset :=
  flat (fun of_fn : list (Z * Offset) => of_fn.*2) by_fn.

(** The invariant of the loop on the statement working sets: the indices
    handed out are distinct and below [count], and per path the candidates
    recorded are distinct and gone from the working set. *)
Definition statement_inv (nodes : list (string * list Offset))
    (smap : StatementMap) (cnt : Z) : Prop :=
  NoDup (coverage_indices smap)
  /\ (forall i, i ∈ coverage_indices smap -> i < cnt)
  /\ forall path by_fn,
       dict_get path smap = Some by_fn ->
       NoDup (assigned by_fn)
       /\ forall o cands, o ∈ assigned by_fn ->
                          dict_get path nodes = Some cands -> o ∉ cands.

Section Generate.

Variable is_inside_offset : Offset -> Offset -> bool.

(** Lines 238-256: the state the loop starts from.  The iteration order
    of the set [paths] is unspecified; the model takes the paths in order
    of first occurrence. *)
Definition source_nodes_of (contract_node : Contract) : list (Z * SourceUnit) :=
  dict_of ((fun i => (cd_contract_id i, cd_parent i))
             <$> node contract_node :: dependencies contract_node).

Definition paths_of (source_nodes : list (Z * SourceUnit)) : list string :=
  set_of ((fun v => su_path v.2) <$> source_nodes).

(** Lines 235-330: set up the working sets and run the loop.  The result
    is what the two passes after the loop read: [source_nodes], [paths],
    [branch_original] and the final state of the loop. *)
Definition correlate (source_map opcodes : string)
    (contract_node : Contract)
    (statement_nodes : list (string * list Offset))
    (branch_nodes : list (string * list BranchNode))
  : result (list (Z * SourceUnit) * list string
            * list (string * list BranchNode) * state) :=
  source_map ← expand_source_map source_map;
  let opcodes := Str.split " " opcodes in
  let source_nodes := source_nodes_of contract_node in
  let paths := paths_of source_nodes in
  statement_nodes ←
    mapM (fun i => v ← of_option KeyError (dict_get i statement_nodes);
                   Ok (i, v)) paths;
  let statement_nodes := dict_of statement_nodes in
  let statement_map0 := dict_of ((fun i => (i, [])) <$> paths) in
  branch_original ←
    mapM (fun i => v ← of_option KeyError (dict_get i branch_nodes);
                   Ok (i, v)) paths;
  let branch_original := dict_of branch_original in
  let branch_nodes :=
    dict_of ((fun kv => (kv.1, set_of (bn_offset <$> kv.2)))
               <$> branch_original) in
  let branch_active0 := dict_of ((fun i => (i, [])) <$> paths) in
  let branch_set0 := dict_of ((fun i => (i, [])) <$> paths) in
  st ← walk is_inside_offset source_nodes branch_nodes source_map
         (mkstate opcodes [] 0 0 None [] statement_nodes statement_map0
            branch_active0 branch_set0);
  Ok (source_nodes, paths, branch_original, st).

(** The function as a whole.  [pc_map] is keyed by the ['pc'] of each
    record; the model leaves the field in the record, where the code pops
    it. *)
Definition generate_coverage_data (source_map opcodes : string)
    (contract_node : Contract)
    (statement_nodes : list (string * list Offset))
    (branch_nodes : list (string * list BranchNode))
  : result (list (Z * Pc.t) * StatementMap * BranchMap) :=
  if bool_decide (opcodes = EmptyString) then Ok ([], [], []) else
  '(source_nodes, paths, branch_original, st) ←
    correlate source_map opcodes contract_node statement_nodes branch_nodes;
  '(_, pl) ← reconcile_reverts source_nodes (revert_map st) (pc_list st);
  '(pl, branch_map, _) ←
    finalize_branches paths branch_original (branch_set st) pl (count st);
  Ok (dict_of ((fun i => (Pc.pc i, i)) <$> pl), statement_map st, branch_map).

End Generate.

(** Modelled from the spec: [sources.is_inside_offset], which is defined
    in [brownie/project/sources.py] and not in [compiler.py].
    The specification speaks of a candidate that "contains" the offset; on
    (start, end) ranges that is containment of the inner range in the
    outer one. *)
Definition contains (inner outer : Offset) : bool :=
  (outer.1 <=? inner.1) && (inner.2 <=? outer.2).

(** ** Syntax Candidate Extractor

    The expression tree of the [solcast] library: a node has attributes
    (['node_type'], ['type'], ['operator'], ['name'], ...), a source offset
    and child nodes in source order, so that the left operand of a
    [BinaryOperation] and the condition of an [IfStatement] or
    [Conditional] come first, and the children of a [FunctionCall] are the
    called expression followed by the arguments.  A node object is
    addressed by its position: the list of child indices leading to it
    from the root of the tree; its [depth] is the length of that list. *)

Module Ast.

#[warnings="-register-all"]
Inductive node : Set :=
  | Node (attrs : list (string * string)) (offset : Offset)
         (children : list node).

Definition attrs (n : node) := let 'Node a _ _ := n in a.
Definition offset (n : node) := let 'Node _ o _ := n in o.
Definition kids (n : node) := let 'Node _ _ k := n in k.

Abbreviation ref := (list nat).

Fixpoint node_at (n : node) (p : ref) : option node :=
  match p with
  | [] => Some n
  | i :: p' => k ← kids n !! i; node_at k p'
  end.

(** The node and everything below it, parents before children, each with
    its position relative to the node. *)
Fixpoint descendants (n : node) : list (ref * node) :=
  ([], n) ::
  (fix below (i : nat) (ks : list node) : list (ref * node) :=
     match ks with
     | [] => []
     | k :: ks' =>
         ((fun d => (i :: d.1, d.2)) <$> descendants k) ++ below (S i) ks'
     end) 0%nat (kids n).

(** A node matches a filter when it has every attribute of the filter
    with the given value, and a tuple of filters when it matches one. *)
Definition check_filter (n : node) (f : list (string * string)) : bool :=
  forallb (fun kv => bool_decide (dict_get kv.1 (attrs n) = Some kv.2)) f.

Definition check_filters (fs : list (list (string * string))) (n : node) : bool :=
  existsb (check_filter n) fs.

Section Tree.

Variable root : node.

Definition attr (p : ref) (key : string) : option string :=
  n ← node_at root p; dict_get key (attrs n).

(** [p.children(include_parents=True, include_self=True, filters=fs)] *)
Definition children (p : ref) (fs : list (list (string * string))) : list ref :=
  match node_at root p with
  | None => []
  | Some n =>
      (fun d => p ++ d.1) <$> filter (fun d => check_filters fs d.2) (descendants n)
  end.

(** [iter(p)]: the child nodes. *)
Definition iter (p : ref) : list ref :=
  match node_at root p with
  | None => []
  | Some n => (fun i => p ++ [i]) <$> seq 0 (length (kids n))
  end.

(** [p.parents(depth, f)]: the ancestors of [p] from its parent up to
    the one at depth [depth], those matching [f]. *)
Definition parents (p : ref) (depth : nat) (f : list (string * string)) : list ref :=
  List.filter
    (fun q => match node_at root q with
              | Some n => check_filter n f
              | None => false
              end)
    ((fun k => take k p) <$> reverse (seq depth (length p - depth))).

(** [i.left], [base.condition]: the first child. *)
Definition left (i : ref) : ref := i ++ [0%nat].
Definition condition (i : ref) : result ref :=
  match node_at root (i ++ [0%nat]) with
  | Some _ => Ok (i ++ [0%nat])
  | None => Err AttributeError
  end.
(** [i.arguments]: the children after the called expression. *)
Definition arguments (i : ref) : list ref := drop 1 (iter i).

(** [p.is_child_of(q)] *)
Definition is_child_of (p q : ref) : bool :=
  bool_decide (length q < length p)%nat && bool_decide (take (length q) p = q).

Definition on_left_of (p i : ref) : bool :=
  bool_decide (left i = p) || is_child_of p (left i).

Definition bool_operation : list (string * string) :=
  [("node_type", "BinaryOperation"); ("type", "bool")].

Definition _is_rightmost_operation (p : ref) (depth : nat) : bool :=
  let parents := parents p depth bool_operation in
  negb (bool_decide (is_Some (find (on_left_of p) parents))).

Definition _check_left_operator (p : ref) (depth : nat) : result bool :=
  let parents := parents p depth bool_operation in
  i ← of_option StopIteration (find (on_left_of p) parents);
  Ok (bool_decide (attr i "operator" = Some "||")).

Definition filters : list (list (string * string)) :=
  [ [("node_type", "BinaryOperation"); ("type", "bool"); ("operator", "||")];
    [("node_type", "BinaryOperation"); ("type", "bool"); ("operator", "&&")] ].

(** One turn of the loop of lines 446-453 for the node [p]: nothing for
    a node that holds a boolean operation, else the node with the value
    assigned to its [jump]. *)
Definition branch_of (jump : bool) (depth : nat) (p : ref)
  : result (list (ref * bool)) :=
  if bool_decide (children p filters = []) then
    if _is_rightmost_operation p depth then Ok [(p, jump)]
    else j ← _check_left_operator p depth; Ok [(p, j)]
  else Ok [].

(** The result is the set returned, each node with its [jump]. *)
Definition _get_recursive_branches (base_node : ref) : result (list (ref * bool)) :=
  let jump := bool_decide (attr base_node "node_type" = Some "FunctionCall") in
  p ← (if jump then Ok base_node else condition base_node);
  let depth := length base_node in
  let all_binaries := children p filters in
  if bool_decide (all_binaries = []) then
    if jump then
      a ← of_option IndexError (head (arguments p));
      Ok [(a, jump)]
    else Ok [(p, jump)]
  else
    found ← mapM (branch_of jump depth) (all_binaries ≫= iter);
    Ok (concat found).

End Tree.

(** A node with no boolean [||] or [&&] operation in it: as an operand it
    is a leaf of the short-circuit decomposition. *)
Definition plain (n : node) : Prop :=
  Forall (fun d => check_filters filters d.2 = false) (descendants n).

(** The boolean operation [a || b]. *)
Definition disjunction (offset : Offset) (a b : node) : node :=
  Node [("node_type", "BinaryOperation"); ("type", "bool"); ("operator", "||")]
    offset [a; b].

End Ast.

(** ** Sample inputs *)

Module Sample.

(** [function f(bool a, bool b) { require(a || b); }] *)
Definition identifier (name : string) (offset : Offset) : Ast.node :=
  Ast.Node [("node_type", "Identifier"); ("name", name)] offset [].

Definition require_call : Ast.node :=
  Ast.Node [("node_type", "FunctionCall"); ("name", "require")] (40, 55)
    [identifier "require" (40, 47);
     Ast.disjunction (48, 54) (identifier "a" (48, 49)) (identifier "b" (53, 54))].

Definition function_f : Ast.node :=
  Ast.Node [("node_type", "FunctionDefinition"); ("name", "f")] (0, 60)
    [Ast.Node [("node_type", "Block")] (30, 60)
       [Ast.Node [("node_type", "ExpressionStatement")] (40, 56) [require_call]]].


(** A source unit [c.sol] with one contract, id 0, and the given functions,
    each with the range of its definition. *)
Definition unit_of_functions (path : string)
    (fns : list (FunctionDefinition * Offset)) : SourceUnit :=
  {| su_path := path;
     su_functions_at := fun o =>
       fst <$> List.filter (fun f => contains o f.2) fns;
     su_functions_named := fun n =>
       fst <$> List.filter (fun f => bool_decide (fd_full_name f.1 = n)) fns |}.

Definition revert_at (o : Offset) : FunctionCall :=
  {| fc_offset := o; fc_arguments := [] |}.

(** [C.f] spans (10, 100) and holds the given bare [revert()] calls. *)
Definition contract_with (reverts : list FunctionCall) : Contract :=
  {| node :=
       {| cd_contract_id := 0;
          cd_parent :=
            unit_of_functions "c.sol"
              [({| fd_full_name := "C.f"; fd_reverts := reverts |}, (10, 100))] |};
     dependencies := [] |}.

Definition branch_at (o : Offset) (jump : bool) : BranchNode :=
  {| bn_offset := o; bn_jump := jump |}.

(** The state in which the loop ends. *)
Definition run (source_map opcodes : string) (contract_node : Contract)
    (statement_nodes : list (string * list Offset))
    (branch_nodes : list (string * list BranchNode)) : result state :=
  snd <$> correlate contains source_map opcodes contract_node
            statement_nodes branch_nodes.

(** What a lemma shows of a result. *)
Definition view {A B} (f : A -> B) (r : result A) : result B := f <$> r.

(** The records of the program counter map that is returned. *)
Definition records (r : list (Z * Pc.t) * StatementMap * BranchMap)
  : list Pc.t := r.1.1.*2.

Definition state_of (r : result state) : state :=
  match r with
  | Ok st => st
  | Err _ => mkstate [] [] 0 0 None [] [] [] [] []
  end.

(** [require(c)] with the branch candidate [c] at (20, 25): a push whose
    source is [c], then the [JUMPI]. *)
Definition condition : list (string * list BranchNode) :=
  [("c.sol", [branch_at (20, 25) true])].

(** The loop after the push: the candidate is armed at step 0. *)
Definition armed : state :=
  Eval vm_compute in
    state_of (run "20:5:0:-" "PUSH1 0x1 JUMPI STOP " (contract_with [])
                [("c.sol", [])] condition).

(** The loop after a [JUMPI] whose entry carries the offset (25, 30). *)
Definition resolved : state :=
  Eval vm_compute in
    state_of (run "20:5:0:-;25:5:0:-" "PUSH1 0x1 JUMPI STOP "
                (contract_with []) [("c.sol", [])] condition).

(** The selector's revert block at pc 0, then two pushes of its address,
    each followed by a [JUMPI]. *)
Definition revert_opcodes : string :=
  "JUMPDEST PUSH1 0x0 DUP1 REVERT PUSH1 0x0 JUMPI PUSH1 0x0 JUMPI STOP ".

Definition revert_map_9 : string := "0:5:0:-;;;;20:5;25:5;30:5;35:5;40:5".

(** The loop before and after the first push that follows the block. *)
Definition before_push : state :=
  Eval vm_compute in
    state_of (run "0:5:0:-;;;" revert_opcodes (contract_with [])
                [("c.sol", [])] [("c.sol", [])]).

Definition after_push : state :=
  Eval vm_compute in
    state_of (run "0:5:0:-;;;;20:5" revert_opcodes (contract_with [])
                [("c.sol", [])] [("c.sol", [])]).

(** Two branch candidates armed one after the other and resolved by the
    same [JUMPI]; the first is also a statement. *)
Definition two_branches : list (string * list BranchNode) :=
  [("c.sol", [branch_at (20, 25) true; branch_at (30, 35) false])].

Definition shared_jumpi : state :=
  Eval vm_compute in
    state_of (run "0:5:0:-;20:5:0:-;30:5;30:5"
                "STOP PUSH1 0x1 PUSH1 0x2 JUMPI STOP "
                (contract_with []) [("c.sol", [(20, 25)])] two_branches).

End Sample.


(** ** Further notions for the walk and the passes after it *)

(** The fields of a record that the loop sets and the passes after the
    loop leave alone: all but ['offset'], ['branch'] and ['jump_revert']. *)
Definition pc_core (e : Pc.t)
  : string * Z * bool * option field * option string * option string
    * option string * option Z :=
  (Pc.op e, Pc.pc e, Pc.first_revert e, Pc.jump e, Pc.value e, Pc.path e,
   Pc.fn e, Pc.statement e).

(** The number of operand bytes that line 279 adds to [pc] for a record:
    none without operand, else [int(op[4:])]. *)
Definition push_width (e : Pc.t) : result Z :=
  match Pc.value e with
  | None => Ok 0
  | Some _ => Str.int (Str.drop 4 (Pc.op e))
  end.

(** The program counters of [pl] are those of consecutive instructions
    starting at [start], [next] being the counter after the last. *)
Fixpoint consecutive (start : Z) (pl : list Pc.t) (next : Z) : Prop :=
  match pl with
  | [] => next = start
  | e :: rest =>
      Pc.pc e = start
      /\ exists w, push_width e = Ok w /\ consecutive (start + 1 + w) rest next
  end.

(** The tokens of the opcode string that a list of records stands for:
    each opcode, followed by its operand if it has one. *)
Definition record_tokens (pl : list Pc.t) : list string :=
  pl ≫= (fun e => Pc.op e :: option_list (Pc.value e)).

(** ** Sample outputs *)

Module Output.

Import Sample.

Definition unwrap (r : result (list (Z * Pc.t) * StatementMap * BranchMap))
  : list (Z * Pc.t) * StatementMap * BranchMap :=
  match r with
  | Ok x => x
  | Err _ => ([], [], [])
  end.

(** One statement and two branches that share a [JUMPI]. *)
Definition two_branch_map : string := "0:5:0:-;20:5:0:-;30:5;30:5".
Definition two_branch_opcodes : string := "STOP PUSH1 0x1 PUSH1 0x2 JUMPI STOP ".
Definition two_branch_statements : list (string * list Offset) :=
  [("c.sol", [(20, 25)])].

Definition two_branch_run : list (Z * Pc.t) * StatementMap * BranchMap :=
  Eval vm_compute in
    unwrap (generate_coverage_data contains two_branch_map two_branch_opcodes
          (contract_with []) two_branch_statements two_branches).

(** The selector's revert block, a jump to it that a bare [revert()] at
    (50, 58) claims, two statements and one branch. *)
Definition revert_statements : list (string * list Offset) :=
  [("c.sol", [(20, 25); (30, 35)])].
Definition revert_branches : list (string * list BranchNode) :=
  [("c.sol", [branch_at (25, 30) true])].

Definition revert_run : list (Z * Pc.t) * StatementMap * BranchMap :=
  Eval vm_compute in
    unwrap (generate_coverage_data contains revert_map_9 revert_opcodes
          (contract_with [revert_at (50, 58)]) revert_statements
          revert_branches).

End Output.

(** The invariant of the loop on the statement indices: the records carry
    the indices 0, 1, ... in the order of the steps, up to [count]; the
    statement map holds the same indices, under the paths it started
    with; the working sets hold candidates of the input; and the index
    of a record leads, under the record's path and function, to a
    candidate of the input. *)
Definition ledger_inv (paths : list string)
    (nodes0 : list (string * list Offset)) (st : state) : Prop :=
  0 <= count st
  /\ omap Pc.statement (pc_list st) = Z.of_nat <$> seq 0 (Z.to_nat (count st))
  /\ coverage_indices (statement_map st)
     ≡ₚ Z.of_nat <$> seq 0 (Z.to_nat (count st))
  /\ (statement_map st).*1 = paths
  /\ (forall path cands,
        dict_get path (statement_nodes st) = Some cands ->
        exists cands0, dict_get path nodes0 = Some cands0 /\ cands ⊆ cands0)
  /\ forall e c,
       e ∈ pc_list st -> Pc.statement e = Some c ->
       exists path fn stmt cands0,
         Pc.path e = Some path /\ Pc.fn e = Some fn
         /\ entry_at (statement_map st) path fn c = Some stmt
         /\ dict_get path nodes0 = Some cands0 /\ (stmt ∈ cands0).


(** The operand that line 270 keeps for a revert block whose [REVERT] is
    at [pc]. *)
Definition revert_target (pc : Z) : string :=
  String.append "0x" (Str.drop 2 (Str.upper (Str.hex (pc - 4)))).


(** The invariant of the loop on [revert_map]: a step listed for a path
    and function comes directly after a record of this path and function
    whose operand is the target kept in [first_revert], and it is, or
    will be if the loop goes on, a [JUMP] or [JUMPI]; and no record is
    marked ['branch'] or ['jump_revert'] yet. *)
Definition revert_map_inv (st : state) : Prop :=
  (forall e, e ∈ pc_list st -> Pc.branch e = None /\ Pc.jump_revert e = false)
  /\ forall p f values v,
       (p, f, values) ∈ revert_map st -> v ∈ values ->
       exists k prev target,
         v = S k /\ pc_list st !! k = Some prev
         /\ Pc.value prev = Some target /\ first_revert st = Some target
         /\ Pc.path prev = Some p /\ Pc.fn prev = Some f
         /\ match pc_list st !! v with
            | Some e => Pc.op e ∈ ["JUMP"; "JUMPI"]
            | None => v = length (pc_list st)
                      /\ exists nxt, head (opcodes st) = Some nxt
                                     /\ nxt ∈ ["JUMP"; "JUMPI"]
            end.


(** What an expanded entry says of its record: the jump code unless it
    is ["-"], the path of the source unit unless the id is -1, and the
    offset unless the id or the start is -1. *)
Definition entry_jump (r : row) : option field :=
  match r !! 3%nat with
  | Some j => if bool_decide (j = FStr "-") then None else Some j
  | None => None
  end.

Definition entry_path (source_nodes : list (Z * SourceUnit)) (r : row)
  : option string :=
  match r !! 2%nat with
  | Some (FInt id) =>
      if bool_decide (id = -1) then None
      else su_path <$> dict_get id source_nodes
  | _ => None
  end.

Definition entry_offset (r : row) : option Offset :=
  match r !! 2%nat, r !! 0%nat with
  | Some (FInt id), Some (FInt start) =>
      if bool_decide (id = -1) || bool_decide (start = -1) then None
      else match r !! 1%nat with
           | Some (FInt length) => Some (start, start + length)
           | _ => None
           end
  | _, _ => None
  end.

Definition mirrors (source_nodes : list (Z * SourceUnit)) (e : Pc.t)
    (source : option row) : Prop :=
  exists r, source = Some r
            /\ Pc.jump e = entry_jump r
            /\ Pc.path e = entry_path source_nodes r
            /\ Pc.offset e = entry_offset r.

(** The node at [q] is a boolean operation, as the [parents] query of
    [_is_rightmost_operation] and [_check_left_operator] filters them. *)
Definition boolean_at (root : Ast.node) (q : Ast.ref) : bool :=
  match Ast.node_at root q with
  | Some n => Ast.check_filter n Ast.bool_operation
  | None => false
  end.

(** The boolean operation [a op b], for [op] one of [||] and [&&]. *)
Definition boolean_operation (operator : string) (offset : Offset)
    (a b : Ast.node) : Ast.node :=
  Ast.Node [("node_type", "BinaryOperation"); ("type", "bool");
            ("operator", operator)] offset [a; b].

(** ** Sample trees *)

Module Trees.

(** [function g(bool a, bool b) { if (a && b) { } }] *)
Definition if_and : Ast.node :=
  Ast.Node [("node_type", "IfStatement")] (40, 60)
    [boolean_operation "&&" (44, 50)
       (Sample.identifier "a" (44, 45)) (Sample.identifier "b" (49, 50));
     Ast.Node [("node_type", "Block")] (52, 60) []].

Definition function_g : Ast.node :=
  Ast.Node [("node_type", "FunctionDefinition"); ("name", "g")] (0, 62)
    [Ast.Node [("node_type", "Block")] (30, 62) [if_and]].

(** [function h(bool a, bool b) { require(a && b); }] *)
Definition require_and : Ast.node :=
  Ast.Node [("node_type", "FunctionCall"); ("name", "require")] (40, 55)
    [Sample.identifier "require" (40, 47);
     boolean_operation "&&" (48, 54)
       (Sample.identifier "a" (48, 49)) (Sample.identifier "b" (53, 54))].

Definition function_h : Ast.node :=
  Ast.Node [("node_type", "FunctionDefinition"); ("name", "h")] (0, 60)
    [Ast.Node [("node_type", "Block")] (30, 60)
       [Ast.Node [("node_type", "ExpressionStatement")] (40, 56) [require_and]]].


End Trees.

(** ** [format_link_references]

    More of Python's [str]: slices with a bound that may be negative or
    beyond the end, and the format specification [:_<36]. *)

(** [s[:n]] *)
Definition slice_to (n : Z) (s : string) : string :=
  if n <? 0 then Str.take (Z.to_nat (Z.of_nat (String.length s) + n)) s
  else Str.take (Z.to_nat n) s.

(** [s[n:]] *)
Definition slice_from (n : Z) (s : string) : string :=
  if n <? 0 then Str.drop (Z.to_nat (Z.of_nat (String.length s) + n)) s
  else Str.drop (Z.to_nat n) s.

Fixpoint repeat_char (c : ascii) (n : nat) : string :=
  match n with
  | O => EmptyString
  | S n' => String c (repeat_char c n')
  end.

(** [f"{s:_<36}"]: [s] left-aligned in 36 characters, filled with ["_"]. *)
Definition pad36 (s : string) : string :=
  String.append s (repeat_char "_" (36 - String.length s)).

(** An element of the list that a library name maps to in
    [linkReferences]: the byte position and the byte length of the
    reference, of which the code reads ['start']. *)
Record LinkReference : Set := {
  lr_start : Z;
  lr_length : Z;
}.

(** [__{n[:36]:_<36}__] *)
Definition placeholder (n : string) : string :=
  String.append "__" (String.append (pad36 (Str.take 36 n)) "__").

(** The body of the loop of line 188. *)
Definition link (bytecode : string) (reference : string * Z) : string :=
  let '(n, loc) := reference in
  String.append (slice_to loc bytecode)
    (String.append (placeholder n) (slice_from (loc + 40) bytecode)).

(** The list that line 187 builds: each library name with the character
    position of each of its references. *)
Definition link_positions
    (linkReferences : list (string * list (string * list LinkReference)))
  : list (string * Z) :=
  let references := linkReferences ≫= (fun v => v.2) in
  references ≫= (fun i => (fun x => (i.1, lr_start x * 2)) <$> i.2).

(** [object] is [evm['bytecode']['object']] and [linkReferences] is
    [evm['bytecode']['linkReferences']], a dictionary from source paths
    to dictionaries from library names to lists of references. *)
Definition format_link_references (object : string)
    (linkReferences : list (string * list (string * list LinkReference)))
  : string :=
  foldl link object (link_positions linkReferences).

(** The character position [i] lies in the window of a reference. *)
Definition in_window (i : nat) (reference : string * Z) : Prop :=
  reference.2 <= Z.of_nat i < reference.2 + 40.

(** A reference whose 40 characters lie within a string of [len]
    characters. *)
Definition in_range (len : nat) (reference : string * Z) : Prop :=
  0 <= reference.2 /\ reference.2 + 40 <= Z.of_nat len.

Module Links.

(** Bytecode with one unlinked library, as solc writes it, and the
    reference to it: 20 bytes from byte 2. *)
Definition unlinked : string :=
  "6080__$0123456789abcdef0123456789abcdef01$__5050".

Definition references : list (string * list (string * list LinkReference)) :=
  [("c.sol", [("Lib", [{| lr_start := 2; lr_length := 20 |}])])].

End Links.

(** * Gas strategies of [brownie/network/gas/strategies.py]

    The two functions that compute a price from the answers of a server:
    [_fetch_gasnow] and [GethMempoolStrategy.mempool_price].  The
    requests are inputs of the model: the answers are given, and the
    number of requests and pauses is part of the result. *)

Module Gas.

(** The exceptions of this module. *)
Inductive error : Set :=
  | ValueError
  | KeyError
  | IndexError
  | HTTPError
  | RPCRequestError.

Inductive outcome (A : Type) : Type :=
  | Return (a : A)
  | Raise (e : error).
Arguments Return {A} a.
Arguments Raise {A} e.

#[global] Instance outcome_ret : MRet outcome := fun A a => Return a.
#[global] Instance outcome_bind : MBind outcome := fun A B f m =>
  match m with
  | Return a => f a
  | Raise e => Raise e
  end.

Definition get {A} (e : error) (o : option A) : outcome A :=
  match o with Some a => Return a | None => Raise e end.

(** ** [int(s, 16)] *)

Definition hex_digit (c : ascii) : option Z :=
  let n := Ascii.nat_of_ascii c in
  if ((48 <=? n) && (n <=? 57))%nat then Some (Z.of_nat (n - 48))
  else if ((97 <=? n) && (n <=? 102))%nat then Some (Z.of_nat (n - 87))
  else if ((65 <=? n) && (n <=? 70))%nat then Some (Z.of_nat (n - 55))
  else None.

(** The digits after the first: a digit, or one underscore followed by a
    digit. *)
Fixpoint hex_digits (acc : Z) (s : string) : option Z :=
  match s with
  | EmptyString => Some acc
  | String c s' =>
      match hex_digit c with
      | Some d => hex_digits (16 * acc + d) s'
      | None =>
          if Ascii.eqb c "_" then
            match s' with
            | String c' s'' =>
                match hex_digit c' with
                | Some d => hex_digits (16 * acc + d) s''
                | None => None
                end
            | EmptyString => None
            end
          else None
      end
  end.

Definition hex_literal (s : string) : option Z :=
  match s with
  | String c s' => d ← hex_digit c; hex_digits d s'
  | EmptyString => None
  end.

(** An optional prefix [0x] or [0X], which one underscore may follow. *)
Definition unsigned16 (s : string) : option Z :=
  match s with
  | String "0" (String x s') =>
      if Ascii.eqb x "x" || Ascii.eqb x "X" then
        match s' with
        | String "_" s'' => hex_literal s''
        | _ => hex_literal s'
        end
      else hex_literal s
  | _ => hex_literal s
  end.

Definition int16 (s : string) : outcome Z :=
  get ValueError
    match Str.rstrip (Str.lstrip s) with
    | String "-" s' => Z.opp <$> unsigned16 s'
    | String "+" s' => unsigned16 s'
    | s' => unsigned16 s'
    end.

(** ** [GethMempoolStrategy.mempool_price] *)

(** [l[:n]] *)
Definition list_slice_to {A} (n : Z) (l : list A) : list A :=
  if n <? 0 then take (Z.to_nat (Z.of_nat (length l) + n)) l
  else take (Z.to_nat n) l.

(** [sorted(l, reverse=True)] *)
Definition sorted_reverse (l : list Z) : list Z := merge_sort (flip Z.le) l.

(** What the GraphQL endpoint answers: a status for which
    [raise_for_status] raises, a body with an ["error"] key, or the
    ['gasPrice'] of each pending transaction. *)
Inductive MempoolResponse : Set :=
  | BadStatus
  | ErrorBody
  | Pending (gas_prices : list string).

(** [position] is [self.position]. *)
Definition mempool_price (position : Z) (response : MempoolResponse) : outcome Z :=
  match response with
  | BadStatus => Raise HTTPError
  | ErrorBody => Raise RPCRequestError
  | Pending data =>
      prices ← mapM int16 data;
      get IndexError (last (list_slice_to position (sorted_reverse prices)))
  end.

(** ** [_fetch_gasnow] *)

(** An answer of the GasNow server: its status code and the dictionary
    under ["data"] of its body. *)
Record Response : Set := {
  status_code : Z;
  json_data : list (string * Z);
}.

(** The module's globals. *)
Record Cache : Set := {
  _gasnow_update : Z;
  _gasnow_data : list (string * Z);
}.

(** What a call leaves: the value returned or the exception raised, the
    globals, and how many requests were sent and pauses of five seconds
    made. *)
Record Fetched : Set := {
  value : outcome Z;
  cache : Cache;
  requests : nat;
  sleeps : nat;
}.

Section Fetch.

(** [time.time() - _gasnow_update > 15], for the time of the call, as a
    function of [_gasnow_update]. *)
Variable stale : Z -> bool.
(** The answer to the [i]-th request of the call. *)
Variable responses : nat -> Response.

(** One turn of [for i in range(12)]: [data], the requests and the
    pauses so far. *)
Definition attempt (acc : option (list (string * Z)) * nat * nat) (i : nat)
  : option (list (string * Z)) * nat * nat :=
  let '(data, sent, slept) := acc in
  let response := responses i in
  if bool_decide (status_code response ≠ 200) then (data, S sent, S slept)
  else (Some (json_data response), S sent, slept).

(** [_gasnow_data.update(data)] *)
Definition update (d data : list (string * Z)) : list (string * Z) :=
  foldl (fun d kv => dict_set kv.1 kv.2 d) d data.

Definition _fetch_gasnow (key : string) (c : Cache) : Fetched :=
  if stale (_gasnow_update c) then
    let '(data, sent, slept) := foldl attempt (None, 0%nat, 0%nat) (seq 0 12) in
    match data with
    | None => Build_Fetched (Raise ValueError) c sent slept
    | Some data =>
        match dict_get "timestamp" data with
        | None => Build_Fetched (Raise KeyError) c sent slept   (* data.pop *)
        | Some timestamp =>
            let c' :=
              {| _gasnow_update := timestamp / 1000;
                 _gasnow_data :=
                   update (_gasnow_data c) (dict_del "timestamp" data) |} in
            Build_Fetched (get KeyError (dict_get key (_gasnow_data c')))
              c' sent slept
        end
    end
  else Build_Fetched (get KeyError (dict_get key (_gasnow_data c))) c 0 0.

(** The [i]-th request fails. *)
Definition failed (i : nat) : Prop := status_code (responses i) ≠ 200.

End Fetch.

End Gas.

Module Answers.

(** Three answers with status 200, each with its own price, then
    failures. *)
Definition responses (i : nat) : Gas.Response :=
  if (i <? 3)%nat
  then Gas.Build_Response 200 [("timestamp", 1600000000123); ("fast", Z.of_nat i)]
  else Gas.Build_Response 500 [].

End Answers.

(** ** Further notions for the branch map *)

(** The entries (start, end, jump flag) that a branch map holds for the
    functions of one path, and those under a path. *)
Definition recorded_branches (by_fn : list (string * list (Z * (Z * Z * bool))))
  : list (Z * Z * bool) :=
  flat (fun of_fn : list (Z * (Z * Z * bool)) => of_fn.*2) by_fn.

Definition branches_under (bm : BranchMap) (path : string)
  : list (Z * Z * bool) :=
  default [] (recorded_branches <$> dict_get path bm).

Definition branch_range (v : Z * Z * bool) : Offset := (v.1.1, v.1.2).

(** The offsets of the resolved pairs of a path, in the order of the
    finaliser. *)
Definition pairs_of (path : string)
    (pairs : list (string * Offset * (nat * nat))) : list Offset :=
  omap (fun e : string * Offset * (nat * nat) =>
          if decide (e.1.1 = path) then Some e.1.2 else None) pairs.

(** The invariant of the loop on the keys of [branch_set]: a path is
    there once, and an offset is there once under its path. *)
Definition branch_keys_inv (st : state) : Prop :=
  NoDup (branch_set st).*1
  /\ forall path resolved,
       (path, resolved) ∈ branch_set st -> NoDup resolved.*1.
(** * Properties *)

(** ** Reasoning about [result] *)

Lemma bind_ok {A B} (m : result A) (k : A -> result B) (r : B) :
  m ≫= k = Ok r -> exists a, m = Ok a /\ k a = Ok r.
Proof. destruct m as [a|e]; simpl; [eauto | discriminate]. Qed.

Lemma bind_err {A B} (m : result A) (k : A -> result B) (e : exn) :
  m = Err e -> m ≫= k = Err e.
Proof. intros ->. reflexivity. Qed.

Lemma fmap_ok {A B} (f : A -> B) (m : result A) (r : B) :
  f <$> m = Ok r -> exists a, m = Ok a /\ r = f a.
Proof. destruct m as [a|e]; simpl; [|discriminate]. intros [= <-]. eauto. Qed.

Lemma of_option_ok {A} (e : exn) (o : option A) (a : A) :
  of_option e o = Ok a <-> o = Some a.
Proof. destruct o; simpl; split; congruence. Qed.

(** Invert a hypothesis [x ← m; k = Ok r]. *)
Tactic Notation "bind_inv" hyp(H) "as" simple_intropattern(a) ident(E) :=
  apply bind_ok in H; destruct H as (a & E & H).

Tactic Notation "bind_inv" hyp(H) :=
  let a := fresh "a" in
  let E := fresh "E" in
  apply bind_ok in H; destruct H as (a & E & H).

Lemma mapM_cons {A B} (f : A -> result B) (x : A) (l : list A) :
  mapM f (x :: l) = y ← f x; k ← mapM f l; Ok (y :: k).
Proof. reflexivity. Qed.

Lemma mapM_length {A B} (f : A -> result B) (l : list A) (l' : list B) :
  mapM f l = Ok l' -> length l' = length l.
Proof.
  revert l'. induction l as [|x l IH]; intros l' H.
  - injection H as <-. reflexivity.
  - rewrite mapM_cons in H. bind_inv H. bind_inv H.
    injection H as <-. simpl. f_equal. eauto.
Qed.

Lemma mapM_lookup {A B} (f : A -> result B) (l : list A) (l' : list B) i x :
  mapM f l = Ok l' -> l !! i = Some x -> exists y, l' !! i = Some y /\ f x = Ok y.
Proof.
  revert l' i. induction l as [|z l IH]; intros l' i H Hx; [done|].
  rewrite mapM_cons in H. bind_inv H. bind_inv H. injection H as <-.
  destruct i as [|i]; simpl in *.
  - injection Hx as ->. eauto.
  - eauto.
Qed.

(** ** Dictionaries *)

Section DictFacts.
Context {K V : Type} `{EqDecision K}.
Implicit Types (k : K) (v : V) (d : list (K * V)).

Lemma dict_get_set_eq k v d : dict_get k (dict_set k v d) = Some v.
Proof.
  induction d as [|[k' v'] d IH]; simpl.
  - by rewrite decide_True.
  - destruct (decide (k = k')) as [->|Hne]; simpl.
    + by rewrite decide_True.
    + by rewrite decide_False.
Qed.

Lemma dict_get_set_ne k k' v d :
  k ≠ k' -> dict_get k' (dict_set k v d) = dict_get k' d.
Proof.
  intros Hne. induction d as [|[k0 v0] d IH]; simpl.
  - by rewrite decide_False.
  - destruct (decide (k = k0)) as [->|Hk]; simpl.
    + by rewrite !decide_False.
    + destruct (decide (k' = k0)); done.
Qed.

Lemma dict_get_Some k v d : dict_get k d = Some v -> (k, v) ∈ d.
Proof.
  induction d as [|[k' v'] d IH]; simpl; [done|].
  destruct (decide (k = k')) as [->|Hne].
  - intros [= ->]. left.
  - intros Hd. right. auto.
Qed.

Lemma dict_get_None k d : dict_get k d = None <-> k ∉ d.*1.
Proof.
  induction d as [|[k' v'] d IH]; simpl.
  - split; [intros _; apply not_elem_of_nil | done].
  - rewrite not_elem_of_cons. destruct (decide (k = k')) as [->|Hne].
    + split; [done | intros [? _]; done].
    + rewrite IH. tauto.
Qed.

Lemma dict_get_elem k v d : NoDup d.*1 -> (k, v) ∈ d -> dict_get k d = Some v.
Proof.
  induction d as [|[k' v'] d IH]; simpl; intros Hnd Hin.
  - by apply elem_of_nil in Hin.
  - apply NoDup_cons in Hnd as [Hk Hnd].
    apply elem_of_cons in Hin as [[= <- <-]|Hin].
    + by rewrite decide_True.
    + destruct (decide (k = k')) as [->|Hne]; [|auto].
      exfalso. apply Hk. apply list_elem_of_fmap. by exists (k', v).
Qed.

(** A new key goes to the end. *)
Lemma dict_set_fresh k v d : dict_get k d = None -> dict_set k v d = d ++ [(k, v)].
Proof.
  induction d as [|[k' v'] d IH]; simpl; [done|].
  destruct (decide (k = k')); [done|]. intros Hd. by rewrite IH.
Qed.

(** A known key is overwritten where it stands. *)
Lemma dict_set_known k v v0 d :
  dict_get k d = Some v0 ->
  exists d1 d2, d = d1 ++ (k, v0) :: d2 /\ dict_set k v d = d1 ++ (k, v) :: d2.
Proof.
  induction d as [|[k' v'] d IH]; simpl; [done|].
  destruct (decide (k = k')) as [->|Hne].
  - intros [= ->]. by exists [], d.
  - intros Hd. destruct (IH Hd) as (d1 & d2 & -> & ->).
    by exists ((k', v') :: d1), d2.
Qed.

Lemma dict_set_keys k v d :
  (dict_set k v d).*1 = if decide (k ∈ d.*1) then d.*1 else d.*1 ++ [k].
Proof.
  induction d as [|[k' v'] d IH].
  - case_decide as Hin; [by apply elem_of_nil in Hin | done].
  - cbn [dict_set]. rewrite fmap_cons. cbn [fst].
    destruct (decide (k = k')) as [->|Hne].
    + rewrite decide_True by left. by rewrite fmap_cons.
    + rewrite fmap_cons, IH. cbn [fst].
      destruct (decide (k ∈ d.*1)) as [Hin|Hin].
      * rewrite decide_True by (by right). done.
      * rewrite decide_False; [done|]. by apply not_elem_of_cons.
Qed.

Lemma dict_set_NoDup k v d : NoDup d.*1 -> NoDup (dict_set k v d).*1.
Proof.
  intros Hnd. rewrite dict_set_keys. case_decide as Hin; [done|].
  apply NoDup_app. split; [done|]. split.
  - intros x Hx Hk. apply list_elem_of_singleton in Hk. by subst.
  - apply NoDup_singleton.
Qed.

Lemma dict_del_keys_subseteq k d : (dict_del k d).*1 ⊆ d.*1.
Proof.
  induction d as [|[k' v'] d IH]; simpl; [done|].
  destruct (decide (k = k')); simpl.
  - intros x Hx. by right.
  - intros x Hx. apply elem_of_cons in Hx as [->|Hx]; [left | right; auto].
Qed.

Lemma dict_del_NoDup k d : NoDup d.*1 -> NoDup (dict_del k d).*1.
Proof.
  induction d as [|[k' v'] d IH]; simpl; [done|].
  intros [Hk Hnd]%NoDup_cons. destruct (decide (k = k')); simpl; [done|].
  apply NoDup_cons. split; [|auto].
  intros Hin. apply Hk. by apply dict_del_keys_subseteq in Hin.
Qed.

End DictFacts.

(** The elements of a two-level dictionary, [g] listing what is of interest
    in a value. *)
Section Flat.
Context {K V X : Type} `{EqDecision K}.
Variable g : V -> list X.
Implicit Types (d : list (K * V)).

Lemma flat_get k v d : dict_get k d = Some v -> g v ⊆ flat g d.
Proof.
  intros Hd%dict_get_Some x Hx. unfold flat.
  apply list_elem_of_bind. by exists (k, v).
Qed.

(** Putting [x] into the value under [k], which counts as empty when the
    key is new, puts [x] into the dictionary. *)
Lemma flat_set k v dflt x d :
  g dflt = [] ->
  g v ≡ₚ x :: g (default dflt (dict_get k d)) ->
  flat g (dict_set k v d) ≡ₚ x :: flat g d.
Proof.
  intros Hdflt Hv. unfold flat. destruct (dict_get k d) as [v0|] eqn:Hd; simpl in Hv.
  - destruct (dict_set_known k v v0 d Hd) as (d1 & d2 & -> & ->).
    rewrite !bind_app, !bind_cons. simpl. rewrite Hv.
    cbn [app]. by rewrite <- Permutation_middle.
  - rewrite (dict_set_fresh _ _ _ Hd), bind_app. simpl.
    rewrite Hv, Hdflt, app_nil_r. by rewrite <- Permutation_cons_append.
Qed.

End Flat.

(** ** Source Map Decoder *)

Lemma split_length (sep : ascii) (s : string) :
  length (Str.split sep s) = S (Str.count sep s).
Proof.
  induction s as [|c s IH]; simpl; [reflexivity|].
  destruct (Ascii.eqb c sep); simpl.
  - now rewrite IH.
  - destruct (Str.split sep s); simpl in *; [discriminate | exact IH].
Qed.

Lemma expand_from_length prev rest tl :
  expand_from prev rest = Ok tl -> length tl = length rest.
Proof.
  revert prev tl. induction rest as [|cur rest IH]; intros prev tl H; simpl in H.
  - injection H as <-. reflexivity.
  - bind_inv H. bind_inv H. injection H as <-. simpl. f_equal. eauto.
Qed.

Lemma expand_source_map_rows s l :
  expand_source_map s = Ok l ->
  exists r0 rest tl,
    mapM (fun i => if bool_decide (i = EmptyString) then Ok None
                   else Some <$> _expand_row i) (Str.split ";" s)
    = Ok (r0 :: rest)
    /\ expand_from r0 rest = Ok tl /\ l = r0 :: tl.
Proof.
  unfold expand_source_map. intros H. bind_inv H.
  destruct a as [|r0 rest].
  - apply mapM_length in E. rewrite split_length in E. discriminate.
  - bind_inv H. injection H as <-. eauto 6.
Qed.

Lemma expand_source_map_entries (source_map : string) (l : list (option row)) :
  expand_source_map source_map = Ok l ->
  length l = length (Str.split ";" source_map).
Proof.
  intros H. apply expand_source_map_rows in H as (r0 & rest & tl & Hm & Hx & ->).
  apply mapM_length in Hm. apply expand_from_length in Hx.
  rewrite <- Hm. simpl. by rewrite Hx.
Qed.

(** C9: whenever [expand_source_map] returns, the sequence it returns has
    as many entries as the input has [;]-separated entries, that is, one
    more than the input has semicolons. *)
Theorem expand_source_map_length (source_map : string) (l : list (option row)) :
  expand_source_map source_map = Ok l ->
  length l = length (Str.split ";" source_map)
  /\ length l = S (Str.count ";" source_map).
Proof.
  intros H. apply expand_source_map_entries in H.
  split; [done|]. by rewrite H, split_length.
Qed.

Lemma expand_source_map_length_witness :
  expand_source_map "0:10:0:-;10:5:0:i;;15::1" =
    Ok [Some [FInt 0; FInt 10; FInt 0; FStr "-"];
        Some [FInt 10; FInt 5; FInt 0; FStr "i"];
        Some [FInt 10; FInt 5; FInt 0; FStr "i"];
        Some [FInt 15; FInt 5; FInt 1; FStr "i"]]
  /\ (4 = length (Str.split ";" "0:10:0:-;10:5:0:i;;15::1")
      /\ 4 = S (Str.count ";" "0:10:0:-;10:5:0:i;;15::1"))%nat.
Proof.
  split; [reflexivity|].
  exact (expand_source_map_length "0:10:0:-;10:5:0:i;;15::1" _ eq_refl).
Defined.

Lemma inherit_spec prev cur x r :
  inherit prev cur x = Ok r ->
  length r = length cur
  /\ (forall y, y ≠ x -> r !! y = cur !! y)
  /\ r !! x = match cur !! x with
              | Some FNone => prev ≫= (.!! x)
              | v => v
              end.
Proof.
  unfold inherit. destruct (cur !! x) as [v|] eqn:Hx; [|discriminate].
  assert (Hlt : (x < length cur)%nat) by (eapply lookup_lt_Some; eauto).
  destruct v; try (intros [= <-]; rewrite Hx; auto).
  destruct prev as [p|]; [|discriminate]. simpl.
  destruct (p !! x) as [v|] eqn:Hp; [|discriminate]. simpl.
  intros [= <-]. rewrite length_insert. split; [done|]. split.
  - intros y Hy. by rewrite list_lookup_insert_ne.
  - by rewrite list_lookup_insert_eq.
Qed.

(** What the loop body makes of position [x] of a row fresh from
    [_expand_row]. *)
Lemma expand_entry_spec prev f r c :
  expand_entry prev (Some (f :: r)) = Ok c ->
  exists r', c = Some r' /\
    forall x, (x < 4)%nat ->
      r' !! x = match (f :: r) !! x with
                | Some FNone => prev ≫= (.!! x)
                | v => v
                end.
Proof.
  unfold expand_entry. intros H.
  bind_inv H. bind_inv H. bind_inv H. bind_inv H. injection H as <-.
  apply inherit_spec in E as (L0 & N0 & X0).
  apply inherit_spec in E0 as (L1 & N1 & X1).
  apply inherit_spec in E1 as (L2 & N2 & X2).
  apply inherit_spec in E2 as (L3 & N3 & X3).
  eexists; split; [reflexivity|]. intros x Hx.
  destruct x as [|[|[|[|x]]]]; [| | | |lia].
  - rewrite N3, N2, N1, X0 by lia. done.
  - rewrite N3, N2, X1, N0 by lia. done.
  - rewrite N3, X2, N1, N0 by lia. done.
  - rewrite X3, N2, N1, N0 by lia. done.
Qed.

Lemma expand_from_lookup prev rest tl i p cur :
  expand_from prev rest = Ok tl ->
  (prev :: tl) !! i = Some p -> rest !! i = Some cur ->
  exists c, tl !! i = Some c /\ expand_entry p cur = Ok c.
Proof.
  revert prev tl i p. induction rest as [|r rest IH]; intros prev tl i p H Hp Hc; [done|].
  simpl in H. bind_inv H. bind_inv H. injection H as <-.
  destruct i as [|i]; simpl in *.
  - injection Hp as <-. injection Hc as <-. eauto.
  - eapply IH; eauto.
Qed.

(** A field that [_expand_row] finds missing, or empty among the first
    three, is [None] in the row. *)
Lemma _expand_row_none e r x :
  _expand_row e = Ok r -> (x < 4)%nat ->
  Str.split ":" e !! x = None
  \/ ((x < 3)%nat /\ Str.split ":" e !! x = Some EmptyString) ->
  r !! x = Some FNone.
Proof.
  unfold _expand_row. intros H Hx Hf. bind_inv H. injection H as <-.
  pose proof (mapM_length _ _ _ E) as Hl. rewrite length_take in Hl.
  destruct Hf as [Hf|[Hx3 Hf]].
  - apply lookup_ge_None in Hf.
    rewrite drop_ge by lia. simpl.
    rewrite lookup_app_r by lia.
    apply lookup_replicate. split; [done|]. lia.
  - assert (Ht : take 3 (Str.split ":" e) !! x = Some EmptyString)
      by (rewrite lookup_take_lt; auto).
    destruct (mapM_lookup _ _ _ _ _ E Ht) as (y & Hy & Hfy).
    rewrite bool_decide_eq_true_2 in Hfy by done. injection Hfy as <-.
    apply lookup_app_l_Some. done.
Qed.

Lemma _expand_row_nonempty e r : _expand_row e = Ok r -> r ≠ [].
Proof.
  unfold _expand_row. intros H. bind_inv H. injection H as <-.
  pose proof (mapM_length _ _ _ E) as Hl. rewrite length_take in Hl.
  intros Hnil. apply (f_equal length) in Hnil.
  rewrite !length_app, length_fmap, length_drop, length_replicate in Hnil.
  simpl in Hnil. lia.
Qed.

(** X14: The part of the inheritance rule that the decoder does implement: an
    empty entry, a field that is missing from an entry, and an empty
    start, length or source-unit field take the value of the entry
    before. *)
Lemma expand_source_map_inherits (source_map : string) l i e x :
  expand_source_map source_map = Ok l ->
  Str.split ";" source_map !! S i = Some e -> (x < 4)%nat ->
  e = EmptyString
  \/ Str.split ":" e !! x = None
  \/ ((x < 3)%nat /\ Str.split ":" e !! x = Some EmptyString) ->
  exists p c, l !! i = Some p /\ l !! S i = Some c
              /\ c ≫= (.!! x) = p ≫= (.!! x).
Proof.
  intros H He Hx Hf.
  apply expand_source_map_rows in H as (r0 & rest & tl & Hm & Hfrom & ->).
  destruct (mapM_lookup _ _ _ _ _ Hm He) as (cur & Hcur & Hrow). simpl in Hcur.
  assert (exists p, (r0 :: tl) !! i = Some p) as [p Hp].
  { apply lookup_lt_is_Some_2. simpl.
    apply expand_from_length in Hfrom. apply lookup_lt_Some in Hcur. lia. }
  destruct (expand_from_lookup _ _ _ _ _ _ Hfrom Hp Hcur) as (c & Hc & Hent).
  exists p, c. split; [done|]. split; [done|].
  case_bool_decide as Hempty.
  - injection Hrow as <-. simpl in Hent. by injection Hent as <-.
  - destruct Hf as [->|Hf]; [done|].
    apply fmap_ok in Hrow as (r & Hr & ->).
    pose proof (_expand_row_nonempty _ _ Hr) as Hne.
    pose proof (_expand_row_none _ _ _ Hr Hx Hf) as Hnone.
    destruct r as [|f r]; [done|].
    apply expand_entry_spec in Hent as (r' & -> & Hspec).
    simpl. rewrite (Hspec x Hx), Hnone. done.
Qed.

(** *** The decoder returns on well-formed maps *)

Lemma mapM_total {A B} (f : A -> result B) (l : list A) :
  Forall (fun x => exists y, f x = Ok y) l -> exists l', mapM f l = Ok l'.
Proof.
  induction 1 as [|x l [y Hy] _ [l' IH]]; [by exists []|].
  exists (y :: l'). rewrite mapM_cons, Hy. simpl. by rewrite IH.
Qed.

Lemma _expand_row_length e r : _expand_row e = Ok r -> (4 <= length r)%nat.
Proof.
  unfold _expand_row. intros H. bind_inv H as ints Hints. injection H as <-.
  apply mapM_length in Hints. rewrite length_take in Hints.
  rewrite !length_app, length_fmap, length_drop, length_replicate. lia.
Qed.

Lemma inherit_total prev cur x :
  complete prev -> (x < 4)%nat -> (x < length cur)%nat ->
  exists r, inherit prev cur x = Ok r.
Proof.
  intros (p & -> & Hp) Hx Hlen. unfold inherit.
  destruct (lookup_lt_is_Some_2 cur x Hlen) as [v ->].
  destruct v; eauto. destruct (Hp x Hx) as (w & -> & _). simpl. eauto.
Qed.

Lemma expand_entry_total prev cur :
  complete prev ->
  cur = None \/ (exists r, cur = Some r /\ (4 <= length r)%nat) ->
  exists c, expand_entry prev cur = Ok c /\ complete c.
Proof.
  intros Hprev [->|(r & -> & Hlen)]; [by exists prev|].
  destruct r as [|f r]; [simpl in Hlen; lia|].
  assert (exists c, expand_entry prev (Some (f :: r)) = Ok c) as [c Hc].
  { unfold expand_entry.
    destruct (inherit_total prev (f :: r) 0 Hprev) as [r0 H0]; [lia..|].
    rewrite H0. simpl. pose proof (inherit_spec _ _ _ _ H0) as (L0 & _).
    destruct (inherit_total prev r0 1 Hprev) as [r1 H1]; [lia..|].
    rewrite H1. simpl. pose proof (inherit_spec _ _ _ _ H1) as (L1 & _).
    destruct (inherit_total prev r1 2 Hprev) as [r2 H2]; [lia..|].
    rewrite H2. simpl. pose proof (inherit_spec _ _ _ _ H2) as (L2 & _).
    destruct (inherit_total prev r2 3 Hprev) as [r3 H3]; [lia..|].
    rewrite H3. simpl. eauto. }
  exists c. split; [done|].
  apply expand_entry_spec in Hc as (r' & -> & Hspec).
  destruct Hprev as (p & -> & Hp).
  exists r'. split; [done|]. intros x Hx. rewrite (Hspec x Hx).
  destruct (lookup_lt_is_Some_2 (f :: r) x) as [v Hv]; [lia|]. rewrite Hv.
  destruct v; [apply (Hp x Hx) | eauto..].
Qed.

Lemma expand_from_total prev rest :
  complete prev ->
  Forall (fun cur => cur = None \/ exists r, cur = Some r /\ (4 <= length r)%nat) rest ->
  exists tl, expand_from prev rest = Ok tl /\ Forall complete tl.
Proof.
  intros Hprev Hrest. revert prev Hprev.
  induction Hrest as [|cur rest Hcur _ IH]; intros prev Hprev; [by exists []|].
  destruct (expand_entry_total prev cur Hprev Hcur) as (c & Hc & Hcomp).
  destruct (IH c Hcomp) as (tl & Htl & Hall).
  exists (c :: tl). simpl. rewrite Hc. simpl. rewrite Htl. simpl.
  split; [done|]. by constructor.
Qed.

(** X13: When every entry is empty or has fields that [_expand_row] accepts
    and the first entry supplies all four fields, the decoder returns and
    every entry of the result has its four fields. *)
Lemma expand_source_map_total (source_map : string) :
  Forall (fun e => e = EmptyString \/ exists r, _expand_row e = Ok r)
    (Str.split ";" source_map) ->
  (exists e0 r0, head (Str.split ";" source_map) = Some e0 /\ e0 ≠ EmptyString
                 /\ _expand_row e0 = Ok r0 /\ complete (Some r0)) ->
  exists l, expand_source_map source_map = Ok l /\ Forall complete l.
Proof.
  intros Hall (e0 & r0 & Hhd & Hne & Hr0 & Hcomp). unfold expand_source_map.
  set (f := fun i : string => if bool_decide (i = EmptyString) then Ok None
                              else Some <$> _expand_row i).
  destruct (mapM_total f (Str.split ";" source_map)) as [rows Hrows].
  { eapply Forall_impl; [exact Hall|]. intros e [->|[r Hr]]; unfold f.
    - by exists None.
    - case_bool_decide; [by exists None|]. rewrite Hr. by exists (Some r). }
  rewrite Hrows. simpl.
  destruct (Str.split ";" source_map) as [|e es] eqn:Hsplit; [done|].
  injection Hhd as ->. rewrite mapM_cons in Hrows.
  bind_inv Hrows as row0 H0. bind_inv Hrows as rest Hrest. injection Hrows as <-.
  unfold f in H0. rewrite bool_decide_eq_false_2, Hr0 in H0 by done.
  injection H0 as <-.
  destruct (expand_from_total (Some r0) rest Hcomp) as (tl & Htl & Hcompl).
  { apply Forall_lookup. intros i cur Hi.
    assert (exists e, es !! i = Some e /\ f e = Ok cur) as (e & He & Hfe).
    { pose proof (mapM_length _ _ _ Hrest) as Hlen.
      destruct (lookup_lt_is_Some_2 es i) as [e He].
      { rewrite <- Hlen. by eapply lookup_lt_Some. }
      destruct (mapM_lookup _ _ _ _ _ Hrest He) as (y & Hy & Hfy).
      exists e. split; [done|]. congruence. }
    unfold f in Hfe. case_bool_decide; [injection Hfe as <-; by left|].
    apply fmap_ok in Hfe as (r & Hr & ->). right. exists r. split; [done|].
    by eapply _expand_row_length. }
  rewrite Htl. simpl. eexists. split; [done|]. by constructor.
Qed.

(** C1: the decoder does not forward-fill a jump field that an entry leaves
    empty between or after colons.  In the second entry of either map the
    fourth field is the empty string; the expanded entry keeps [""] there
    instead of the ["-"] of the entry before, while its empty length and
    source-unit fields are inherited. *)
Theorem expand_source_map_empty_jump_field :
  Str.split ":" "5:::" !! 3%nat = Some EmptyString
  /\ expand_source_map "0:10:0:-;5:::" =
       Ok [Some [FInt 0; FInt 10; FInt 0; FStr "-"];
           Some [FInt 5; FInt 10; FInt 0; FStr ""]]
  /\ Str.split ":" "5::::1" !! 3%nat = Some EmptyString
  /\ expand_source_map "0:10:0:-:0;5::::1" =
       Ok [Some [FInt 0; FInt 10; FInt 0; FStr "-"; FStr "0"];
           Some [FInt 5; FInt 10; FInt 0; FStr ""; FStr "1"]].
Proof. repeat split; reflexivity. Qed.

(** ** Coverage Correlator *)

Section WalkFacts.

Variable is_inside_offset : Offset -> Offset -> bool.
Variable source_nodes : list (Z * SourceUnit).
Variable branch_nodes : list (string * list Offset).

#[local] Abbreviation step := (step is_inside_offset source_nodes branch_nodes).
#[local] Abbreviation walk := (walk is_inside_offset source_nodes branch_nodes).
#[local] Abbreviation attribute := (attribute is_inside_offset).
#[local] Abbreviation mark_branches := (mark_branches branch_nodes).

(** What [fetch] leaves behind: the record of the popped opcode, without
    source attribution yet, and the deque without the opcode and without
    its operand, if it has one. *)
Lemma fetch_inv source st ops cur pc' fr :
  fetch source st = Ok (ops, cur, pc', fr) ->
  exists o rest,
    opcodes st = o :: rest /\ is_Some source
    /\ Pc.op cur = o /\ Pc.path cur = None /\ Pc.offset cur = None
    /\ Pc.fn cur = None /\ Pc.statement cur = None
    /\ ((ops = rest /\ Pc.value cur = None /\ rest ≠ [])
        \/ exists v, rest = v :: ops /\ Pc.value cur = Some v).
Proof.
  unfold fetch. destruct (opcodes st) as [|o rest]; [discriminate|].
  intros H. exists o, rest. split; [done|].
  bind_inv H. split.
  { unfold item in E. destruct source; [eauto | discriminate]. }
  bind_inv H. apply of_option_ok in E0.
  set (flag := _ && _ && _) in H.
  assert (F : forall c : Pc.t,
            Pc.op c = o -> Pc.path c = None -> Pc.offset c = None ->
            Pc.fn c = None -> Pc.statement c = None -> Pc.value c = None ->
            let c' := if bool_decide (a = FStr "-") then c else Pc.set_jump a c in
            Pc.op c' = o /\ Pc.path c' = None /\ Pc.offset c' = None
            /\ Pc.fn c' = None /\ Pc.statement c' = None /\ Pc.value c' = None).
  { intros c ? ? ? ? ? ?. simpl. by destruct (bool_decide (a = FStr "-")). }
  specialize (F (if flag then Pc.set_first_revert (Pc.new o (pc st)) else Pc.new o (pc st))).
  destruct F as (F1 & F2 & F3 & F4 & F5 & F6); try (by destruct flag).
  destruct (bool_decide (Str.take 2 a0 = "0x")).
  - bind_inv H. injection H as <- <- <- <-.
    repeat (split; [done|]). right. exists a0. split; [|done].
    destruct rest; simpl in *; congruence.
  - injection H as <- <- <- <-.
    repeat (split; [done|]). left. repeat split; try done.
    destruct rest; simpl in *; congruence.
Qed.

Lemma attribute_fields unit path offset cur st cur' nodes smap cnt :
  attribute unit path offset cur st = (cur', nodes, smap, cnt) ->
  Pc.op cur' = Pc.op cur /\ Pc.path cur' = Pc.path cur
  /\ Pc.offset cur' = Pc.offset cur /\ Pc.value cur' = Pc.value cur.
Proof.
  unfold attribute. intros H.
  repeat (match type of H with
          | context [match ?x with _ => _ end] => destruct x
          | context [if ?x then _ else _] => destruct x
          end);
    injection H as <- <- <- <-; done.
Qed.

(** The shape of a successful iteration: it is cut short by a [continue]
    and leaves a record without offset, or it runs to the end. *)
Lemma step_inv source st st' :
  step source st = Ok st' ->
  exists ops cur0 pc' fr,
    fetch source st = Ok (ops, cur0, pc', fr)
    /\ ((exists cur,
           Pc.offset cur = None /\ Pc.op cur = Pc.op cur0
           /\ Pc.statement cur = None
           /\ st' = mkstate ops (pc_list st ++ [cur]) (count st) pc' fr
                      (revert_map st) (statement_nodes st) (statement_map st)
                      (branch_active st) (branch_set st))
        \/ (exists unit start stop offset active resolved cur nodes smap cnt rm,
              let path := su_path unit in
              let cur1 := Pc.set_offset (start, stop) (Pc.set_path path cur0) in
              mark_branches (Pc.op cur0) (length (pc_list st)) path
                (start, stop) st = Ok (offset, active, resolved)
              /\ attribute unit path offset cur1 st = (cur, nodes, smap, cnt)
              /\ track_revert ops fr (length (pc_list st)) cur (revert_map st) = Ok rm
              /\ st' = mkstate ops (pc_list st ++ [cur]) cnt pc' fr rm nodes
                         smap active resolved)).
Proof.
  unfold step. intros H. bind_inv H as [[[ops cur0] pc'] fr] Hfetch.
  exists ops, cur0, pc', fr. split; [done|].
  apply fetch_inv in Hfetch as (o & rest & _ & _ & Hop & Hpath & Hoff & _ & Hst & _).
  bind_inv H as s2 Hs2. destruct (bool_decide (s2 = FInt (-1))).
  { left. exists cur0. injection H as <-. done. }
  bind_inv H as unit Hunit. bind_inv H as s0 Hs0.
  destruct (bool_decide (s0 = FInt (-1))).
  { left. eexists. injection H as <-.
    split; [|split; [|split]]; [| | |reflexivity]; done. }
  bind_inv H as s1 Hs1. bind_inv H as stop Hstop.
  destruct s0 as [|start|]; try discriminate.
  bind_inv H as [[offset active] resolved] Hmark.
  destruct (attribute _ _ _ _ _) as [[[cur nodes] smap] cnt] eqn:Ha.
  bind_inv H as rm Hrm. injection H as <-.
  right. exists unit, start, stop, offset, active, resolved, cur, nodes, smap, cnt, rm.
  simpl. done.
Qed.

Lemma step_appends source st st' :
  step source st = Ok st' ->
  exists o rest cur,
    opcodes st = o :: rest /\ pc_list st' = pc_list st ++ [cur] /\ Pc.op cur = o.
Proof.
  intros H. apply step_inv in H as (ops & cur0 & pc' & fr & Hfetch & H).
  apply fetch_inv in Hfetch as (o & rest & Hops & _ & Hop & _).
  exists o, rest.
  destruct H as [(cur & _ & Hcur & _ & ->)
                |(unit & start & stop & offset & active & resolved & cur & nodes
                  & smap & cnt & rm & _ & Ha & _ & ->)].
  - exists cur. simpl. split; [done|]. split; [done|]. congruence.
  - exists cur. simpl. split; [done|]. split; [done|].
    apply attribute_fields in Ha as (-> & _). done.
Qed.

(** *** Branch resolution at a [JUMPI] *)

Lemma resolve_untouched (idx : nat) (o : Offset) (active : list (Offset * nat))
    (resolved : list (Offset * (nat * nat))) :
  o ∉ active.*1 ->
  dict_get o (foldl (fun acc kv => dict_set kv.1 (kv.2, idx) acc) resolved active)
  = dict_get o resolved.
Proof.
  revert resolved. induction active as [|[o' a'] active IH]; intros resolved Hin; [done|].
  rewrite fmap_cons in Hin. apply not_elem_of_cons in Hin as [Hne Hin]. simpl in *.
  rewrite IH by done. by apply dict_get_set_ne.
Qed.

Lemma resolve_recorded (idx : nat) (o : Offset) (armed : nat)
    (active : list (Offset * nat)) (resolved : list (Offset * (nat * nat))) :
  NoDup active.*1 -> (o, armed) ∈ active ->
  dict_get o (foldl (fun acc kv => dict_set kv.1 (kv.2, idx) acc) resolved active)
  = Some (armed, idx).
Proof.
  revert resolved. induction active as [|[o' a'] active IH]; intros resolved Hnd Hin.
  - by apply elem_of_nil in Hin.
  - rewrite fmap_cons in Hnd. apply NoDup_cons in Hnd as [Hfresh Hnd].
    apply elem_of_cons in Hin as [[= <- <-]|Hin]; simpl.
    + rewrite resolve_untouched by done. apply dict_get_set_eq.
    + by apply IH.
Qed.

Lemma mark_branches_jumpi idx path offset st offset' active' resolved' active :
  mark_branches "JUMPI" idx path offset st = Ok (offset', active', resolved') ->
  dict_get path (branch_active st) = Some active ->
  active ≠ [] -> NoDup active.*1 ->
  dict_get path active' = Some []
  /\ exists resolved,
       dict_get path resolved' = Some resolved
       /\ forall o armed, (o, armed) ∈ active ->
                          dict_get o resolved = Some (armed, idx).
Proof.
  unfold mark_branches. intros H Hact Hne Hnd. rewrite Hact in H. simpl in H.
  rewrite bool_decide_eq_false_2 in H by done. simpl in H.
  bind_inv H as resolved Hres. injection H as _ <- <-.
  split; [apply dict_get_set_eq|].
  eexists. split; [apply dict_get_set_eq|].
  intros o armed Hin. by apply resolve_recorded.
Qed.

(** C2, as the code has it: a [JUMPI] step that has a source offset (the
    start field of its entry is not -1) and whose path has active branches
    records each of them in the resolved set, with its armed step index and
    the index of this step, and leaves the active set of the path empty.
    [active] is what [branch_active[path]] holds before the step; being a
    dictionary it has no key twice. *)
Theorem jumpi_resolves_active source st st' cur path offset active :
  step source st = Ok st' ->
  last (pc_list st') = Some cur ->
  Pc.op cur = "JUMPI" -> Pc.path cur = Some path -> Pc.offset cur = Some offset ->
  dict_get path (branch_active st) = Some active ->
  active ≠ [] -> NoDup active.*1 ->
  pc_list st' !! length (pc_list st) = Some cur
  /\ dict_get path (branch_active st') = Some []
  /\ exists resolved,
       dict_get path (branch_set st') = Some resolved
       /\ forall o armed,
            (o, armed) ∈ active ->
            dict_get o resolved = Some (armed, length (pc_list st)).
Proof.
  intros H Hlast Hop Hpath Hoff Hact Hne Hnd.
  apply step_inv in H as (ops & cur0 & pc' & fr & Hfetch & H).
  destruct H as [(cur' & Hnone & _ & _ & ->)
                |(unit & start & stop & offset' & active' & resolved' & cur'
                  & nodes & smap & cnt & rm & Hmark & Ha & _ & ->)];
    simpl in Hlast; rewrite last_snoc in Hlast; injection Hlast as ->.
  - congruence.
  - simpl. apply attribute_fields in Ha as (Hop' & Hpath' & _).
    simpl in Hop', Hpath'. rewrite Hpath in Hpath'. injection Hpath' as ->.
    rewrite <- Hop', Hop in Hmark.
    split; [by apply list_lookup_middle|].
    eapply mark_branches_jumpi; eauto.
Qed.

(** *** Revert-jump bookkeeping *)

(** C6, as the code has it: a step that has a source offset and a function
    label, carries a literal value equal to [first_revert] and is followed
    by a jump opcode appends [len(pc_list)] to the list of (path,
    function): its own index plus one, which is the index that the
    following step, the one of the jump opcode, receives. *)
Theorem revert_jump_index source st st' cur path fn v nxt offset :
  step source st = Ok st' ->
  last (pc_list st') = Some cur ->
  Pc.offset cur = Some offset -> Pc.path cur = Some path -> Pc.fn cur = Some fn ->
  Pc.value cur = Some v -> first_revert st' = Some v ->
  head (opcodes st') = Some nxt -> nxt ∈ ["JUMP"; "JUMPI"] ->
  pc_list st' !! length (pc_list st) = Some cur
  /\ dict_get (path, fn) (revert_map st')
     = Some (default [] (dict_get (path, fn) (revert_map st))
               ++ [S (length (pc_list st))])
  /\ forall source' st'',
       step source' st' = Ok st'' ->
       exists jump, pc_list st'' !! S (length (pc_list st)) = Some jump
                    /\ Pc.op jump = nxt.
Proof.
  intros H Hlast Hoff Hpath Hfn Hv Hfr Hnxt Hjump.
  apply step_inv in H as (ops & cur0 & pc' & fr & Hfetch & H).
  destruct H as [(cur' & Hnone & _ & _ & ->)
                |(unit & start & stop & offset' & active' & resolved' & cur'
                  & nodes & smap & cnt & rm & Hmark & Ha & Hrm & ->)];
    simpl in Hlast; rewrite last_snoc in Hlast; injection Hlast as ->.
  - congruence.
  - simpl in *. split; [by apply list_lookup_middle|]. split.
    + unfold track_revert in Hrm. rewrite Hv, Hfr in Hrm.
      rewrite bool_decide_eq_true_2 in Hrm by done.
      rewrite Hnxt in Hrm. simpl in Hrm.
      rewrite bool_decide_eq_true_2 in Hrm by done.
      rewrite Hpath, Hfn in Hrm. simpl in Hrm. injection Hrm as <-.
      apply dict_get_set_eq.
    + intros source' st'' H'.
      apply step_appends in H' as (o & rest & jump & Hops & Hpl & Hop).
      simpl in *. rewrite Hops in Hnxt. injection Hnxt as ->.
      exists jump. split; [|done]. rewrite Hpl.
      apply list_lookup_middle. rewrite length_app. simpl. lia.
Qed.

End WalkFacts.

(** *** Statement assignment *)

Section StatementFacts.

Variable is_inside_offset : Offset -> Offset -> bool.

#[local] Abbreviation attribute := (attribute is_inside_offset).

(** What the [try] block does to the working sets: nothing; or it only
    discards a candidate; or it discards a candidate and records it under
    the next index. *)
Lemma attribute_cases unit path offset cur st cur' nodes smap cnt :
  attribute unit path offset cur st = (cur', nodes, smap, cnt) ->
  (Pc.statement cur' = Pc.statement cur
   /\ smap = statement_map st /\ cnt = count st
   /\ (nodes = statement_nodes st
       \/ exists cands stmt,
            dict_get path (statement_nodes st) = Some cands
            /\ nodes = dict_set path (filter (fun i => i ≠ stmt) cands)
                         (statement_nodes st)))
  \/ (exists name cands stmt by_fn,
        dict_get path (statement_nodes st) = Some cands
        /\ (stmt ∈ cands)
        /\ dict_get path (statement_map st) = Some by_fn
        /\ cur' = Pc.set_statement (count st) (Pc.set_fn name cur)
        /\ nodes = dict_set path (filter (fun i => i ≠ stmt) cands)
                     (statement_nodes st)
        /\ smap = dict_set path
                    (dict_set name
                       (dict_set (count st) stmt
                          (default [] (dict_get name by_fn))) by_fn)
                    (statement_map st)
        /\ cnt = count st + 1).
Proof.
  unfold attribute. intros H.
  assert (U : forall c : Pc.t,
            Pc.statement c = Pc.statement cur ->
            (c, statement_nodes st, statement_map st, count st)
            = (cur', nodes, smap, cnt) ->
            Pc.statement cur' = Pc.statement cur
            /\ smap = statement_map st /\ cnt = count st
            /\ (nodes = statement_nodes st
                \/ exists cands stmt,
                     dict_get path (statement_nodes st) = Some cands
                     /\ nodes = dict_set path (filter (fun i => i ≠ stmt) cands)
                                  (statement_nodes st))).
  { intros c Hc [= <- <- <- <-]. auto. }
  destruct (last (pc_list st)) as [prev|]; [|left; (eapply U; [|exact H]; reflexivity)].
  destruct (bool_decide (Pc.offset prev = Some offset)).
  { destruct (Pc.fn prev); left; (eapply U; [|exact H]; reflexivity). }
  destruct (su_functions_at unit offset) as [|f fs]; [left; (eapply U; [|exact H]; reflexivity)|].
  destruct (dict_get path (statement_nodes st)) as [cands|] eqn:Hc;
    [|left; (eapply U; [|exact H]; reflexivity)].
  destruct (find (is_inside_offset offset) cands) as [stmt|] eqn:Hf;
    [|left; (eapply U; [|exact H]; reflexivity)].
  destruct (dict_get path (statement_map st)) as [by_fn|] eqn:Hm;
    injection H as <- <- <- <-.
  - right. exists (fd_full_name f), cands, stmt, by_fn.
    repeat split; try done.
    apply find_some in Hf as [Hin _]. by apply list_elem_of_In.
  - left. repeat split; try done. right. eauto.
Qed.

End StatementFacts.


Lemma statement_inv_discard nodes smap cnt path cands stmt :
  statement_inv nodes smap cnt ->
  dict_get path nodes = Some cands ->
  statement_inv (dict_set path (filter (fun i => i ≠ stmt) cands) nodes) smap cnt.
Proof.
  intros (Hnd & Hlt & Hpath) Hc. split; [done|]. split; [done|].
  intros p by_fn Hp. destruct (Hpath p by_fn Hp) as [Hnd' Hout]. split; [done|].
  intros o cands' Ho. destruct (decide (path = p)) as [->|Hne].
  - rewrite dict_get_set_eq. intros [= <-] Hin.
    apply list_elem_of_filter in Hin as [_ Hin]. by eapply Hout.
  - rewrite dict_get_set_ne by done. by apply Hout.
Qed.

Lemma fresh_index_keys {V} (c : Z) (v : V) (of_fn : list (Z * V)) :
  c ∉ of_fn.*1 ->
  (dict_set c v of_fn).*1 ≡ₚ c :: of_fn.*1
  /\ (dict_set c v of_fn).*2 ≡ₚ v :: of_fn.*2.
Proof.
  intros Hc. rewrite dict_set_fresh by (by apply dict_get_None).
  rewrite !fmap_app. simpl. split; by rewrite <- Permutation_cons_append.
Qed.

(** An index that is above all those of the map is new to the dictionary
    it is put into. *)
Lemma counter_is_fresh {V} (m : list (string * list (string * list (Z * V))))
    path by_fn name cnt :
  dict_get path m = Some by_fn ->
  (forall i, i ∈ coverage_indices m -> i < cnt) ->
  cnt ∉ (default [] (dict_get name by_fn)).*1.
Proof.
  intros Hm Hlt Hk.
  assert (Hsub : (default [] (dict_get name by_fn)).*1 ⊆ coverage_indices m).
  { destruct (dict_get name by_fn) as [v|] eqn:Hn; simpl.
    - etrans; [|apply (flat_get _ _ _ _ Hm)].
      apply (flat_get (fun of_fn : list (Z * V) => of_fn.*1) _ _ _ Hn).
    - apply list_subseteq_nil. }
  apply Hsub, Hlt in Hk. lia.
Qed.

(** Recording a value under the counter adds the counter, once, to the
    indices of the map. *)
Lemma coverage_indices_set {V} (m : list (string * list (string * list (Z * V))))
    path by_fn name cnt (v : V) :
  dict_get path m = Some by_fn ->
  (forall i, i ∈ coverage_indices m -> i < cnt) ->
  coverage_indices
    (dict_set path
       (dict_set name (dict_set cnt v (default [] (dict_get name by_fn))) by_fn) m)
  ≡ₚ cnt :: coverage_indices m.
Proof.
  intros Hm Hlt.
  destruct (fresh_index_keys cnt v _ (counter_is_fresh m path by_fn name cnt Hm Hlt))
    as [Hkeys _].
  unfold coverage_indices. apply (flat_set _ _ _ []); [done|].
  rewrite Hm. simpl. apply (flat_set _ _ _ []); [done|]. exact Hkeys.
Qed.

Lemma statement_inv_assign nodes smap cnt path cands stmt by_fn name :
  statement_inv nodes smap cnt ->
  dict_get path nodes = Some cands -> stmt ∈ cands ->
  dict_get path smap = Some by_fn ->
  statement_inv
    (dict_set path (filter (fun i => i ≠ stmt) cands) nodes)
    (dict_set path
       (dict_set name (dict_set cnt stmt (default [] (dict_get name by_fn))) by_fn)
       smap)
    (cnt + 1).
Proof.
  intros (Hnd & Hlt & Hpath) Hc Hin Hm.
  pose proof (coverage_indices_set smap path by_fn name cnt stmt Hm Hlt) as Hidx.
  destruct (fresh_index_keys cnt stmt _ (counter_is_fresh smap path by_fn name cnt Hm Hlt))
    as [_ Hvals].
  set (of_fn := default [] (dict_get name by_fn)) in *.
  assert (Hasg : assigned (dict_set name (dict_set cnt stmt of_fn) by_fn)
                 ≡ₚ stmt :: assigned by_fn).
  { unfold assigned. apply (flat_set _ _ _ []); [done|]. exact Hvals. }
  destruct (Hpath path by_fn Hm) as [Hnd' Hout].
  split; [|split].
  - rewrite Hidx. apply NoDup_cons. split; [|done].
    intros Hk. apply Hlt in Hk. lia.
  - intros i Hi. rewrite Hidx in Hi.
    apply elem_of_cons in Hi as [->|Hi]; [lia|]. apply Hlt in Hi. lia.
  - intros p by_fn' Hp. destruct (decide (path = p)) as [->|Hne].
    + rewrite dict_get_set_eq in Hp. injection Hp as <-. split.
      * rewrite Hasg. apply NoDup_cons. split; [|done].
        intros Ho. by eapply Hout.
      * intros o cands' Ho. rewrite dict_get_set_eq. intros [= <-] Hin'.
        apply list_elem_of_filter in Hin' as [Hne Hin'].
        rewrite Hasg in Ho. apply elem_of_cons in Ho as [->|Ho]; [done|].
        by eapply Hout.
    + rewrite dict_get_set_ne in Hp by done.
      destruct (Hpath p by_fn' Hp) as [Hnd'' Hout'']. split; [done|].
      intros o cands'. rewrite dict_get_set_ne by done. apply Hout''.
Qed.

Lemma attribute_preserves is_inside_offset unit path offset cur st cur' nodes smap cnt :
  statement_inv (statement_nodes st) (statement_map st) (count st) ->
  attribute is_inside_offset unit path offset cur st
    = (cur', nodes, smap, cnt) ->
  statement_inv nodes smap cnt.
Proof.
  intros Hinv H. apply attribute_cases in H
    as [(_ & -> & -> & [->|(cands & stmt & Hc & ->)])
       |(name & cands & stmt & by_fn & Hc & Hin & Hm & _ & -> & -> & ->)].
  - done.
  - by apply statement_inv_discard.
  - by apply statement_inv_assign.
Qed.

Section StatementRun.

Variable is_inside_offset : Offset -> Offset -> bool.
Variable source_nodes : list (Z * SourceUnit).
Variable branch_nodes : list (string * list Offset).

#[local] Abbreviation step' := (step is_inside_offset source_nodes branch_nodes).
#[local] Abbreviation walk' := (walk is_inside_offset source_nodes branch_nodes).

Lemma step_preserves_statement_inv source st st' :
  step' source st = Ok st' ->
  statement_inv (statement_nodes st) (statement_map st) (count st) ->
  statement_inv (statement_nodes st') (statement_map st') (count st').
Proof.
  intros H Hinv. apply step_inv in H as (ops & cur0 & pc' & fr & _ & H).
  destruct H as [(cur & _ & _ & _ & ->)
                |(unit & start & stop & offset & active & resolved & cur & nodes
                  & smap & cnt & rm & _ & Ha & _ & ->)]; simpl.
  - done.
  - eapply attribute_preserves; eauto.
Qed.

Lemma walk_preserves_statement_inv source_map st st' :
  walk' source_map st = Ok st' ->
  statement_inv (statement_nodes st) (statement_map st) (count st) ->
  statement_inv (statement_nodes st') (statement_map st') (count st').
Proof.
  revert st. induction source_map as [|source rest IH]; intros st H Hinv; simpl in H.
  - by injection H as <-.
  - bind_inv H as st1 Hstep. eapply IH; [exact H|].
    eapply step_preserves_statement_inv; eauto.
Qed.


End StatementRun.

(** The working sets that the loop starts from. *)
Lemma dict_set_elem {K V} `{EqDecision K} (k k' : K) (v v' : V) d :
  (k', v') ∈ dict_set k v d -> (k', v') ∈ d \/ (k' = k /\ v' = v).
Proof.
  induction d as [|[k0 v0] d IH]; simpl.
  - intros Hin. apply list_elem_of_singleton in Hin. right. split; congruence.
  - destruct (decide (k = k0)) as [->|Hne]; intros Hin;
      apply elem_of_cons in Hin as [Heq|Hin].
    + right. split; congruence.
    + left. by right.
    + left. rewrite Heq. left.
    + destruct (IH Hin); [left; by right | by right].
Qed.

Lemma dict_del_elem {K V} `{EqDecision K} (k k' : K) (v' : V) d :
  (k', v') ∈ dict_del k d -> (k', v') ∈ d.
Proof.
  induction d as [|[k0 v0] d IH]; simpl; [done|].
  destruct (decide (k = k0)) as [->|Hne]; intros Hin.
  - by right.
  - apply elem_of_cons in Hin as [->|Hin]; [left | right; auto].
Qed.

Lemma dict_of_empty_values {K V} `{EqDecision K} (keys : list K) (k : K) (v : list V) :
  (k, v) ∈ dict_of ((fun i => (i, [])) <$> keys) -> v = [].
Proof.
  unfold dict_of.
  assert (G : forall (acc : list (K * list V)),
            (forall k v, (k, v) ∈ acc -> v = []) ->
            (k, v) ∈ foldl (fun d kv => dict_set kv.1 kv.2 d) acc
                       ((fun i => (i, [])) <$> keys) -> v = []).
  { induction keys as [|i keys IH]; intros acc Hacc; simpl; [apply Hacc|].
    apply IH. intros k' v' Hin. apply dict_set_elem in Hin as [Hin|[_ ->]]; eauto. }
  apply G. intros k' v' Hin. by apply elem_of_nil in Hin.
Qed.

Lemma coverage_indices_initial {V} (paths : list string) :
  coverage_indices (V:=V) (dict_of ((fun i => (i, [])) <$> paths)) = [].
Proof.
  unfold coverage_indices, flat.
  set (d := dict_of _).
  assert (Hd : forall k v, (k, v) ∈ d -> v = []) by apply dict_of_empty_values.
  clearbody d. induction d as [|[k v] d IH]; [done|].
  rewrite (Hd k v) by left. simpl. apply IH.
  intros k' v' Hin. eapply Hd. by right.
Qed.

Lemma statement_inv_initial (paths : list string) nodes :
  statement_inv nodes (dict_of ((fun i => (i, [])) <$> paths)) 0.
Proof.
  split; [|split].
  - rewrite coverage_indices_initial. apply NoDup_nil_2.
  - intros i Hi. rewrite coverage_indices_initial in Hi. by apply elem_of_nil in Hi.
  - intros path by_fn Hp. apply dict_get_Some, dict_of_empty_values in Hp as ->.
    split; [apply NoDup_nil_2|]. intros o cands Ho. by apply elem_of_nil in Ho.
Qed.


(** *** Source maps that stop the walk *)

Section Malformed.

Variable is_inside_offset : Offset -> Offset -> bool.
Variable source_nodes : list (Z * SourceUnit).
Variable branch_nodes : list (string * list Offset).

#[local] Abbreviation step' := (step is_inside_offset source_nodes branch_nodes).
#[local] Abbreviation walk' := (walk is_inside_offset source_nodes branch_nodes).




End Malformed.


(** ** Branch Finalizer *)

Lemma stamp_fn (pl : list Pc.t) (a : nat) (c : Z) (e : Pc.t) (i : nat) :
  pl !! a = Some e ->
  Pc.fn <$> (<[a := Pc.set_branch c e]> pl) !! i = Pc.fn <$> pl !! i.
Proof.
  intros Ha. destruct (decide (a = i)) as [->|Hne].
  - rewrite list_lookup_insert_eq by (by eapply lookup_lt_Some). by rewrite Ha.
  - by rewrite list_lookup_insert_ne.
Qed.

Lemma stamp_branch (pl : list Pc.t) (a : nat) (c : Z) (e : Pc.t) :
  pl !! a = Some e ->
  Pc.branch <$> (<[a := Pc.set_branch c e]> pl) !! a = Some (Some c).
Proof.
  intros Ha. rewrite list_lookup_insert_eq by (by eapply lookup_lt_Some). done.
Qed.

(** What a successful turn of the finaliser loop has done. *)
Lemma finalize_branch_inv bo pl bm cnt path o a j pl1 bm1 cnt1 :
  finalize_branch bo (pl, bm, cnt) (path, o, (a, j)) = Ok (pl1, bm1, cnt1) ->
  exists e e1 f nodes node by_fn,
    pl !! a = Some e /\ Pc.fn e = Some f
    /\ (<[a := Pc.set_branch cnt e]> pl) !! j = Some e1
    /\ pl1 = <[j := Pc.set_branch cnt e1]> (<[a := Pc.set_branch cnt e]> pl)
    /\ dict_get path bo = Some nodes
    /\ find (fun i => bool_decide (bn_offset i = o)) nodes = Some node
    /\ dict_get path bm = Some by_fn
    /\ bm1 = dict_set path
               (dict_set f
                  (dict_set cnt (o.1, o.2, bn_jump node)
                     (default [] (dict_get f by_fn))) by_fn) bm
    /\ cnt1 = cnt + 1.
Proof.
  unfold finalize_branch. intros H.
  bind_inv H as e He. apply of_option_ok in He.
  bind_inv H as e1 He1. apply of_option_ok in He1.
  bind_inv H as e' He'. apply of_option_ok in He'.
  bind_inv H as f Hf. apply of_option_ok in Hf.
  bind_inv H as nodes Hn. apply of_option_ok in Hn.
  bind_inv H as node Hnode. apply of_option_ok in Hnode.
  bind_inv H as by_fn Hb. apply of_option_ok in Hb.
  injection H as <- <- <-.
  exists e, e1, f, nodes, node, by_fn. repeat split; try done.
  assert (Hfn : Pc.fn <$> (<[j:=Pc.set_branch cnt e1]> (<[a:=Pc.set_branch cnt e]> pl)) !! a
                = Pc.fn <$> pl !! a).
  { rewrite (stamp_fn _ j cnt e1 a He1). by apply stamp_fn. }
  rewrite He', He in Hfn. simpl in Hfn. congruence.
Qed.

Lemma finalize_branch_total paths bo pl bm cnt entry :
  attributable paths bo pl entry ->
  (forall p, p ∈ paths -> is_Some (dict_get p bm)) ->
  exists r, finalize_branch bo (pl, bm, cnt) entry = Ok r.
Proof.
  destruct entry as [[path o] [a j]].
  intros ((e & f & He & Hf) & Hj & Hp & nodes & node & Hn & Hnode) Hkeys.
  destruct (Hkeys path Hp) as [by_fn Hb].
  unfold finalize_branch. rewrite He. simpl.
  destruct (lookup_lt_is_Some_2 (<[a:=Pc.set_branch cnt e]> pl) j) as [e1 He1].
  { by rewrite length_insert. }
  rewrite He1. simpl.
  assert (Hfn : Pc.fn <$> (<[j:=Pc.set_branch cnt e1]> (<[a:=Pc.set_branch cnt e]> pl)) !! a
                = Some (Some f)).
  { rewrite (stamp_fn _ j cnt e1 a He1), (stamp_fn _ a cnt e a He), He. simpl. by rewrite Hf. }
  destruct ((<[j:=Pc.set_branch cnt e1]> (<[a:=Pc.set_branch cnt e]> pl)) !! a)
    as [e'|]; [|done].
  injection Hfn as Hfn. simpl. rewrite Hfn. simpl.
  rewrite Hn. simpl. rewrite Hnode. simpl. rewrite Hb. simpl. eauto.
Qed.

Lemma attributable_stamped paths bo pl pl1 entry :
  length pl1 = length pl ->
  (forall i, Pc.fn <$> pl1 !! i = Pc.fn <$> pl !! i) ->
  attributable paths bo pl entry -> attributable paths bo pl1 entry.
Proof.
  destruct entry as [[path o] [a j]].
  intros Hlen Hfn ((e & f & He & Hf) & Hj & Hrest). split; [|split; [lia|done]].
  specialize (Hfn a). rewrite He in Hfn. simpl in Hfn.
  destruct (pl1 !! a) as [e'|]; [|done]. simpl in Hfn.
  exists e', f. split; [done|]. congruence.
Qed.

Lemma entry_at_set {V} (m : list (string * list (string * list (Z * V))))
    path by_fn f cnt (v : V) :
  dict_get path m = Some by_fn ->
  let m' := dict_set path
              (dict_set f (dict_set cnt v (default [] (dict_get f by_fn))) by_fn) m in
  entry_at m' path f cnt = Some v
  /\ forall p g idx, idx ≠ cnt -> entry_at m' p g idx = entry_at m p g idx.
Proof.
  intros Hm m'. unfold entry_at, m'. split.
  - rewrite dict_get_set_eq. simpl. rewrite dict_get_set_eq. simpl.
    apply dict_get_set_eq.
  - intros p g idx Hne. destruct (decide (path = p)) as [->|Hp].
    + rewrite dict_get_set_eq, Hm. simpl.
      destruct (decide (f = g)) as [->|Hg].
      * rewrite dict_get_set_eq. simpl. rewrite dict_get_set_ne by done.
        by destruct (dict_get g by_fn).
      * by rewrite dict_get_set_ne.
    + by rewrite dict_get_set_ne.
Qed.

Lemma counter_range (cnt : Z) (n : nat) :
  (fun k => cnt + Z.of_nat k) <$> seq 1 n
  = (fun k => cnt + 1 + Z.of_nat k) <$> seq 0 n.
Proof.
  rewrite <- fmap_S_seq, <- list_fmap_compose. apply list_fmap_ext.
  intros _ k _. simpl. lia.
Qed.

(** The finaliser loop from any point on, for pairs that are all
    attributable. *)
Lemma finalize_fold paths bo pairs : forall pl (bm : BranchMap) cnt,
  Forall (attributable paths bo pl) pairs ->
  (forall p, p ∈ paths -> is_Some (dict_get p bm)) ->
  (forall i, i ∈ coverage_indices bm -> i < cnt) ->
  exists pl' bm',
    fold_result (finalize_branch bo) (pl, bm, cnt) pairs
    = Ok (pl', bm', cnt + Z.of_nat (length pairs))
    /\ length pl' = length pl
    /\ (forall i, Pc.fn <$> pl' !! i = Pc.fn <$> pl !! i)
    /\ coverage_indices bm'
       ≡ₚ ((fun k => cnt + Z.of_nat k) <$> seq 0 (length pairs))
            ++ coverage_indices bm
    /\ (forall path f idx,
          idx < cnt -> entry_at bm' path f idx = entry_at bm path f idx)
    /\ (forall i, (forall entry, entry ∈ pairs -> ~ mentions entry i) ->
                  pl' !! i = pl !! i)
    /\ forall k path o a j,
         pairs !! k = Some (path, o, (a, j)) ->
         exists f nodes node,
           Pc.fn <$> pl !! a = Some (Some f)
           /\ dict_get path bo = Some nodes
           /\ find (fun i => bool_decide (bn_offset i = o)) nodes = Some node
           /\ entry_at bm' path f (cnt + Z.of_nat k) = Some (o.1, o.2, bn_jump node)
           /\ forall i,
                mentions (path, o, (a, j)) i ->
                (forall k' entry', (k < k')%nat -> pairs !! k' = Some entry' ->
                                   ~ mentions entry' i) ->
                Pc.branch <$> pl' !! i = Some (Some (cnt + Z.of_nat k)).
Proof.
  induction pairs as [|entry rest IH]; intros pl bm cnt Hall Hkeys Hlt.
  { exists pl, bm. simpl. rewrite Z.add_0_r. repeat split; try done. }
  apply Forall_cons in Hall as [Hentry Hrest].
  destruct (finalize_branch_total paths bo pl bm cnt entry Hentry Hkeys)
    as [[[pl1 bm1] cnt1] Hstep].
  destruct entry as [[path o] [a j]].
  pose proof (finalize_branch_inv _ _ _ _ _ _ _ _ _ _ _ Hstep)
    as (e & e1 & f & nodes & node & by_fn & He & Hf & He1 & Hpl1 & Hn & Hnode
        & Hb & Hbm1 & ->).
  assert (Hlen1 : length pl1 = length pl) by (by rewrite Hpl1, !length_insert).
  assert (Hfn1 : forall i, Pc.fn <$> pl1 !! i = Pc.fn <$> pl !! i).
  { intros i. rewrite Hpl1, (stamp_fn _ j cnt e1 i He1). by apply stamp_fn. }
  assert (Hidx1 : coverage_indices bm1 ≡ₚ cnt :: coverage_indices bm).
  { rewrite Hbm1. by apply coverage_indices_set. }
  destruct (entry_at_set bm path by_fn f cnt (o.1, o.2, bn_jump node) Hb)
    as [Hnew Hold]. rewrite <- Hbm1 in Hnew, Hold.
  destruct (IH pl1 bm1 (cnt + 1)) as (pl' & bm' & Hfold & Hlen & Hfn & Hidx & Hframe & Hpl & Hk).
  { eapply Forall_impl; [exact Hrest|]. intros entry. by apply attributable_stamped. }
  { intros p Hp. rewrite Hbm1. destruct (decide (path = p)) as [->|Hne].
    - rewrite dict_get_set_eq. eauto.
    - rewrite dict_get_set_ne by done. auto. }
  { intros i Hi. rewrite Hidx1 in Hi.
    apply elem_of_cons in Hi as [->|Hi]; [lia|]. apply Hlt in Hi. lia. }
  exists pl', bm'. split; [|split; [|split; [|split; [|split; [|split]]]]].
  - cbn [fold_result]. rewrite Hstep. cbn [mbind result_bind].
    rewrite Hfold. f_equal. f_equal. cbn [length]. lia.
  - lia.
  - intros i. by rewrite Hfn.
  - rewrite Hidx, Hidx1. cbn [length seq fmap list_fmap].
    rewrite Z.add_0_r. rewrite <- Permutation_middle. simpl.
    by rewrite counter_range.
  - intros p g idx Hi. rewrite Hframe by lia. apply Hold. lia.
  - intros i Hno. rewrite Hpl.
    2:{ intros entry Hin. apply Hno. by right. }
    assert (Hm : ~ mentions (path, o, (a, j)) i) by (apply Hno; left).
    unfold mentions in Hm. simpl in Hm.
    rewrite Hpl1, !list_lookup_insert_ne by (intros <-; apply Hm; auto). done.
  - intros k p o' a' j' Hlook. destruct k as [|k]; simpl in Hlook.
    + injection Hlook as <- <- <- <-. exists f, nodes, node.
      split; [by rewrite He; simpl; rewrite Hf|]. split; [done|]. split; [done|].
      split; [rewrite Z.add_0_r, Hframe by lia; done|].
      intros i Hi Hlater. rewrite Hpl.
      2:{ intros entry Hin. apply list_elem_of_lookup in Hin as [k' Hk'].
          apply (Hlater (S k')); [lia | done]. }
      rewrite Z.add_0_r, Hpl1. destruct (decide (i = j)) as [->|Hij].
      * by apply stamp_branch.
      * rewrite list_lookup_insert_ne by done.
        destruct Hi as [Hi|Hi]; simpl in Hi; [subst i | done].
        by apply stamp_branch.
    + destruct (Hk k p o' a' j' Hlook) as (f' & nodes' & node' & Hf' & Hn' & Hnode' & Hent & Hst).
      exists f', nodes', node'. rewrite <- Hfn1.
      split; [done|]. split; [done|]. split; [done|].
      replace (cnt + Z.of_nat (S k)) with (cnt + 1 + Z.of_nat k) by lia.
      split; [done|]. intros i Hi Hlater. apply Hst; [done|].
      intros k' entry' Hkk' Hlook'. apply (Hlater (S k')); [lia | done].
Qed.

(** *** Branch markers along the walk *)

Section BranchRun.

Variable is_inside_offset : Offset -> Offset -> bool.
Variable source_nodes : list (Z * SourceUnit).
Variable branch_nodes : list (string * list Offset).
Variable paths : list string.

#[local] Abbreviation step' := (step is_inside_offset source_nodes branch_nodes).
#[local] Abbreviation walk' := (walk is_inside_offset source_nodes branch_nodes).

Lemma mark_branches_cases o idx path offset st offset' active' resolved' :
  mark_branches branch_nodes o idx path offset st = Ok (offset', active', resolved') ->
  (exists active resolved,
     dict_get path (branch_active st) = Some active
     /\ dict_get path (branch_set st) = Some resolved
     /\ active' = dict_set path [] (branch_active st)
     /\ resolved' = dict_set path
                      (foldl (fun acc kv => dict_set kv.1 (kv.2, idx) acc)
                         resolved active) (branch_set st))
  \/ (exists active resolved cands,
        dict_get path (branch_active st) = Some active
        /\ dict_get path (branch_set st) = Some resolved
        /\ dict_get path branch_nodes = Some cands /\ (offset ∈ cands)
        /\ active' = dict_set path (dict_set offset idx active) (branch_active st)
        /\ resolved' = dict_set path (dict_del offset resolved) (branch_set st))
  \/ (active' = branch_active st /\ resolved' = branch_set st).
Proof.
  unfold mark_branches. intros H.
  bind_inv H as active Ha. apply of_option_ok in Ha.
  destruct (negb (bool_decide (active = [])) && bool_decide (o = "JUMPI")).
  - bind_inv H as resolved Hr. apply of_option_ok in Hr.
    injection H as _ <- <-. left. by exists active, resolved.
  - bind_inv H as cands Hc. apply of_option_ok in Hc.
    case_bool_decide as Hin.
    + bind_inv H as resolved Hr. apply of_option_ok in Hr.
      injection H as _ <- <-. right. left. by exists active, resolved, cands.
    + injection H as _ <- <-. right. right. done.
Qed.

Lemma resolve_elem (idx : nat) (o : Offset) (v : nat * nat)
    (active : list (Offset * nat)) (resolved : list (Offset * (nat * nat))) :
  (o, v) ∈ foldl (fun acc kv => dict_set kv.1 (kv.2, idx) acc) resolved active ->
  (o, v) ∈ resolved \/ exists armed, (o, armed) ∈ active /\ v = (armed, idx).
Proof.
  revert resolved. induction active as [|[o' a'] active IH]; intros resolved Hin; [by left|].
  simpl in Hin. apply IH in Hin as [Hin|(armed & Hin & ->)].
  - apply dict_set_elem in Hin as [Hin|[-> ->]]; [by left|].
    right. exists a'. split; [left | done].
  - right. exists armed. split; [by right | done].
Qed.

Lemma step_preserves_branch_inv source st st' :
  step' source st = Ok st' ->
  branch_inv paths branch_nodes st -> branch_inv paths branch_nodes st'.
Proof.
  intros H [Hact Hres]. apply step_inv in H as (ops & cur0 & pc' & fr & _ & H).
  destruct H as [(cur & _ & _ & _ & ->)
                |(unit & start & stop & offset & active' & resolved' & cur & nodes
                  & smap & cnt & rm & Hmark & _ & _ & ->)];
    unfold branch_inv; simpl; rewrite length_app; simpl.
  { split.
    - intros path active o a Hp Ho. destruct (Hact path active o a Hp Ho). split; [lia|done].
    - intros path resolved Hp. destruct (Hres path resolved Hp) as [Hin Hall].
      split; [done|]. intros o a j Ho. destruct (Hall o a j Ho) as (? & ? & ?).
      split; [lia|]. split; [lia|done]. }
  apply mark_branches_cases in Hmark
    as [(active & resolved & Ha & Hr & -> & ->)
       |[(active & resolved & cands & Ha & Hr & Hc & Hin & -> & ->)
        |[-> ->]]].
  - apply dict_get_Some in Ha, Hr. split.
    + intros path act o a Hp Ho.
      apply dict_set_elem in Hp as [Hp|[-> ->]]; [|by apply elem_of_nil in Ho].
      destruct (Hact path act o a Hp Ho). split; [lia|done].
    + intros path res Hp. apply dict_set_elem in Hp as [Hp|[-> ->]].
      * destruct (Hres path res Hp) as [Hin Hall].
        split; [done|]. intros o a j Ho. destruct (Hall o a j Ho) as (? & ? & ?).
        split; [lia|]. split; [lia|done].
      * destruct (Hres _ _ Hr) as [Hin Hall]. split; [done|].
        intros o a j Ho. apply resolve_elem in Ho as [Ho|(armed & Ho & [= -> ->])].
        -- destruct (Hall o a j Ho) as (? & ? & ?). split; [lia|]. split; [lia|done].
        -- destruct (Hact _ _ _ _ Ha Ho) as [? ?]. split; [lia|]. split; [lia|done].
  - apply dict_get_Some in Ha, Hr. split.
    + intros path act o a Hp Ho.
      apply dict_set_elem in Hp as [Hp|[-> ->]].
      * destruct (Hact path act o a Hp Ho). split; [lia|done].
      * apply dict_set_elem in Ho as [Ho|[-> ->]].
        -- destruct (Hact _ _ _ _ Ha Ho). split; [lia|done].
        -- split; [lia|]. eauto.
    + intros path res Hp. apply dict_set_elem in Hp as [Hp|[-> ->]].
      * destruct (Hres path res Hp) as [Hin' Hall].
        split; [done|]. intros o a j Ho. destruct (Hall o a j Ho) as (? & ? & ?).
        split; [lia|]. split; [lia|done].
      * destruct (Hres _ _ Hr) as [Hin' Hall]. split; [done|].
        intros o a j Ho. apply dict_del_elem in Ho.
        destruct (Hall o a j Ho) as (? & ? & ?). split; [lia|]. split; [lia|done].
  - split.
    + intros path active o a Hp Ho. destruct (Hact path active o a Hp Ho). split; [lia|done].
    + intros path resolved Hp. destruct (Hres path resolved Hp) as [Hin Hall].
      split; [done|]. intros o a j Ho. destruct (Hall o a j Ho) as (? & ? & ?).
      split; [lia|]. split; [lia|done].
Qed.

Lemma walk_preserves_branch_inv source_map st st' :
  walk' source_map st = Ok st' ->
  branch_inv paths branch_nodes st -> branch_inv paths branch_nodes st'.
Proof.
  revert st. induction source_map as [|source rest IH]; intros st H Hinv; simpl in H.
  - by injection H as <-.
  - bind_inv H as st1 Hstep. eapply IH; [exact H|].
    eapply step_preserves_branch_inv; eauto.
Qed.

End BranchRun.

(** *** From the working sets of [correlate] to the finaliser *)

Lemma dict_of_fold_elem {K V} `{EqDecision K} (items acc : list (K * V)) k v :
  (k, v) ∈ foldl (fun d kv => dict_set kv.1 kv.2 d) acc items ->
  (k, v) ∈ acc \/ (k, v) ∈ items.
Proof.
  revert acc. induction items as [|[k0 v0] items IH]; intros acc Hin; [by left|].
  simpl in Hin. apply IH in Hin as [Hin|Hin]; [|right; by right].
  apply dict_set_elem in Hin as [Hin|[-> ->]]; [by left | right; left].
Qed.

Lemma dict_of_elem {K V} `{EqDecision K} (items : list (K * V)) k v :
  (k, v) ∈ dict_of items -> (k, v) ∈ items.
Proof.
  intros Hin. apply dict_of_fold_elem in Hin as [Hin|Hin]; [|done].
  by apply elem_of_nil in Hin.
Qed.

Lemma dict_of_fold_NoDup {K V} `{EqDecision K} (items acc : list (K * V)) :
  NoDup acc.*1 -> NoDup (foldl (fun d kv => dict_set kv.1 kv.2 d) acc items).*1.
Proof.
  revert acc. induction items as [|[k0 v0] items IH]; intros acc Hnd; [done|].
  simpl. apply IH. by apply dict_set_NoDup.
Qed.

Lemma dict_of_NoDup {K V} `{EqDecision K} (items : list (K * V)) :
  NoDup (dict_of items).*1.
Proof. apply dict_of_fold_NoDup. apply NoDup_nil_2. Qed.

(** [dict] of the items of a dictionary is the dictionary. *)
Lemma dict_of_fold_id {K V} `{EqDecision K} (d acc : list (K * V)) :
  NoDup (acc ++ d).*1 ->
  foldl (fun d kv => dict_set kv.1 kv.2 d) acc d = acc ++ d.
Proof.
  revert acc. induction d as [|[k v] d IH]; intros acc Hnd; simpl.
  - by rewrite app_nil_r.
  - rewrite dict_set_fresh.
    + rewrite IH; rewrite <- app_assoc; done.
    + apply dict_get_None. rewrite fmap_app in Hnd.
      apply NoDup_app in Hnd as (_ & Hdisj & _).
      intros Hin. apply (Hdisj k Hin). left.
Qed.

Lemma dict_of_id {K V} `{EqDecision K} (d : list (K * V)) :
  NoDup d.*1 -> dict_of d = d.
Proof. intros Hnd. unfold dict_of. by rewrite dict_of_fold_id. Qed.

Lemma dict_get_fmap {K V W} `{EqDecision K} (g : V -> W) (d : list (K * V)) k :
  dict_get k ((fun kv => (kv.1, g kv.2)) <$> d) = g <$> dict_get k d.
Proof.
  induction d as [|[k0 v0] d IH]; simpl; [done|].
  destruct (decide (k = k0)); done.
Qed.

Lemma dict_of_keys {K V} `{EqDecision K} (items acc : list (K * V)) k :
  is_Some (dict_get k acc) \/ k ∈ items.*1 ->
  is_Some (dict_get k (foldl (fun d kv => dict_set kv.1 kv.2 d) acc items)).
Proof.
  revert acc. induction items as [|[k0 v0] items IH]; intros acc Hk; simpl.
  - destruct Hk as [Hk|Hk]; [done | by apply elem_of_nil in Hk].
  - apply IH. destruct (decide (k0 = k)) as [->|Hne].
    + left. rewrite dict_get_set_eq. eauto.
    + destruct Hk as [Hk|Hk].
      * left. by rewrite dict_get_set_ne.
      * rewrite fmap_cons in Hk. apply elem_of_cons in Hk as [Hk|Hk]; [|by right].
        simpl in Hk. congruence.
Qed.

Lemma find_exists {A} (P : A -> bool) (l : list A) x :
  x ∈ l -> P x = true -> exists y, find P l = Some y.
Proof.
  induction l as [|z l IH]; intros Hin Hx; [by apply elem_of_nil in Hin|].
  simpl. destruct (P z) eqn:Hz; [eauto|].
  apply elem_of_cons in Hin as [->|Hin]; [congruence | auto].
Qed.

(** A branch offset of a path is the offset of one of its branch nodes. *)
Lemma branch_offset_has_node (bo : list (string * list BranchNode)) path cands o :
  NoDup bo.*1 ->
  dict_get path
    (dict_of ((fun kv => (kv.1, set_of (bn_offset <$> kv.2))) <$> bo)) = Some cands ->
  o ∈ cands ->
  exists nodes node,
    dict_get path bo = Some nodes
    /\ find (fun i => bool_decide (bn_offset i = o)) nodes = Some node.
Proof.
  intros Hnd Hc Ho. rewrite dict_of_id in Hc.
  2:{ rewrite <- list_fmap_compose. exact Hnd. }
  rewrite (dict_get_fmap (fun v => set_of (bn_offset <$> v))) in Hc.
  destruct (dict_get path bo) as [nodes|]; [|done]. injection Hc as <-.
  unfold set_of in Ho. rewrite elem_of_remove_dups in Ho.
  apply list_elem_of_fmap in Ho as (node & -> & Hin).
  destruct (find_exists (fun i => bool_decide (bn_offset i = bn_offset node)) nodes node)
    as [y Hy]; [done | by apply bool_decide_eq_true_2 |].
  eauto.
Qed.

Lemma branch_inv_initial (paths : list string) bn ops nodes smap :
  branch_inv paths bn
    (mkstate ops [] 0 0 None [] nodes smap
       (dict_of ((fun i => (i, [])) <$> paths))
       (dict_of ((fun i => (i, [])) <$> paths))).
Proof.
  split; simpl.
  - intros path active o a Hp Ho.
    apply dict_of_empty_values in Hp as ->. by apply elem_of_nil in Ho.
  - intros path resolved Hp. split.
    + apply dict_of_elem, list_elem_of_fmap in Hp as (p & [= -> _] & Hin). done.
    + apply dict_of_empty_values in Hp as ->. intros o a j Ho.
      by apply elem_of_nil in Ho.
Qed.

(** *** The reconciliation pass leaves function labels alone *)

Lemma fold_result_preserves {A B} (P : A -> Prop) (f : A -> B -> result A) l :
  (forall acc x acc', f acc x = Ok acc' -> P acc -> P acc') ->
  forall acc acc', fold_result f acc l = Ok acc' -> P acc -> P acc'.
Proof.
  intros Hf. induction l as [|x l IH]; intros acc acc' H HP; simpl in H.
  - by injection H as <-.
  - bind_inv H as acc1 H1. eauto.
Qed.

Lemma claim_keeps_fn (pl0 : list Pc.t) acc node acc' :
  claim acc node = Ok acc' ->
  (length acc.2 = length pl0 /\ forall i, Pc.fn <$> acc.2 !! i = Pc.fn <$> pl0 !! i) ->
  length acc'.2 = length pl0 /\ forall i, Pc.fn <$> acc'.2 !! i = Pc.fn <$> pl0 !! i.
Proof.
  destruct acc as [values pl]. unfold claim. simpl. intros H [Hlen Hfn].
  destruct (has_offset pl (fc_offset node)); [by injection H as <-|].
  destruct values as [|i values]; [done|].
  bind_inv H as e He. apply of_option_ok in He. injection H as <-. simpl.
  rewrite length_insert. split; [done|]. intros k. rewrite <- Hfn.
  destruct (decide (i = k)) as [->|Hne].
  - rewrite list_lookup_insert_eq by (by eapply lookup_lt_Some). by rewrite He.
  - by rewrite list_lookup_insert_ne.
Qed.

Lemma reconcile_reverts_keeps_fn sources rm pl rm' pl' :
  reconcile_reverts sources rm pl = Ok (rm', pl') ->
  length pl' = length pl /\ forall i, Pc.fn <$> pl' !! i = Pc.fn <$> pl !! i.
Proof.
  unfold reconcile_reverts. intros H.
  apply (fold_result_preserves
           (fun acc : list (string * string * list nat) * list Pc.t =>
              length acc.2 = length pl
              /\ forall i, Pc.fn <$> acc.2 !! i = Pc.fn <$> pl !! i)) in H;
    [exact H| |done].
  intros acc [[path fn_name] values] acc' Hstep HP.
  bind_inv Hstep as [values' pl1] Hfun. injection Hstep as <-. simpl.
  unfold reconcile_function in Hfun.
  bind_inv Hfun as unit Hunit. bind_inv Hfun as fn_node Hnode.
  apply (fold_result_preserves
           (fun acc : list nat * list Pc.t =>
              length acc.2 = length pl
              /\ forall i, Pc.fn <$> acc.2 !! i = Pc.fn <$> pl !! i)) in Hfun;
    [exact Hfun| |done].
  intros. by eapply claim_keeps_fn.
Qed.

Lemma resolved_pairs_elem bs path o a j :
  (path, o, (a, j)) ∈ resolved_pairs bs <->
  exists resolved, (path, resolved) ∈ bs /\ (o, (a, j)) ∈ resolved.
Proof.
  unfold resolved_pairs. rewrite list_elem_of_bind. split.
  - intros ([p resolved] & Hin & Hp). simpl in Hin.
    apply list_elem_of_fmap in Hin as ([o' [a' j']] & [= -> -> -> ->] & Hin). eauto.
  - intros (resolved & Hp & Hin). exists (path, resolved). split; [|done].
    simpl. apply list_elem_of_fmap. by exists (o, (a, j)).
Qed.

(** What [correlate] hands to the passes after the loop. *)
Lemma correlate_inv is_inside_offset source_map opcodes contract_node
    statement_nodes0 branch_nodes0 sources paths bo st :
  correlate is_inside_offset source_map opcodes contract_node
    statement_nodes0 branch_nodes0 = Ok (sources, paths, bo, st) ->
  NoDup bo.*1
  /\ statement_inv (statement_nodes st) (statement_map st) (count st)
  /\ branch_inv paths
       (dict_of ((fun kv => (kv.1, set_of (bn_offset <$> kv.2))) <$> bo)) st.
Proof.
  unfold correlate. intros H. bind_inv H as rows Hrows.
  bind_inv H as nodes Hnodes. bind_inv H as orig Horig.
  bind_inv H as st0 Hwalk. injection H as <- <- <- <-.
  split; [apply dict_of_NoDup|]. split.
  - eapply walk_preserves_statement_inv; [exact Hwalk|].
    apply statement_inv_initial.
  - eapply walk_preserves_branch_inv; [exact Hwalk|].
    apply branch_inv_initial.
Qed.

(** C8, as the code has it.  When the loop and the reconciliation pass
    have gone through and the armed step of every resolved pair has a
    function label, the finaliser and with it [generate_coverage_data]
    return; the [k]-th resolved pair, in the order of [branch_set], has
    the branch map entry (start, end, jump flag) under the function of
    its armed step at index [count + k], [count] being where the
    statement indices stopped; the branch map has these indices and no
    others, all above the statement indices; and the index is on the
    armed step and on the [JUMPI] step of the pair unless a later pair
    shares the step, in which case the step shows the index of the last
    pair that does. *)
Theorem resolved_pairs_become_branches
    (is_inside_offset : Offset -> Offset -> bool) (source_map opcodes : string)
    (contract_node : Contract) (statement_nodes0 : list (string * list Offset))
    (branch_nodes0 : list (string * list BranchNode))
    sources paths bo st rm pl :
  opcodes ≠ EmptyString ->
  correlate is_inside_offset source_map opcodes contract_node
    statement_nodes0 branch_nodes0 = Ok (sources, paths, bo, st) ->
  reconcile_reverts sources (revert_map st) (pc_list st) = Ok (rm, pl) ->
  (forall path o armed jumpi,
     (path, o, (armed, jumpi)) ∈ resolved_pairs (branch_set st) ->
     exists e fn, pl !! armed = Some e /\ Pc.fn e = Some fn) ->
  exists pl' bmap,
    finalize_branches paths bo (branch_set st) pl (count st)
    = Ok (pl', bmap,
          count st + Z.of_nat (length (resolved_pairs (branch_set st))))
    /\ generate_coverage_data is_inside_offset source_map opcodes contract_node
         statement_nodes0 branch_nodes0
       = Ok (dict_of ((fun i => (Pc.pc i, i)) <$> pl'), statement_map st, bmap)
    /\ coverage_indices bmap
       ≡ₚ (fun k => count st + Z.of_nat k)
            <$> seq 0 (length (resolved_pairs (branch_set st)))
    /\ (forall i j, i ∈ coverage_indices (statement_map st) ->
                    j ∈ coverage_indices bmap -> i < j)
    /\ forall k path o armed jumpi,
         resolved_pairs (branch_set st) !! k = Some (path, o, (armed, jumpi)) ->
         exists fn nodes node,
           Pc.fn <$> pl !! armed = Some (Some fn)
           /\ dict_get path bo = Some nodes
           /\ find (fun i => bool_decide (bn_offset i = o)) nodes = Some node
           /\ entry_at bmap path fn (count st + Z.of_nat k)
              = Some (o.1, o.2, bn_jump node)
           /\ forall i,
                mentions (path, o, (armed, jumpi)) i ->
                (forall k' entry',
                   (k < k')%nat ->
                   resolved_pairs (branch_set st) !! k' = Some entry' ->
                   ~ mentions entry' i) ->
                Pc.branch <$> pl' !! i = Some (Some (count st + Z.of_nat k)).
Proof.
  intros Hops Hc Hr Hfn.
  destruct (correlate_inv _ _ _ _ _ _ _ _ _ _ Hc) as (Hbo & (_ & Hlt & _) & [_ Hres]).
  destruct (reconcile_reverts_keeps_fn _ _ _ _ _ Hr) as [Hlen _].
  destruct (finalize_fold paths bo (resolved_pairs (branch_set st)) pl
              (dict_of ((fun i => (i, [])) <$> paths)) (count st))
    as (pl' & bmap & Hfold & _ & _ & Hidx & _ & _ & Hk).
  { apply Forall_forall. intros [[path o] [a j]] Hin.
    pose proof (Hfn _ _ _ _ Hin) as Hlabel.
    apply resolved_pairs_elem in Hin as (resolved & Hp & Hin).
    destruct (Hres path resolved Hp) as [Hpath Hall].
    destruct (Hall o a j Hin) as (_ & Hj & cands & Hcands & Ho).
    split; [done|]. split; [lia|]. split; [done|].
    by eapply branch_offset_has_node. }
  { intros p Hp. apply dict_of_keys. right.
    rewrite <- list_fmap_compose. simpl. by rewrite list_fmap_id. }
  { intros i Hi. rewrite coverage_indices_initial in Hi. by apply elem_of_nil in Hi. }
  rewrite coverage_indices_initial, app_nil_r in Hidx.
  exists pl', bmap. split; [exact Hfold|]. split; [|split; [done|split; [|done]]].
  - unfold generate_coverage_data. rewrite bool_decide_eq_false_2 by done.
    rewrite Hc. simpl. rewrite Hr. simpl.
    unfold finalize_branches in Hfold. unfold finalize_branches.
    rewrite Hfold. reflexivity.
  - intros i j Hi Hj. apply Hlt in Hi. rewrite Hidx in Hj.
    apply list_elem_of_fmap in Hj as (k & -> & _). lia.
Qed.

(** ** Syntax Candidate Extractor *)

Module AstFacts.
Import Ast.

Lemma node_at_app root p q :
  node_at root (p ++ q) = node_at root p ≫= (fun n => node_at n q).
Proof.
  revert root. induction p as [|i p IH]; intros root; simpl; [reflexivity|].
  destruct (kids root !! i) as [k|]; simpl; [apply IH | reflexivity].
Qed.

Lemma filter_none {A} (P : A -> bool) (l : list A) :
  Forall (fun d => P d = false) l -> filter (fun d => P d) l = [].
Proof.
  induction 1 as [|d l Hd _ IH]; [reflexivity|].
  rewrite filter_cons_False; [exact IH|]. rewrite Hd. auto.
Qed.

Lemma filter_plain_shift (i : nat) (n : node) :
  plain n ->
  filter (fun d => check_filters filters d.2)
    ((fun d => (i :: d.1, d.2)) <$> descendants n) = [].
Proof.
  intros H. apply (filter_none (fun d => check_filters filters d.2)).
  apply Forall_fmap. exact H.
Qed.

Lemma children_plain root p n :
  node_at root p = Some n -> plain n -> children root p filters = [].
Proof.
  unfold children. intros -> H.
  rewrite (filter_none (fun d => check_filters filters d.2)); done.
Qed.

Section RequireOr.

Variables (root : node) (base : ref).
Variables (attrs : list (string * string)) (off or_off : Offset).
Variables (callee a b : node).
Hypothesis Hbase :
  node_at root base = Some (Node attrs off [callee; disjunction or_off a b]).
Hypothesis Hcall : dict_get "node_type" attrs = Some "FunctionCall".
Hypothesis Hcallee : plain callee.
Hypothesis Ha : plain a.
Hypothesis Hb : plain b.

Lemma at_or : node_at root (base ++ [1%nat]) = Some (disjunction or_off a b).
Proof. rewrite node_at_app, Hbase. reflexivity. Qed.

Lemma at_a : node_at root (base ++ [1%nat; 0%nat]) = Some a.
Proof. rewrite node_at_app, Hbase. reflexivity. Qed.

Lemma at_b : node_at root (base ++ [1%nat; 1%nat]) = Some b.
Proof. rewrite node_at_app, Hbase. reflexivity. Qed.

Lemma call_no_match :
  check_filters filters (Node attrs off [callee; disjunction or_off a b]) = false.
Proof.
  unfold check_filters, check_filter, filters. simpl. rewrite Hcall. reflexivity.
Qed.

Lemma all_binaries : children root base filters = [base ++ [1%nat]].
Proof.
  unfold children. rewrite Hbase.
  change (descendants (Node attrs off [callee; disjunction or_off a b])) with
    (([], Node attrs off [callee; disjunction or_off a b])
       :: ((fun d => (0%nat :: d.1, d.2)) <$> descendants callee)
       ++ (([1%nat], disjunction or_off a b) ::
             ((fun d => (1%nat :: d.1, d.2)) <$>
                (((fun d => (0%nat :: d.1, d.2)) <$> descendants a)
                   ++ ((fun d => (1%nat :: d.1, d.2)) <$> descendants b) ++ [])))
       ++ []).
  rewrite filter_cons_False by (cbn [snd]; rewrite call_no_match; auto).
  rewrite !filter_app, filter_plain_shift by done.
  rewrite filter_cons_True by (simpl; reflexivity).
  rewrite (filter_none (fun d => check_filters filters d.2)).
  2:{ apply Forall_fmap, Forall_app. split.
      - apply Forall_fmap. exact Ha.
      - rewrite app_nil_r. apply Forall_fmap. exact Hb. }
  reflexivity.
Qed.

Lemma parents_of_operand (i : nat) :
  parents root (base ++ [1%nat; i]) (length base) bool_operation
  = [base ++ [1%nat]].
Proof.
  unfold parents. rewrite length_app. simpl length.
  replace (length base + 2 - length base)%nat with 2%nat by lia.
  cbn [seq reverse rev_append fmap list_fmap].
  rewrite (take_app_length' base _ (length base)) by done.
  replace (base ++ [1%nat; i]) with ((base ++ [1%nat]) ++ [i])
    by (rewrite <- app_assoc; reflexivity).
  rewrite (take_app_length' (base ++ [1%nat])) by (rewrite length_app; simpl; lia).
  simpl. rewrite at_or, Hbase. simpl.
  rewrite Hcall. reflexivity.
Qed.

Lemma a_on_left : on_left_of (base ++ [1%nat; 0%nat]) (base ++ [1%nat]) = true.
Proof.
  unfold on_left_of, left. rewrite <- app_assoc. simpl.
  rewrite bool_decide_eq_true_2; done.
Qed.

Lemma b_not_on_left : on_left_of (base ++ [1%nat; 1%nat]) (base ++ [1%nat]) = false.
Proof.
  unfold on_left_of, left, is_child_of. rewrite <- app_assoc. simpl.
  rewrite bool_decide_eq_false_2.
  2:{ intros H. apply app_inv_head in H. discriminate. }
  rewrite bool_decide_eq_false_2; [reflexivity|].
  rewrite !length_app. simpl. lia.
Qed.

(** C7: for the call [require(a || b)], wherever it stands in the tree,
    with operands [a] and [b] that hold no further [||] or [&&], branch
    extraction returns exactly the two operands, both with [jump = True]:
    [a] is not rightmost and takes its flag from the [||] above it, [b]
    is rightmost and takes the flag of the [require] call. *)
Theorem require_or_branches :
  node_at root (base ++ [1%nat; 0%nat]) = Some a
  /\ node_at root (base ++ [1%nat; 1%nat]) = Some b
  /\ _is_rightmost_operation root (base ++ [1%nat; 0%nat]) (length base) = false
  /\ _check_left_operator root (base ++ [1%nat; 0%nat]) (length base) = Ok true
  /\ _is_rightmost_operation root (base ++ [1%nat; 1%nat]) (length base) = true
  /\ _get_recursive_branches root base
     = Ok [(base ++ [1%nat; 0%nat], true); (base ++ [1%nat; 1%nat], true)].
Proof.
  assert (R1 : _is_rightmost_operation root (base ++ [1%nat; 0%nat]) (length base) = false).
  { unfold _is_rightmost_operation. rewrite parents_of_operand. simpl.
    rewrite a_on_left. reflexivity. }
  assert (R2 : _check_left_operator root (base ++ [1%nat; 0%nat]) (length base) = Ok true).
  { unfold _check_left_operator. rewrite parents_of_operand. simpl.
    rewrite a_on_left. simpl. unfold attr. rewrite at_or. reflexivity. }
  assert (R3 : _is_rightmost_operation root (base ++ [1%nat; 1%nat]) (length base) = true).
  { unfold _is_rightmost_operation. rewrite parents_of_operand. simpl.
    rewrite b_not_on_left. reflexivity. }
  split; [exact at_a|]. split; [exact at_b|].
  repeat split; try done.
  unfold _get_recursive_branches.
  assert (J : attr root base "node_type" = Some "FunctionCall").
  { unfold attr. rewrite Hbase. exact Hcall. }
  rewrite J. rewrite bool_decide_eq_true_2 by done. simpl.
  rewrite all_binaries. rewrite bool_decide_eq_false_2 by done.
  simpl. unfold iter at 1. rewrite at_or. simpl.
  rewrite <- !app_assoc. simpl.
  unfold branch_of.
  rewrite (children_plain _ _ _ at_a Ha), (children_plain _ _ _ at_b Hb).
  rewrite R1, R2, R3. reflexivity.
Qed.

End RequireOr.

Lemma require_or_branches_witness :
  node_at Sample.function_f [0; 0; 0; 1; 0]%nat
    = Some (Sample.identifier "a" (48, 49))
  /\ node_at Sample.function_f [0; 0; 0; 1; 1]%nat
    = Some (Sample.identifier "b" (53, 54))
  /\ _is_rightmost_operation Sample.function_f [0; 0; 0; 1; 0]%nat 3 = false
  /\ _check_left_operator Sample.function_f [0; 0; 0; 1; 0]%nat 3 = Ok true
  /\ _is_rightmost_operation Sample.function_f [0; 0; 0; 1; 1]%nat 3 = true
  /\ _get_recursive_branches Sample.function_f [0; 0; 0]%nat
     = Ok [([0; 0; 0; 1; 0]%nat, true); ([0; 0; 0; 1; 1]%nat, true)].
Proof.
  apply (require_or_branches Sample.function_f [0; 0; 0]%nat
           [("node_type", "FunctionCall"); ("name", "require")] (40, 55) (48, 54)
           (Sample.identifier "require" (40, 47))
           (Sample.identifier "a" (48, 49)) (Sample.identifier "b" (53, 54))).
  - reflexivity.
  - reflexivity.
  - repeat constructor.
  - repeat constructor.
  - repeat constructor.
Defined.

End AstFacts.

(** ** [generate_coverage_data] *)

(** C10: an empty opcode string gives three empty maps whatever the other
    arguments are, also for a source map that the decoder would reject and
    for paths that the candidate sets lack: neither is looked at. *)
Theorem generate_coverage_data_no_opcodes
    (is_inside_offset : Offset -> Offset -> bool) (source_map : string)
    (contract_node : Contract)
    (statement_nodes : list (string * list Offset))
    (branch_nodes : list (string * list BranchNode)) :
  generate_coverage_data is_inside_offset source_map "" contract_node
    statement_nodes branch_nodes = Ok ([], [], []).
Proof. reflexivity. Qed.

(** ** The claims on sample runs *)

Module Runs.
Import Sample.

(** The [JUMPI] of [require(c)] resolves the candidate armed by the push. *)
Lemma jumpi_resolves_active_witness :
  pc_list resolved !! 1%nat
    = Some (Pc.mk "JUMPI" 2 false None None (Some "c.sol") (Some (25, 30))
              None None None false)
  /\ dict_get "c.sol" (branch_active resolved) = Some []
  /\ exists set_,
       dict_get "c.sol" (branch_set resolved) = Some set_
       /\ forall o a, (o, a) ∈ [((20, 25), 0%nat)] ->
                      dict_get o set_ = Some (a, 1%nat).
Proof.
  apply (jumpi_resolves_active contains (source_nodes_of (contract_with []))
           [("c.sol", [(20, 25)])] (Some [FInt 25; FInt 5; FInt 0; FStr "-"])
           armed resolved _ "c.sol" (25, 30) [((20, 25), 0%nat)]).
  - vm_compute. reflexivity.
  - reflexivity.
  - reflexivity.
  - reflexivity.
  - reflexivity.
  - reflexivity.
  - discriminate.
  - apply NoDup_singleton.
Defined.

(** C2 as stated fails on a [JUMPI] whose entry names a source unit but
    has start -1: the step has a path, the path has the active branch
    (20, 25) armed at step 0, and the step neither records it as resolved
    nor empties the active set. *)
Lemma jumpi_without_offset_counterexample :
  run "20:5:0:-" "PUSH1 0x1 JUMPI STOP " (contract_with []) [("c.sol", [])]
    condition = Ok armed
  /\ branch_active armed = [("c.sol", [((20, 25), 0%nat)])]
  /\ view (fun st => ((fun e => (Pc.op e, Pc.path e, Pc.offset e)) <$> pc_list st,
                      branch_active st, branch_set st))
       (run "20:5:0:-;-1:-1:0" "PUSH1 0x1 JUMPI STOP " (contract_with [])
          [("c.sol", [])] condition)
     = Ok ([("PUSH1", Some "c.sol", Some (20, 25));
            ("JUMPI", Some "c.sol", None)],
           [("c.sol", [((20, 25), 0%nat)])],
           [("c.sol", [])]).
Proof. repeat split; vm_compute; reflexivity. Qed.



(** The pass fails on an unmatched bare [revert()] once the recorded jump
    steps are used up. *)
Lemma claim_without_candidates (pl : list Pc.t) (node : FunctionCall) :
  has_offset pl (fc_offset node) = false ->
  claim ([], pl) node = Err IndexError.
Proof. unfold claim. by intros ->. Qed.

(** C4: the code does not leave a surplus bare [revert()] unattributed, it
    raises.  The loop records the jump steps 5 and 7 for [C.f].  With two
    bare [revert()] calls, at (50, 58) and (60, 68), the pass stamps the
    two steps and the build returns; with a third, at (70, 78), the
    subscript [values[0]] on the emptied list raises [IndexError] and the
    build is lost. *)
Theorem surplus_revert_aborts :
  view revert_map
    (run revert_map_9 revert_opcodes (contract_with [])
       [("c.sol", [])] [("c.sol", [])])
    = Ok [("c.sol", "C.f", [5%nat; 7%nat])]
  /\ view (fun r => (fun e => (Pc.offset e, Pc.jump_revert e)) <$> records r)
       (generate_coverage_data contains revert_map_9 revert_opcodes
          (contract_with [revert_at (50, 58); revert_at (60, 68)])
          [("c.sol", [])] [("c.sol", [])])
     = Ok [(Some (0, 5), false); (Some (0, 5), false); (Some (0, 5), false);
           (Some (0, 5), false); (Some (20, 25), false); (Some (50, 58), true);
           (Some (30, 35), false); (Some (60, 68), true); (Some (40, 45), false)]
  /\ generate_coverage_data contains revert_map_9 revert_opcodes
       (contract_with [revert_at (50, 58); revert_at (60, 68); revert_at (70, 78)])
       [("c.sol", [])] [("c.sol", [])]
     = Err IndexError.
Proof. repeat split; vm_compute; reflexivity. Qed.



(** The first push of the revert target after the revert block. *)
Lemma revert_jump_index_witness :
  pc_list after_push !! 4%nat
    = Some (Pc.mk "PUSH1" 5 false None (Some "0x0") (Some "c.sol")
              (Some (20, 25)) (Some "C.f") None None false)
  /\ dict_get ("c.sol", "C.f") (revert_map after_push) = Some [5%nat]
  /\ forall source' st'',
       step contains (source_nodes_of (contract_with [])) [("c.sol", [])]
         source' after_push = Ok st'' ->
       exists jump, pc_list st'' !! 5%nat = Some jump /\ Pc.op jump = "JUMPI".
Proof.
  apply (revert_jump_index contains (source_nodes_of (contract_with []))
           [("c.sol", [])] (Some [FInt 20; FInt 5; FInt 0; FStr "-"])
           before_push after_push _ "c.sol" "C.f" "0x0" "JUMPI" (20, 25)).
  - vm_compute. reflexivity.
  - reflexivity.
  - reflexivity.
  - reflexivity.
  - reflexivity.
  - reflexivity.
  - reflexivity.
  - reflexivity.
  - right. left.
Defined.

(** C6 as stated fails: the two pushes of the revert target that a [JUMPI]
    follows are the steps 4 and 6, and the indices recorded for [C.f] are
    5 and 7, those of the two [JUMPI] steps. *)
Lemma revert_index_counterexample :
  view (fun st => (first_revert st,
                   (fun e => (Pc.op e, Pc.value e)) <$> pc_list st,
                   revert_map st))
    (run revert_map_9 revert_opcodes (contract_with [])
       [("c.sol", [])] [("c.sol", [])])
  = Ok (Some "0x0",
        [("JUMPDEST", None); ("PUSH1", Some "0x0"); ("DUP1", None);
         ("REVERT", None); ("PUSH1", Some "0x0"); ("JUMPI", None);
         ("PUSH1", Some "0x0"); ("JUMPI", None); ("STOP", None)],
        [("c.sol", "C.f", [5%nat; 7%nat])]).
Proof. vm_compute. reflexivity. Qed.

(** The branch map of the run with two branches. *)
Lemma resolved_pairs_become_branches_witness :
  exists pl' bmap,
    generate_coverage_data contains "0:5:0:-;20:5:0:-;30:5;30:5"
      "STOP PUSH1 0x1 PUSH1 0x2 JUMPI STOP " (contract_with [])
      [("c.sol", [(20, 25)])] two_branches
    = Ok (dict_of ((fun i => (Pc.pc i, i)) <$> pl'),
          statement_map shared_jumpi, bmap)
    /\ coverage_indices bmap ≡ₚ [1; 2]
    /\ entry_at bmap "c.sol" "C.f" 1 = Some (20, 25, true)
    /\ entry_at bmap "c.sol" "C.f" 2 = Some (30, 35, false).
Proof.
  destruct (resolved_pairs_become_branches contains "0:5:0:-;20:5:0:-;30:5;30:5"
              "STOP PUSH1 0x1 PUSH1 0x2 JUMPI STOP " (contract_with [])
              [("c.sol", [(20, 25)])] two_branches
              (source_nodes_of (contract_with [])) ["c.sol"] two_branches
              shared_jumpi [] (pc_list shared_jumpi))
    as (pl' & bmap & _ & Hg & Hidx & _ & Hk).
  - discriminate.
  - vm_compute. reflexivity.
  - reflexivity.
  - intros path o a j Hin. vm_compute in Hin.
    apply elem_of_cons in Hin as [[= -> -> -> ->]|Hin]; [by eexists _, _|].
    apply elem_of_cons in Hin as [[= -> -> -> ->]|Hin]; [by eexists _, _|].
    by apply elem_of_nil in Hin.
  - exists pl', bmap. split; [exact Hg|]. split; [exact Hidx|]. split.
    + destruct (Hk 0%nat "c.sol" (20, 25) 1%nat 3%nat eq_refl)
        as (fn & nodes & node & Hfn & Hn & Hnode & He & _).
      injection Hfn as <-. injection Hn as <-. injection Hnode as <-. exact He.
    + destruct (Hk 1%nat "c.sol" (30, 35) 2%nat 3%nat eq_refl)
        as (fn & nodes & node & Hfn & Hn & Hnode & He & _).
      injection Hfn as <-. injection Hn as <-. injection Hnode as <-. exact He.
Defined.

(** C8 as stated fails where two resolved pairs share their [JUMPI]: the
    pair of (20, 25), armed at step 1, has the branch index 1, and the
    [JUMPI] step 3 that resolved it ends with the index 2 of the pair of
    (30, 35). *)
Lemma shared_jumpi_counterexample :
  resolved_pairs (branch_set shared_jumpi)
    = [("c.sol", (20, 25), (1%nat, 3%nat)); ("c.sol", (30, 35), (2%nat, 3%nat))]
  /\ view (fun r => ((fun e => (Pc.op e, Pc.branch e)) <$> records r, r.2))
       (generate_coverage_data contains "0:5:0:-;20:5:0:-;30:5;30:5"
          "STOP PUSH1 0x1 PUSH1 0x2 JUMPI STOP " (contract_with [])
          [("c.sol", [(20, 25)])] two_branches)
     = Ok ([("STOP", None); ("PUSH1", Some 1); ("PUSH1", Some 2);
            ("JUMPI", Some 2)],
           [("c.sol", [("C.f", [(1, (20, 25, true)); (2, (30, 35, false))])])]).
Proof. split; vm_compute; reflexivity. Qed.

End Runs.
(** * Further properties *)

(** ** What a returning call is made of *)

Lemma generate_inv is_inside_offset source_map opcodes contract_node
    statement_nodes0 branch_nodes0 pcm smap bmap :
  opcodes ≠ EmptyString ->
  generate_coverage_data is_inside_offset source_map opcodes contract_node
    statement_nodes0 branch_nodes0 = Ok (pcm, smap, bmap) ->
  exists sources paths bo st rm pl pl' cnt',
    correlate is_inside_offset source_map opcodes contract_node
      statement_nodes0 branch_nodes0 = Ok (sources, paths, bo, st)
    /\ reconcile_reverts sources (revert_map st) (pc_list st) = Ok (rm, pl)
    /\ finalize_branches paths bo (branch_set st) pl (count st)
       = Ok (pl', bmap, cnt')
    /\ pcm = dict_of ((fun i => (Pc.pc i, i)) <$> pl')
    /\ smap = statement_map st.
Proof.
  intros Hops H. unfold generate_coverage_data in H.
  rewrite bool_decide_eq_false_2 in H by done.
  bind_inv H as [[[sources paths] bo] st] Hc.
  bind_inv H as [rm pl] Hr. bind_inv H as [[pl' bm] cnt'] Hf.
  injection H as <- <- <-. by exists sources, paths, bo, st, rm, pl, pl', cnt'.
Qed.

Lemma correlate_walk is_inside_offset source_map opcodes contract_node
    statement_nodes0 branch_nodes0 sources paths bo st :
  correlate is_inside_offset source_map opcodes contract_node
    statement_nodes0 branch_nodes0 = Ok (sources, paths, bo, st) ->
  exists rows nodes orig,
    expand_source_map source_map = Ok rows
    /\ sources = source_nodes_of contract_node
    /\ paths = paths_of sources
    /\ mapM (fun i => v ← of_option KeyError (dict_get i statement_nodes0);
                      Ok (i, v)) paths = Ok nodes
    /\ mapM (fun i => v ← of_option KeyError (dict_get i branch_nodes0);
                      Ok (i, v)) paths = Ok orig
    /\ bo = dict_of orig
    /\ walk is_inside_offset sources
         (dict_of ((fun kv => (kv.1, set_of (bn_offset <$> kv.2))) <$> bo)) rows
         (mkstate (Str.split " " opcodes) [] 0 0 None [] (dict_of nodes)
            (dict_of ((fun i => (i, [])) <$> paths))
            (dict_of ((fun i => (i, [])) <$> paths))
            (dict_of ((fun i => (i, [])) <$> paths))) = Ok st.
Proof.
  unfold correlate. intros H. bind_inv H as rows Hrows.
  bind_inv H as nodes Hnodes. bind_inv H as orig Horig.
  bind_inv H as st0 Hwalk. injection H as <- <- <- <-.
  by exists rows, nodes, orig.
Qed.

(** The passes after the loop write only ['offset'], ['jump_revert'] and
    ['branch']. *)
Lemma claim_keeps_core (pl0 : list Pc.t) acc node acc' :
  claim acc node = Ok acc' ->
  pc_core <$> acc.2 = pc_core <$> pl0 -> pc_core <$> acc'.2 = pc_core <$> pl0.
Proof.
  destruct acc as [values pl]. unfold claim. simpl. intros H Hcore.
  destruct (has_offset pl (fc_offset node)); [by injection H as <-|].
  destruct values as [|i values]; [done|].
  bind_inv H as e He. apply of_option_ok in He. injection H as <-. simpl.
  rewrite list_fmap_insert, <- Hcore. apply list_insert_id.
  by rewrite list_lookup_fmap, He.
Qed.

Lemma reconcile_reverts_keeps_core sources rm pl rm' pl' :
  reconcile_reverts sources rm pl = Ok (rm', pl') ->
  pc_core <$> pl' = pc_core <$> pl.
Proof.
  unfold reconcile_reverts. intros H.
  apply (fold_result_preserves
           (fun acc : list (string * string * list nat) * list Pc.t =>
              pc_core <$> acc.2 = pc_core <$> pl)) in H; [exact H| |done].
  intros acc [[path fn_name] values] acc' Hstep HP.
  bind_inv Hstep as [values' pl1] Hfun. injection Hstep as <-. simpl.
  unfold reconcile_function in Hfun.
  bind_inv Hfun as unit Hunit. bind_inv Hfun as fn_node Hnode.
  apply (fold_result_preserves
           (fun acc : list nat * list Pc.t =>
              pc_core <$> acc.2 = pc_core <$> pl)) in Hfun; [exact Hfun| |done].
  intros. by eapply claim_keeps_core.
Qed.

Lemma stamp_core (pl : list Pc.t) (a : nat) (c : Z) (e : Pc.t) :
  pl !! a = Some e -> pc_core <$> <[a := Pc.set_branch c e]> pl = pc_core <$> pl.
Proof.
  intros He. rewrite list_fmap_insert. apply list_insert_id.
  by rewrite list_lookup_fmap, He.
Qed.

Lemma finalize_branches_keeps_core paths bo bs pl cnt pl' bm cnt' :
  finalize_branches paths bo bs pl cnt = Ok (pl', bm, cnt') ->
  pc_core <$> pl' = pc_core <$> pl.
Proof.
  unfold finalize_branches. intros H.
  apply (fold_result_preserves
           (fun acc : list Pc.t * BranchMap * Z =>
              pc_core <$> acc.1.1 = pc_core <$> pl)) in H; [exact H| |done].
  intros [[pl0 bm0] cnt0] [[path o] [a j]] [[pl1 bm1] cnt1] Hstep HP. simpl in *.
  apply finalize_branch_inv in Hstep
    as (e & e1 & f & nodes & node & by_fn & He & _ & He1 & -> & _).
  rewrite <- HP. rewrite (stamp_core _ j cnt0 e1 He1). by apply stamp_core.
Qed.

(** ** More on the loop *)

Section WalkMore.

Variable is_inside_offset : Offset -> Offset -> bool.
Variable source_nodes : list (Z * SourceUnit).
Variable branch_nodes : list (string * list Offset).

#[local] Abbreviation step' := (step is_inside_offset source_nodes branch_nodes).
#[local] Abbreviation walk' := (walk is_inside_offset source_nodes branch_nodes).

(** The target string recorded for a revert block whose [REVERT] is at
    [pc]. *)
Lemma fetch_counters source st ops cur pc' fr :
  fetch source st = Ok (ops, cur, pc', fr) ->
  Pc.pc cur = pc st
  /\ (exists w, push_width cur = Ok w /\ pc' = pc st + 1 + w)
  /\ ((Pc.first_revert cur = false /\ fr = first_revert st)
      \/ (Pc.first_revert cur = true /\ first_revert st = None
          /\ Pc.op cur = "REVERT"
          /\ Pc.op <$> drop (length (pc_list st) - 3) (pc_list st)
             = ["JUMPDEST"; "PUSH1"; "DUP1"]
          /\ fr = Some (String.append "0x"
                          (Str.drop 2 (Str.upper (Str.hex (pc st - 4))))))).
Proof.
  unfold fetch. destruct (opcodes st) as [|o rest]; [discriminate|].
  intros H. bind_inv H as s3 Hs3. bind_inv H as nxt Hnxt.
  set (flag := _ && _ && _) in H.
  assert (Hflag : (flag = false)
                  \/ (flag = true /\ first_revert st = None /\ o = "REVERT"
                      /\ Pc.op <$> drop (length (pc_list st) - 3) (pc_list st)
                         = ["JUMPDEST"; "PUSH1"; "DUP1"])).
  { destruct flag eqn:Hf; [right|by left]. unfold flag in Hf.
    apply andb_true_iff in Hf as [Hf H3]. apply andb_true_iff in Hf as [H1 H2].
    apply bool_decide_eq_true_1 in H1, H2, H3. done. }
  set (c0 := if flag then Pc.set_first_revert (Pc.new o (pc st)) else Pc.new o (pc st)) in H.
  set (c1 := if bool_decide (s3 = FStr "-") then c0 else Pc.set_jump s3 c0) in H.
  assert (Hc1 : Pc.pc c1 = pc st /\ Pc.op c1 = o /\ Pc.value c1 = None
                /\ Pc.first_revert c1 = flag).
  { unfold c1, c0. destruct (bool_decide (s3 = FStr "-")), flag; done. }
  destruct Hc1 as (Hpc & Hop & Hval & Hfl).
  assert (Hrev : forall c : Pc.t,
            Pc.first_revert c = flag -> Pc.op c = o ->
            (Pc.first_revert c = false
             /\ (if flag
                 then Some (String.append "0x"
                              (Str.drop 2 (Str.upper (Str.hex (pc st - 4)))))
                 else first_revert st) = first_revert st)
            \/ (Pc.first_revert c = true /\ first_revert st = None
                /\ Pc.op c = "REVERT"
                /\ Pc.op <$> drop (length (pc_list st) - 3) (pc_list st)
                   = ["JUMPDEST"; "PUSH1"; "DUP1"]
                /\ (if flag
                    then Some (String.append "0x"
                                 (Str.drop 2 (Str.upper (Str.hex (pc st - 4)))))
                    else first_revert st)
                   = Some (String.append "0x"
                             (Str.drop 2 (Str.upper (Str.hex (pc st - 4))))))).
  { intros c Hc Ho. destruct Hflag as [Hf|(Hf & ? & ? & ?)]; rewrite Hf in *.
    - by left.
    - right. rewrite Ho. done. }
  destruct (bool_decide (Str.take 2 nxt = "0x")).
  - bind_inv H as n Hn. injection H as <- <- <- <-. simpl.
    split; [done|]. split.
    + exists n. unfold push_width. simpl. by rewrite Hop.
    + apply Hrev; done.
  - injection H as <- <- <- <-. split; [done|]. split.
    + exists 0. unfold push_width. rewrite Hval. split; [done|lia].
    + apply Hrev; done.
Qed.

Lemma attribute_core unit path offset cur st cur' nodes smap cnt :
  attribute is_inside_offset unit path offset cur st = (cur', nodes, smap, cnt) ->
  Pc.op cur' = Pc.op cur /\ Pc.pc cur' = Pc.pc cur
  /\ Pc.first_revert cur' = Pc.first_revert cur /\ Pc.jump cur' = Pc.jump cur
  /\ Pc.value cur' = Pc.value cur /\ Pc.path cur' = Pc.path cur
  /\ Pc.offset cur' = Pc.offset cur.
Proof.
  unfold attribute. intros H.
  repeat (match type of H with
          | context [match ?x with _ => _ end] => destruct x
          | context [if ?x then _ else _] => destruct x
          end);
    injection H as <- <- <- <-; done.
Qed.

(** What an iteration appends and where it leaves the counters. *)
Lemma step_record source st st' :
  step' source st = Ok st' ->
  exists ops cur0 pc' fr cur,
    fetch source st = Ok (ops, cur0, pc', fr)
    /\ pc_list st' = pc_list st ++ [cur]
    /\ opcodes st' = ops /\ pc st' = pc' /\ first_revert st' = fr
    /\ Pc.op cur = Pc.op cur0 /\ Pc.pc cur = Pc.pc cur0
    /\ Pc.value cur = Pc.value cur0
    /\ Pc.first_revert cur = Pc.first_revert cur0.
Proof.
  unfold step. intros H. bind_inv H as [[[ops cur0] pc'] fr] Hfetch.
  exists ops, cur0, pc', fr.
  bind_inv H as s2 Hs2. destruct (bool_decide (s2 = FInt (-1))).
  { injection H as <-. by exists cur0. }
  bind_inv H as unit Hunit. bind_inv H as s0 Hs0.
  destruct (bool_decide (s0 = FInt (-1))).
  { injection H as <-. by eexists. }
  bind_inv H as s1 Hs1. bind_inv H as stop Hstop.
  destruct s0 as [|start|]; try discriminate.
  bind_inv H as [[offset active] resolved] Hmark.
  destruct (attribute _ _ _ _ _ _) as [[[cur nodes] smap] cnt] eqn:Ha.
  bind_inv H as rm Hrm. injection H as <-.
  apply attribute_core in Ha as (? & ? & ? & ? & ? & ? & ?).
  exists cur. simpl in *. done.
Qed.

Lemma consecutive_snoc start pl next e w :
  consecutive start pl next -> Pc.pc e = next -> push_width e = Ok w ->
  consecutive start (pl ++ [e]) (next + 1 + w).
Proof.
  revert start. induction pl as [|x pl IH]; intros start Hc Hpc Hw; simpl in *.
  - subst. split; [done|]. by exists w.
  - destruct Hc as (Hx & wx & Hwx & Hrest). split; [done|].
    exists wx. split; [done|]. by apply IH.
Qed.

Lemma push_width_core e e' :
  Pc.op e = Pc.op e' -> Pc.value e = Pc.value e' -> push_width e = push_width e'.
Proof. unfold push_width. by intros -> ->. Qed.

Lemma walk_records source_map st st' :
  walk' source_map st = Ok st' ->
  (length (pc_list st') = length (pc_list st) + length source_map)%nat
  /\ record_tokens (pc_list st') ++ opcodes st'
     = record_tokens (pc_list st) ++ opcodes st
  /\ (consecutive 0 (pc_list st) (pc st) -> consecutive 0 (pc_list st') (pc st')).
Proof.
  revert st. induction source_map as [|source rest IH]; intros st H; simpl in H.
  { injection H as <-. split; [simpl; lia|]. done. }
  bind_inv H as st1 Hstep. destruct (IH st1 H) as (Hlen & Hused & Hcons).
  apply step_record in Hstep
    as (ops & cur0 & pc' & fr & cur & Hfetch & Hpl & Hops & Hpc & _ & Hop & Hpcc & Hval & _).
  pose proof (fetch_counters _ _ _ _ _ _ Hfetch) as (Hpc0 & (w & Hw & Hpc') & _).
  apply fetch_inv in Hfetch as (o & tl & Ho & _ & Hop0 & _ & _ & _ & _ & Htl).
  split; [|split].
  - rewrite Hlen, Hpl, length_app. simpl. lia.
  - rewrite Hused, Hpl, Hops, Ho. unfold record_tokens.
    rewrite bind_app, <- app_assoc. f_equal. simpl.
    rewrite Hop, Hop0, Hval.
    destruct Htl as [(<- & -> & _)|(v & -> & ->)]; done.
  - intros Hc. apply Hcons. rewrite Hpl, Hpc, Hpc'.
    apply consecutive_snoc; [done|congruence|].
    rewrite <- Hw. by apply push_width_core.
Qed.

End WalkMore.

Lemma consecutive_core pl pl' start next :
  pc_core <$> pl = pc_core <$> pl' ->
  consecutive start pl next -> consecutive start pl' next.
Proof.
  revert pl' start. induction pl as [|e pl IH]; intros [|e' pl'] start Hcore Hc;
    try done.
  injection Hcore as Hop Hpc _ _ Hval _ _ _ Hrest. simpl in *.
  destruct Hc as (He & w & Hw & Hc). split; [congruence|].
  exists w. split; [|by apply IH].
  rewrite <- Hw. symmetry. by apply push_width_core.
Qed.

Lemma record_tokens_core pl pl' :
  pc_core <$> pl = pc_core <$> pl' -> record_tokens pl = record_tokens pl'.
Proof.
  revert pl'. induction pl as [|e pl IH]; intros [|e' pl'] Hcore; try done.
  injection Hcore as Hop _ _ _ Hval _ _ _ Hrest. unfold record_tokens in *.
  simpl. rewrite Hop, Hval. do 2 f_equal. by apply IH.
Qed.

(** The records of the final state of the loop. *)
Lemma correlate_records is_inside_offset source_map ops contract_node
    statement_nodes0 branch_nodes0 sources paths bo st :
  correlate is_inside_offset source_map ops contract_node
    statement_nodes0 branch_nodes0 = Ok (sources, paths, bo, st) ->
  length (pc_list st) = length (Str.split ";" source_map)
  /\ Str.split " " ops = record_tokens (pc_list st) ++ opcodes st
  /\ consecutive 0 (pc_list st) (pc st).
Proof.
  intros Hc. apply correlate_walk in Hc
    as (rows & nodes & orig & Hrows & _ & _ & _ & _ & _ & Hwalk).
  apply walk_records in Hwalk as (Hlen & Htok & Hcons). simpl in *.
  split; [|split].
  - rewrite Hlen. by apply expand_source_map_entries.
  - done.
  - by apply Hcons.
Qed.

(** X1: The records behind the program counter map that is returned: one per
    entry of the source map, in the order of the entries; their opcodes
    and operands spell out the opcode string up to where the source map
    ends; and their program counters are those of consecutive
    instructions from 0, an operand counting [int(op[4:])] bytes. *)
Theorem records_follow_source_map
    (is_inside_offset : Offset -> Offset -> bool) (source_map ops : string)
    (contract_node : Contract) (statement_nodes0 : list (string * list Offset))
    (branch_nodes0 : list (string * list BranchNode)) pcm smap bmap :
  ops ≠ EmptyString ->
  generate_coverage_data is_inside_offset source_map ops contract_node
    statement_nodes0 branch_nodes0 = Ok (pcm, smap, bmap) ->
  exists pl rest next,
    pcm = dict_of ((fun e => (Pc.pc e, e)) <$> pl)
    /\ length pl = length (Str.split ";" source_map)
    /\ Str.split " " ops = record_tokens pl ++ rest
    /\ consecutive 0 pl next.
Proof.
  intros Hops H.
  apply generate_inv in H
    as (sources & paths & bo & st & rm & pl & pl' & cnt' & Hc & Hr & Hf & -> & _);
    [|done].
  apply reconcile_reverts_keeps_core in Hr.
  apply finalize_branches_keeps_core in Hf. rewrite Hr in Hf.
  apply correlate_records in Hc as (Hlen & Htok & Hcons).
  exists pl', (opcodes st), (pc st). split; [done|]. split; [|split].
  - apply (f_equal length) in Hf. rewrite !length_fmap in Hf. by rewrite Hf.
  - rewrite Htok. f_equal. by apply record_tokens_core.
  - by apply (consecutive_core (pc_list st)).
Qed.

Lemma consecutive_increasing start pl next :
  consecutive start pl next ->
  Forall (fun e => forall w, push_width e = Ok w -> 0 <= w) pl ->
  start <= next
  /\ Forall (fun e => start <= Pc.pc e < next) pl
  /\ NoDup (Pc.pc <$> pl).
Proof.
  revert start. induction pl as [|e pl IH]; intros start Hc Hw; simpl in *.
  - subst. split; [lia|]. split; [constructor | apply NoDup_nil_2].
  - destruct Hc as (He & w & Hwe & Hc). apply Forall_cons in Hw as [Hw0 Hw].
    specialize (Hw0 w Hwe). destruct (IH _ Hc Hw) as (Hle & Hall & Hnd).
    split; [lia|]. split.
    + constructor; [lia|]. eapply Forall_impl; [exact Hall|]. simpl. intros; lia.
    + apply NoDup_cons. split; [|done]. intros Hin.
      apply list_elem_of_fmap in Hin as (e' & Heq & Hin').
      rewrite Forall_forall in Hall. specialize (Hall e' Hin'). lia.
Qed.

(** X2: When no token of the opcode string has a negative number after its
    fourth character (as [PUSH1] to [PUSH32] have not), no two records
    share a program counter and the program counter map holds every
    record: it has as many items as the source map has entries. *)
Theorem pc_map_has_every_record
    (is_inside_offset : Offset -> Offset -> bool) (source_map ops : string)
    (contract_node : Contract) (statement_nodes0 : list (string * list Offset))
    (branch_nodes0 : list (string * list BranchNode)) pcm smap bmap :
  ops ≠ EmptyString ->
  (forall token n, token ∈ Str.split " " ops ->
                   Str.int (Str.drop 4 token) = Ok n -> 0 <= n) ->
  generate_coverage_data is_inside_offset source_map ops contract_node
    statement_nodes0 branch_nodes0 = Ok (pcm, smap, bmap) ->
  NoDup pcm.*1
  /\ length pcm = length (Str.split ";" source_map)
  /\ Forall (fun item => Pc.pc item.2 = item.1) pcm.
Proof.
  intros Hops Hwidth H.
  apply generate_inv in H
    as (sources & paths & bo & st & rm & pl0 & pl & cnt' & Hc & Hr & Hf & -> & _);
    [|done].
  apply reconcile_reverts_keeps_core in Hr.
  apply finalize_branches_keeps_core in Hf. rewrite Hr in Hf.
  apply correlate_records in Hc as (Hlen & Htok & Hcons).
  rewrite (record_tokens_core (pc_list st) pl) in Htok by done.
  apply (consecutive_core _ pl) in Hcons; [|done].
  apply (f_equal length) in Hf. rewrite !length_fmap in Hf. rewrite <- Hf in Hlen.
  set (next := pc st) in *. clearbody next.
  destruct (consecutive_increasing 0 pl next Hcons) as (_ & _ & Hnd).
  { apply Forall_forall. intros e He w Hw. unfold push_width in Hw.
    destruct (Pc.value e); [|injection Hw as <-; lia].
    apply (Hwidth (Pc.op e)); [|done]. rewrite Htok.
    apply elem_of_app. left. unfold record_tokens.
    apply list_elem_of_bind. exists e. split; [left | done]. }
  rewrite dict_of_id by (by rewrite <- list_fmap_compose).
  split; [by rewrite <- list_fmap_compose|]. split; [by rewrite length_fmap|].
  apply Forall_fmap, Forall_forall. done.
Qed.

Lemma records_follow_source_map_witness :
  exists pl rest next,
    Output.revert_run.1.1 = dict_of ((fun e => (Pc.pc e, e)) <$> pl)
    /\ length pl = length (Str.split ";" Sample.revert_map_9)
    /\ Str.split " " Sample.revert_opcodes = record_tokens pl ++ rest
    /\ consecutive 0 pl next.
Proof.
  apply (records_follow_source_map contains Sample.revert_map_9
           Sample.revert_opcodes (Sample.contract_with [Sample.revert_at (50, 58)])
           Output.revert_statements Output.revert_branches
           Output.revert_run.1.1 Output.revert_run.1.2 Output.revert_run.2).
  - discriminate.
  - vm_compute. reflexivity.
Defined.

Lemma pc_map_has_every_record_witness :
  NoDup Output.revert_run.1.1.*1
  /\ length Output.revert_run.1.1 = length (Str.split ";" Sample.revert_map_9)
  /\ Forall (fun item => Pc.pc item.2 = item.1) Output.revert_run.1.1.
Proof.
  apply (pc_map_has_every_record contains Sample.revert_map_9
           Sample.revert_opcodes (Sample.contract_with [Sample.revert_at (50, 58)])
           Output.revert_statements Output.revert_branches
           Output.revert_run.1.1 Output.revert_run.1.2 Output.revert_run.2).
  - discriminate.
  - intros token n Hin Hn. vm_compute in Hin.
    repeat (apply elem_of_cons in Hin as [->|Hin];
            [vm_compute in Hn; first [discriminate | injection Hn as <-; lia]|]).
    by apply elem_of_nil in Hin.
  - vm_compute. reflexivity.
Defined.

(** ** The statement indices *)

Lemma dict_set_same_keys {K V} `{EqDecision K} (k : K) (v v0 : V) d :
  dict_get k d = Some v0 -> (dict_set k v d).*1 = d.*1.
Proof.
  intros Hk. rewrite dict_set_keys, decide_True; [done|].
  apply dict_get_Some in Hk. apply list_elem_of_fmap. by exists (k, v0).
Qed.

Lemma seq_counter (cnt : Z) :
  0 <= cnt ->
  Z.of_nat <$> seq 0 (Z.to_nat (cnt + 1))
  = (Z.of_nat <$> seq 0 (Z.to_nat cnt)) ++ [cnt].
Proof.
  intros Hc. replace (Z.to_nat (cnt + 1)) with (Z.to_nat cnt + 1)%nat by lia.
  rewrite seq_app, fmap_app. simpl. f_equal. f_equal. lia.
Qed.

Section Ledger.

Variable is_inside_offset : Offset -> Offset -> bool.
Variable source_nodes : list (Z * SourceUnit).
Variable branch_nodes : list (string * list Offset).
Variable paths : list string.
Variable nodes0 : list (string * list Offset).

#[local] Abbreviation step' := (step is_inside_offset source_nodes branch_nodes).
#[local] Abbreviation walk' := (walk is_inside_offset source_nodes branch_nodes).

Lemma step_preserves_ledger_inv source st st' :
  step' source st = Ok st' -> ledger_inv paths nodes0 st -> ledger_inv paths nodes0 st'.
Proof.
  intros H (Hcnt & Hrec & Hidx & Hkeys & Hsub & Hent).
  apply step_inv in H as (ops & cur0 & pc' & fr & Hfetch & H).
  apply fetch_inv in Hfetch as (o & rest & _ & _ & _ & _ & _ & _ & Hst0 & _).
  assert (Hskip : forall cur, Pc.statement cur = None ->
            omap Pc.statement (pc_list st ++ [cur])
            = Z.of_nat <$> seq 0 (Z.to_nat (count st))).
  { intros cur Hcur. rewrite omap_app. simpl. rewrite Hcur, app_nil_r. done. }
  assert (Hold : forall cur e c, Pc.statement cur = None ->
            e ∈ pc_list st ++ [cur] -> Pc.statement e = Some c -> e ∈ pc_list st).
  { intros cur e c Hcur Hin Hc. apply elem_of_app in Hin as [Hin|Hin]; [done|].
    apply list_elem_of_singleton in Hin as ->. congruence. }
  destruct H as [(cur & _ & _ & Hcur & ->)
                |(unit & start & stop & offset & active & resolved & cur & nodes
                  & smap & cnt & rm & _ & Ha & _ & ->)].
  { repeat split; simpl; try done; [by apply Hskip|].
    intros e c Hin Hc. apply (Hent e c); [|done]. by eapply Hold. }
  apply attribute_cases in Ha
    as [(Hcur & -> & -> & Hnodes)
       |(name & cands & stmt & by_fn & Hc & Hin & Hm & -> & -> & -> & ->)].
  - simpl in Hcur. rewrite Hst0 in Hcur.
    repeat split; simpl; try done; [by apply Hskip| |].
    + destruct Hnodes as [->|(cands & stmt & Hc & ->)]; [done|].
      intros p cands'. destruct (decide (su_path unit = p)) as [<-|Hne].
      * rewrite dict_get_set_eq. intros [= <-].
        destruct (Hsub _ _ Hc) as (cands0 & H0 & Hs). exists cands0.
        split; [done|]. intros x Hx. apply list_elem_of_filter in Hx as [_ Hx]. auto.
      * rewrite dict_get_set_ne by done. apply Hsub.
    + intros e c Hin Hc. apply (Hent e c); [|done]. by eapply Hold.
  - assert (Hlt : forall i, i ∈ coverage_indices (statement_map st) -> i < count st).
    { intros i Hi. rewrite Hidx in Hi.
      apply list_elem_of_fmap in Hi as (k & -> & Hk).
      apply elem_of_seq in Hk. lia. }
    destruct (entry_at_set (statement_map st) (su_path unit) by_fn name
                (count st) stmt Hm) as [Hnew Hkeep].
    destruct (Hsub _ _ Hc) as (cands0 & H0 & Hs).
    repeat split; simpl.
    + lia.
    + rewrite omap_app, Hrec, seq_counter by done. done.
    + rewrite coverage_indices_set, seq_counter by done.
      rewrite Hidx. apply Permutation_cons_append.
    + rewrite <- Hkeys. by eapply dict_set_same_keys.
    + intros p cands'. destruct (decide (su_path unit = p)) as [<-|Hne].
      * rewrite dict_get_set_eq. intros [= <-]. exists cands0.
        split; [done|]. intros x Hx. apply list_elem_of_filter in Hx as [_ Hx]. auto.
      * rewrite dict_get_set_ne by done. apply Hsub.
    + intros e c Hine Hce. apply elem_of_app in Hine as [Hine|Hine].
      * destruct (Hent e c Hine Hce) as (p & f & s & c0 & Hp & Hf & He & Hd & Hs0).
        exists p, f, s, c0. repeat split; try done.
        rewrite Hkeep; [done|]. intros ->.
        assert (count st ∈ omap Pc.statement (pc_list st)) as Hbad.
        { apply list_elem_of_omap. by exists e. }
        rewrite Hrec in Hbad. apply list_elem_of_fmap in Hbad as (k & Hk & Hk').
        apply elem_of_seq in Hk'. lia.
      * apply list_elem_of_singleton in Hine as ->. simpl in Hce.
        injection Hce as <-. exists (su_path unit), name, stmt, cands0.
        repeat split; try done. by apply Hs.
Qed.

Lemma walk_preserves_ledger_inv source_map st st' :
  walk' source_map st = Ok st' -> ledger_inv paths nodes0 st -> ledger_inv paths nodes0 st'.
Proof.
  revert st. induction source_map as [|source rest IH]; intros st H Hinv; simpl in H.
  - by injection H as <-.
  - bind_inv H as st1 Hstep. eapply IH; [exact H|].
    by eapply step_preserves_ledger_inv.
Qed.

End Ledger.

Lemma paths_NoDup (sources : list (Z * SourceUnit)) : NoDup (paths_of sources).
Proof. apply NoDup_remove_dups. Qed.

Lemma empty_dict_keys {V} (paths : list string) :
  NoDup paths -> (dict_of ((fun i => (i, @nil V)) <$> paths)).*1 = paths.
Proof.
  intros Hnd. rewrite dict_of_id; rewrite <- list_fmap_compose; simpl;
    by rewrite list_fmap_id.
Qed.

Lemma mapM_get {V} (d : list (string * V)) (keys : list string) items :
  mapM (fun i => v ← of_option KeyError (dict_get i d); Ok (i, v)) keys = Ok items ->
  forall k v, (k, v) ∈ items -> dict_get k d = Some v.
Proof.
  revert items. induction keys as [|i keys IH]; intros items H k v Hin.
  - injection H as <-. by apply elem_of_nil in Hin.
  - rewrite mapM_cons in H. bind_inv H as y Hy. bind_inv H as tl Htl.
    injection H as <-. bind_inv Hy as w Hw. apply of_option_ok in Hw.
    injection Hy as <-. apply elem_of_cons in Hin as [[= -> ->]|Hin]; [done|].
    by eapply IH.
Qed.

Lemma correlate_ledger is_inside_offset source_map ops contract_node
    statement_nodes0 branch_nodes0 sources paths bo st :
  correlate is_inside_offset source_map ops contract_node
    statement_nodes0 branch_nodes0 = Ok (sources, paths, bo, st) ->
  paths = paths_of (source_nodes_of contract_node)
  /\ ledger_inv paths statement_nodes0 st.
Proof.
  intros H. apply correlate_walk in H
    as (rows & nodes & orig & _ & -> & -> & Hnodes & _ & _ & Hwalk).
  split; [done|].
  eapply walk_preserves_ledger_inv; [exact Hwalk|].
  repeat split; simpl; try done.
  - by rewrite coverage_indices_initial.
  - apply empty_dict_keys, paths_NoDup.
  - intros path cands Hc. exists cands. split; [|done].
    apply dict_get_Some, dict_of_elem in Hc. by eapply mapM_get.
  - intros e c Hin. by apply elem_of_nil in Hin.
Qed.

Lemma finalize_branches_inv paths bo bs pl cnt pl' bm cnt' :
  NoDup paths ->
  finalize_branches paths bo bs pl cnt = Ok (pl', bm, cnt') ->
  bm.*1 = paths /\ cnt <= cnt'
  /\ forall j, j ∈ coverage_indices bm -> cnt <= j < cnt'.
Proof.
  unfold finalize_branches. intros Hnd H.
  apply (fold_result_preserves
           (fun acc : list Pc.t * BranchMap * Z =>
              acc.1.2.*1 = paths /\ cnt <= acc.2
              /\ forall i, i ∈ coverage_indices acc.1.2 -> cnt <= i < acc.2)) in H;
    [exact H| |].
  - intros [[pl0 bm0] cnt0] [[path o] [a j]] [[pl1 bm1] cnt1] Hstep (Hk & Hle & Hin).
    simpl in *.
    apply finalize_branch_inv in Hstep
      as (e & e1 & f & nodes & node & by_fn & _ & _ & _ & _ & _ & _ & Hb & -> & ->).
    split; [|split; [lia|]].
    + rewrite <- Hk. by eapply dict_set_same_keys.
    + intros i Hi. rewrite coverage_indices_set in Hi; [|done|].
      * apply elem_of_cons in Hi as [->|Hi]; [lia|]. apply Hin in Hi. lia.
      * intros i' Hi'. apply Hin in Hi'. lia.
  - simpl. split; [by apply empty_dict_keys|]. split; [lia|].
    intros i Hj. rewrite coverage_indices_initial in Hj. by apply elem_of_nil in Hj.
Qed.

Lemma generate_ledger is_inside_offset source_map ops contract_node
    statement_nodes0 branch_nodes0 pcm smap bmap :
  generate_coverage_data is_inside_offset source_map ops contract_node
    statement_nodes0 branch_nodes0 = Ok (pcm, smap, bmap) ->
  exists pl0 pl cnt cnt',
    pcm = dict_of ((fun e => (Pc.pc e, e)) <$> pl)
    /\ pc_core <$> pl = pc_core <$> pl0
    /\ 0 <= cnt <= cnt'
    /\ omap Pc.statement pl0 = Z.of_nat <$> seq 0 (Z.to_nat cnt)
    /\ coverage_indices smap ≡ₚ Z.of_nat <$> seq 0 (Z.to_nat cnt)
    /\ (forall j, j ∈ coverage_indices bmap -> cnt <= j < cnt')
    /\ (ops ≠ EmptyString ->
        smap.*1 = paths_of (source_nodes_of contract_node)
        /\ bmap.*1 = paths_of (source_nodes_of contract_node))
    /\ forall e c,
         e ∈ pl0 -> Pc.statement e = Some c ->
         exists path fn stmt cands0,
           Pc.path e = Some path /\ Pc.fn e = Some fn
           /\ entry_at smap path fn c = Some stmt
           /\ dict_get path statement_nodes0 = Some cands0 /\ (stmt ∈ cands0).
Proof.
  intros H. destruct (decide (ops = EmptyString)) as [->|Hops].
  { unfold generate_coverage_data in H. simpl in H. injection H as <- <- <-.
    exists [], [], 0, 0. repeat split; try done; try lia; intros;
      match goal with Hin : _ ∈ _ |- _ => by apply elem_of_nil in Hin end. }
  apply generate_inv in H
    as (sources & paths & bo & st & rm & pl & pl' & cnt' & Hc & Hr & Hf & -> & ->);
    [|done].
  apply reconcile_reverts_keeps_core in Hr.
  pose proof (finalize_branches_keeps_core _ _ _ _ _ _ _ _ Hf) as Hcore.
  rewrite Hr in Hcore.
  apply correlate_ledger in Hc as (-> & Hcnt & Hrec & Hidx & Hkeys & _ & Hent).
  apply finalize_branches_inv in Hf as (Hbk & Hle & Hb); [|apply paths_NoDup].
  exists (pc_list st), pl', (count st), cnt'.
  split; [done|]. split; [done|]. split; [lia|]. split; [done|].
  split; [done|]. split; [done|]. split; [done|]. done.
Qed.



(** X6: A statement index on a record of the program counter map leads, under
    the record's path and function, to an entry of the statement map, and
    the entry is one of the statement candidates given for the path. *)
Theorem recorded_statements_are_candidates
    (is_inside_offset : Offset -> Offset -> bool) (source_map ops : string)
    (contract_node : Contract) (statement_nodes0 : list (string * list Offset))
    (branch_nodes0 : list (string * list BranchNode)) pcm smap bmap :
  generate_coverage_data is_inside_offset source_map ops contract_node
    statement_nodes0 branch_nodes0 = Ok (pcm, smap, bmap) ->
  forall k e c,
    (k, e) ∈ pcm -> Pc.statement e = Some c ->
    exists path fn stmt cands,
      Pc.path e = Some path /\ Pc.fn e = Some fn
      /\ entry_at smap path fn c = Some stmt
      /\ dict_get path statement_nodes0 = Some cands /\ (stmt ∈ cands).
Proof.
  intros H k e c Hin Hc. apply generate_ledger in H
    as (pl0 & pl & cnt & cnt' & -> & Hcore & _ & _ & _ & _ & _ & Hent).
  apply dict_of_elem, list_elem_of_fmap in Hin as (e' & [= -> <-] & Hin).
  assert (pc_core e ∈ pc_core <$> pl0) as Hin0.
  { rewrite <- Hcore. apply list_elem_of_fmap. by exists e. }
  apply list_elem_of_fmap in Hin0 as (e0 & Heq & Hin0).
  injection Heq as _ _ _ _ _ Hp Hf Hs.
  destruct (Hent e0 c Hin0) as (path & fn & stmt & cands & Hp0 & Hf0 & Hrest);
    [congruence|].
  exists path, fn, stmt, cands. split; [congruence|]. split; [congruence|]. done.
Qed.

(** X7: The statement map and the branch map have one key for each path of
    the source units of the contract and its dependencies, in this order,
    whether or not anything was recorded under the path. *)
Theorem coverage_maps_keyed_by_paths
    (is_inside_offset : Offset -> Offset -> bool) (source_map ops : string)
    (contract_node : Contract) (statement_nodes0 : list (string * list Offset))
    (branch_nodes0 : list (string * list BranchNode)) pcm smap bmap :
  ops ≠ EmptyString ->
  generate_coverage_data is_inside_offset source_map ops contract_node
    statement_nodes0 branch_nodes0 = Ok (pcm, smap, bmap) ->
  smap.*1 = paths_of (source_nodes_of contract_node)
  /\ bmap.*1 = paths_of (source_nodes_of contract_node).
Proof.
  intros Hops H. apply generate_ledger in H
    as (pl0 & pl & cnt & cnt' & _ & _ & _ & _ & _ & _ & Hkeys & _).
  by apply Hkeys.
Qed.





Lemma recorded_statements_are_candidates_witness :
  exists path fn stmt cands,
    Pc.path (Pc.mk "PUSH1" 5 false None (Some "0x0") (Some "c.sol")
               (Some (20, 25)) (Some "C.f") (Some 0) None false) = Some path
    /\ Pc.fn (Pc.mk "PUSH1" 5 false None (Some "0x0") (Some "c.sol")
                (Some (20, 25)) (Some "C.f") (Some 0) None false) = Some fn
    /\ entry_at Output.revert_run.1.2 path fn 0 = Some stmt
    /\ dict_get path Output.revert_statements = Some cands /\ (stmt ∈ cands).
Proof.
  refine (recorded_statements_are_candidates contains Sample.revert_map_9
            Sample.revert_opcodes (Sample.contract_with [Sample.revert_at (50, 58)])
            Output.revert_statements Output.revert_branches
            Output.revert_run.1.1 Output.revert_run.1.2 Output.revert_run.2 _ 5
            (Pc.mk "PUSH1" 5 false None (Some "0x0") (Some "c.sol")
               (Some (20, 25)) (Some "C.f") (Some 0) None false) 0 _ _).
  - vm_compute. reflexivity.
  - apply list_elem_of_lookup_2 with 4%nat. reflexivity.
  - reflexivity.
Defined.

Lemma coverage_maps_keyed_by_paths_witness :
  Output.revert_run.1.2.*1 = ["c.sol"] /\ Output.revert_run.2.*1 = ["c.sol"].
Proof.
  apply (coverage_maps_keyed_by_paths contains Sample.revert_map_9
           Sample.revert_opcodes (Sample.contract_with [Sample.revert_at (50, 58)])
           Output.revert_statements Output.revert_branches
           Output.revert_run.1.1).
  - discriminate.
  - vm_compute. reflexivity.
Defined.


(** ** The revert block of the function selector *)



Lemma core_lookup (pl pl' : list Pc.t) (i : nat) (e' : Pc.t) :
  pc_core <$> pl = pc_core <$> pl' -> pl' !! i = Some e' ->
  exists e, pl !! i = Some e /\ pc_core e = pc_core e'.
Proof.
  intros Hcore He'.
  assert ((pc_core <$> pl) !! i = Some (pc_core e')) as He.
  { rewrite Hcore, list_lookup_fmap, He'. done. }
  rewrite list_lookup_fmap in He. destruct (pl !! i) as [e|]; [|done].
  exists e. split; [done|]. simpl in He. congruence.
Qed.



Section RevertBlock.

Variable is_inside_offset : Offset -> Offset -> bool.
Variable source_nodes : list (Z * SourceUnit).
Variable branch_nodes : list (string * list Offset).

#[local] Abbreviation step' := (step is_inside_offset source_nodes branch_nodes).
#[local] Abbreviation walk' := (walk is_inside_offset source_nodes branch_nodes).

(** The flag of lines 264-271 and what it leaves in [first_revert]. *)
Lemma fetch_flag source st ops cur pc' fr :
  fetch source st = Ok (ops, cur, pc', fr) ->
  let flag :=
    bool_decide (first_revert st = None)
    && (bool_decide (Pc.op cur = "REVERT")
        && bool_decide (Pc.op <$> drop (length (pc_list st) - 3) (pc_list st)
                        = ["JUMPDEST"; "PUSH1"; "DUP1"])) in
  Pc.first_revert cur = flag
  /\ fr = (if flag then Some (revert_target (pc st)) else first_revert st)
  /\ Pc.branch cur = None /\ Pc.jump_revert cur = false.
Proof.
  unfold fetch. destruct (opcodes st) as [|o rest]; [discriminate|].
  intros H. bind_inv H as s3 Hs3. bind_inv H as nxt Hnxt.
  set (flag0 := _ && _ && _) in H.
  set (c0 := if flag0 then Pc.set_first_revert (Pc.new o (pc st)) else Pc.new o (pc st)) in H.
  set (c1 := if bool_decide (s3 = FStr "-") then c0 else Pc.set_jump s3 c0) in H.
  assert (Hc1 : Pc.op c1 = o /\ Pc.first_revert c1 = flag0
                /\ Pc.branch c1 = None /\ Pc.jump_revert c1 = false).
  { unfold c1, c0. destruct (bool_decide (s3 = FStr "-")), flag0; done. }
  destruct Hc1 as (Hop & Hfl & Hbr & Hjr).
  assert (G : forall c : Pc.t,
            Pc.op c = o -> Pc.first_revert c = flag0 -> Pc.branch c = None ->
            Pc.jump_revert c = false ->
            let flag :=
              bool_decide (first_revert st = None)
              && (bool_decide (Pc.op c = "REVERT")
                  && bool_decide (Pc.op <$> drop (length (pc_list st) - 3) (pc_list st)
                                  = ["JUMPDEST"; "PUSH1"; "DUP1"])) in
            Pc.first_revert c = flag
            /\ (if flag0 then Some (String.append "0x"
                                      (Str.drop 2 (Str.upper (Str.hex (pc st - 4)))))
                else first_revert st)
               = (if flag then Some (revert_target (pc st)) else first_revert st)
            /\ Pc.branch c = None /\ Pc.jump_revert c = false).
  { intros c Ho Hf Hb Hj. simpl. rewrite Ho, andb_assoc. fold flag0. done. }
  destruct (bool_decide (Str.take 2 nxt = "0x")).
  - bind_inv H as n Hn. injection H as <- <- <- <-. by apply G.
  - injection H as <- <- <- <-. by apply G.
Qed.

Lemma attribute_marks unit path offset cur st cur' nodes smap cnt :
  attribute is_inside_offset unit path offset cur st = (cur', nodes, smap, cnt) ->
  Pc.branch cur' = Pc.branch cur /\ Pc.jump_revert cur' = Pc.jump_revert cur.
Proof.
  unfold attribute. intros H.
  repeat (match type of H with
          | context [match ?x with _ => _ end] => destruct x
          | context [if ?x then _ else _] => destruct x
          end);
    injection H as <- <- <- <-; done.
Qed.

(** What an iteration leaves for the passes after the loop to set. *)
Lemma step_marks source st st' :
  step' source st = Ok st' ->
  exists cur, pc_list st' = pc_list st ++ [cur]
              /\ Pc.branch cur = None /\ Pc.jump_revert cur = false.
Proof.
  unfold step. intros H. bind_inv H as [[[ops cur0] pc'] fr] Hfetch.
  apply fetch_flag in Hfetch as (_ & _ & Hb & Hj).
  bind_inv H as s2 Hs2. destruct (bool_decide (s2 = FInt (-1))).
  { injection H as <-. by exists cur0. }
  bind_inv H as unit Hunit. bind_inv H as s0 Hs0.
  destruct (bool_decide (s0 = FInt (-1))).
  { injection H as <-. by eexists. }
  bind_inv H as s1 Hs1. bind_inv H as stop Hstop.
  destruct s0 as [|start|]; try discriminate.
  bind_inv H as [[offset active] resolved] Hmark.
  destruct (attribute _ _ _ _ _ _) as [[[cur nodes] smap] cnt] eqn:Ha.
  bind_inv H as rm Hrm. injection H as <-.
  apply attribute_marks in Ha as [Hb' Hj'].
  exists cur. simpl in *. split; [done|]. split; congruence.
Qed.



End RevertBlock.



(** ** Jumps to the revert block *)

Lemma track_revert_inv ops fr idx cur rm rm' :
  track_revert ops fr idx cur rm = Ok rm' ->
  rm' = rm
  \/ exists v nxt p f,
       Pc.value cur = Some v /\ fr = Some v
       /\ head ops = Some nxt /\ nxt ∈ ["JUMP"; "JUMPI"]
       /\ Pc.path cur = Some p /\ Pc.fn cur = Some f
       /\ rm' = dict_set (p, f) (default [] (dict_get (p, f) rm) ++ [S idx]) rm.
Proof.
  unfold track_revert. intros H.
  destruct (Pc.value cur) as [v|]; [|injection H as <-; by left].
  case_bool_decide as Hv; [|injection H as <-; by left].
  bind_inv H as nxt Hnxt. apply of_option_ok in Hnxt.
  case_bool_decide as Hj; [|injection H as <-; by left].
  bind_inv H as p Hp. apply of_option_ok in Hp.
  bind_inv H as f Hf. apply of_option_ok in Hf.
  injection H as <-. right. exists v, nxt, p, f. done.
Qed.

Section RevertMap.

Variable is_inside_offset : Offset -> Offset -> bool.
Variable source_nodes : list (Z * SourceUnit).
Variable branch_nodes : list (string * list Offset).

#[local] Abbreviation step' := (step is_inside_offset source_nodes branch_nodes).
#[local] Abbreviation walk' := (walk is_inside_offset source_nodes branch_nodes).

Lemma step_preserves_revert_map_inv source st st' :
  step' source st = Ok st' -> revert_map_inv st -> revert_map_inv st'.
Proof.
  intros H [Hmarks Hinv].
  destruct (step_marks _ _ _ _ _ _ H) as (last & Hlast & Hb & Hj).
  split.
  { intros e He. rewrite Hlast in He. apply elem_of_app in He as [He|He]; [auto|].
    by apply list_elem_of_singleton in He as ->. }
  pose proof (step_appends _ _ _ _ _ _ H) as (o & rest & cur' & Hops & Hpl & Hop).
  apply step_inv in H as (ops & cur0 & pc' & fr & Hfetch & H).
  pose proof (fetch_flag _ _ _ _ _ _ Hfetch) as (_ & Hfr & _). simpl in Hfr.
  assert (Hold : forall p f values v,
            (p, f, values) ∈ revert_map st -> v ∈ values ->
            exists k prev target,
              v = S k /\ (pc_list st ++ [cur']) !! k = Some prev
              /\ Pc.value prev = Some target /\ fr = Some target
              /\ Pc.path prev = Some p /\ Pc.fn prev = Some f
              /\ match (pc_list st ++ [cur']) !! v with
                 | Some e => Pc.op e ∈ ["JUMP"; "JUMPI"]
                 | None => False
                 end).
  { intros p f values v Hin Hv.
    destruct (Hinv p f values v Hin Hv)
      as (k & prev & target & -> & Hk & Hval & Hst & Hp & Hf & Hnext).
    exists k, prev, target. split; [done|].
    split; [rewrite lookup_app_l; [done | by eapply lookup_lt_Some]|].
    split; [done|]. split; [by rewrite Hfr, Hst|]. split; [done|]. split; [done|].
    destruct (pc_list st !! S k) as [e|] eqn:He.
    - rewrite lookup_app_l by (by eapply lookup_lt_Some). by rewrite He.
    - destruct Hnext as (Hlen & nxt & Hnxt & Hjump). rewrite Hlen.
      rewrite list_lookup_middle by done. rewrite Hops in Hnxt.
      injection Hnxt as <-. by rewrite Hop. }
  assert (Hkeep : forall ops1 pc1 cnt nodes smap active resolved p f values v,
            (p, f, values) ∈ revert_map st -> v ∈ values ->
            let st1 := mkstate ops1 (pc_list st ++ [cur']) cnt pc1 fr
                         (revert_map st) nodes smap active resolved in
            exists k prev target,
              v = S k /\ pc_list st1 !! k = Some prev
              /\ Pc.value prev = Some target /\ first_revert st1 = Some target
              /\ Pc.path prev = Some p /\ Pc.fn prev = Some f
              /\ match pc_list st1 !! v with
                 | Some e => Pc.op e ∈ ["JUMP"; "JUMPI"]
                 | None => v = length (pc_list st1)
                           /\ exists nxt, head (opcodes st1) = Some nxt
                                          /\ nxt ∈ ["JUMP"; "JUMPI"]
                 end).
  { intros ops1 pc1 cnt nodes smap active resolved p f values v Hin Hv. simpl.
    destruct (Hold p f values v Hin Hv)
      as (k & prev & target & -> & Hk & Hval & Hst & Hp & Hf & Hnext).
    exists k, prev, target. repeat (split; [done|]).
    by destruct ((pc_list st ++ [cur']) !! S k). }
  destruct H as [(cur & _ & _ & _ & ->)
                |(unit & start & stop & offset & active & resolved & cur & nodes
                  & smap & cnt & rm & _ & _ & Htrack & ->)];
    simpl in Hpl; apply app_inj_tail in Hpl as [_ ->].
  { intros p f values v. apply Hkeep. }
  apply track_revert_inv in Htrack
    as [->|(tv & nxt & p0 & f0 & Hval & -> & Hnxt & Hjump & Hp0 & Hf0 & ->)].
  { intros p f values v. apply Hkeep. }
  intros p f values v Hin Hv. simpl in *.
  apply dict_set_elem in Hin as [Hin|[Hkey Hvals]].
  - destruct (Hold p f values v Hin Hv)
      as (k & prev & target & -> & Hk & Hpv & Hst & Hp & Hf & Hnext).
    exists k, prev, target. repeat (split; [done|]).
    by destruct ((pc_list st ++ [cur']) !! S k).
  - injection Hkey as -> ->. subst values.
    apply elem_of_app in Hv as [Hv|Hv].
    + destruct (dict_get (p0, f0) (revert_map st)) as [values|] eqn:Hget;
        [|by apply elem_of_nil in Hv].
      apply dict_get_Some in Hget. simpl in Hv.
      destruct (Hold p0 f0 values v Hget Hv)
        as (k & prev & target & -> & Hk & Hpv & Hst & Hp & Hf & Hnext).
      exists k, prev, target. repeat (split; [done|]).
      by destruct ((pc_list st ++ [cur']) !! S k).
    + apply list_elem_of_singleton in Hv as ->.
      exists (length (pc_list st)), cur', tv. split; [done|].
      split; [by apply list_lookup_middle|]. repeat (split; [done|]).
      rewrite lookup_ge_None_2 by (rewrite length_app; simpl; lia).
      split; [rewrite length_app; simpl; lia|]. by exists nxt.
Qed.

Lemma walk_preserves_revert_map_inv source_map st st' :
  walk' source_map st = Ok st' -> revert_map_inv st -> revert_map_inv st'.
Proof.
  revert st. induction source_map as [|source rest IH]; intros st H Hinv; simpl in H.
  - by injection H as <-.
  - bind_inv H as st1 Hstep. eapply IH; [exact H|].
    by eapply step_preserves_revert_map_inv.
Qed.

End RevertMap.




Lemma finalize_branches_keeps_marks paths bo bs pl cnt pl' bm cnt' :
  finalize_branches paths bo bs pl cnt = Ok (pl', bm, cnt') ->
  (fun e => (Pc.offset e, Pc.jump_revert e)) <$> pl'
  = (fun e => (Pc.offset e, Pc.jump_revert e)) <$> pl.
Proof.
  unfold finalize_branches. intros H.
  apply (fold_result_preserves
           (fun acc : list Pc.t * BranchMap * Z =>
              (fun e => (Pc.offset e, Pc.jump_revert e)) <$> acc.1.1
              = (fun e => (Pc.offset e, Pc.jump_revert e)) <$> pl)) in H;
    [exact H| |done].
  intros [[pl0 bm0] cnt0] [[path o] [a j]] [[pl1 bm1] cnt1] Hstep HP. simpl in *.
  apply finalize_branch_inv in Hstep
    as (e & e1 & f & nodes & node & by_fn & He & _ & He1 & -> & _).
  rewrite <- HP. set (g := fun e : Pc.t => (Pc.offset e, Pc.jump_revert e)).
  assert (Hin : g <$> <[a := Pc.set_branch cnt0 e]> pl0 = g <$> pl0).
  { rewrite list_fmap_insert. apply list_insert_id.
    by rewrite list_lookup_fmap, He. }
  rewrite list_fmap_insert, Hin. apply list_insert_id.
  rewrite <- Hin, list_lookup_fmap, He1. done.
Qed.



(** ** Records and their source map entries *)

Lemma item_ok source k v :
  item source k = Ok v -> exists r, source = Some r /\ r !! k = Some v.
Proof.
  unfold item. destruct source as [r|]; [|done]. simpl.
  intros H. apply of_option_ok in H. eauto.
Qed.

Lemma fetch_jump source st ops cur pc' fr :
  fetch source st = Ok (ops, cur, pc', fr) ->
  exists r s3, source = Some r /\ r !! 3%nat = Some s3
               /\ Pc.jump cur = (if bool_decide (s3 = FStr "-") then None else Some s3).
Proof.
  unfold fetch. destruct (opcodes st) as [|o rest]; [discriminate|].
  intros H. bind_inv H as s3 Hs3. bind_inv H as nxt Hnxt.
  apply item_ok in Hs3 as (r & -> & Hr). exists r, s3. split; [done|]. split; [done|].
  set (flag := _ && _ && _) in H.
  destruct (bool_decide (Str.take 2 nxt = "0x")).
  - bind_inv H as n Hn. injection H as <- <- <- <-.
    by destruct (bool_decide (s3 = FStr "-")), flag.
  - injection H as <- <- <- <-.
    by destruct (bool_decide (s3 = FStr "-")), flag.
Qed.

Section Mirror.

Variable is_inside_offset : Offset -> Offset -> bool.
Variable source_nodes : list (Z * SourceUnit).
Variable branch_nodes : list (string * list Offset).

#[local] Abbreviation step' := (step is_inside_offset source_nodes branch_nodes).
#[local] Abbreviation walk' := (walk is_inside_offset source_nodes branch_nodes).

Lemma step_mirrors source st st' :
  step' source st = Ok st' ->
  exists cur, pc_list st' = pc_list st ++ [cur] /\ mirrors source_nodes cur source.
Proof.
  unfold step. intros H. bind_inv H as [[[ops cur0] pc'] fr] Hfetch.
  pose proof (fetch_jump _ _ _ _ _ _ Hfetch) as (r & s3 & -> & H3 & Hjump).
  apply fetch_inv in Hfetch as (_ & _ & _ & _ & _ & Hpath & Hoff & _).
  bind_inv H as s2 Hs2. apply item_ok in Hs2 as (? & [= <-] & H2).
  assert (Hj : Pc.jump cur0 = entry_jump r).
  { unfold entry_jump. by rewrite H3. }
  destruct (bool_decide (s2 = FInt (-1))) eqn:Hid.
  { apply bool_decide_eq_true_1 in Hid.
    injection H as <-. exists cur0. split; [done|]. exists r. subst s2.
    unfold entry_path, entry_offset. rewrite H2. simpl.
    repeat split; try done. rewrite Hoff. by destruct (r !! 0%nat) as [[]|]. }
  apply bool_decide_eq_false_1 in Hid.
  bind_inv H as unit Hunit. bind_inv H as s0 Hs0.
  apply item_ok in Hs0 as (? & [= <-] & H0).
  destruct s2 as [|id|]; try done. simpl in Hunit. apply of_option_ok in Hunit.
  assert (Hp : entry_path source_nodes r = Some (su_path unit)).
  { unfold entry_path. rewrite H2, bool_decide_eq_false_2 by congruence.
    by rewrite Hunit. }
  destruct (bool_decide (s0 = FInt (-1))) eqn:Hstart.
  { apply bool_decide_eq_true_1 in Hstart.
    injection H as <-. eexists. split; [done|]. exists r. subst s0.
    unfold entry_offset. rewrite H2, H0. simpl. rewrite orb_true_r.
    repeat split; try done. }
  apply bool_decide_eq_false_1 in Hstart.
  bind_inv H as s1 Hs1. apply item_ok in Hs1 as (? & [= <-] & H1).
  bind_inv H as stop Hstop.
  destruct s0 as [|start|]; try discriminate.
  destruct s1 as [|len|]; try discriminate. injection Hstop as <-.
  bind_inv H as [[offset active] resolved] Hmark.
  destruct (attribute _ _ _ _ _ _) as [[[cur nodes] smap] cnt] eqn:Ha.
  bind_inv H as rm Hrm. injection H as <-.
  apply attribute_core in Ha as (_ & _ & _ & Hj' & _ & Hp' & Ho').
  exists cur. split; [done|]. exists r. simpl in *.
  split; [done|]. split; [congruence|]. split; [congruence|].
  rewrite Ho'. unfold entry_offset. rewrite H2, H0, H1.
  rewrite !bool_decide_eq_false_2 by congruence. done.
Qed.

Lemma walk_mirrors source_map st st' :
  walk' source_map st = Ok st' ->
  exists new, pc_list st' = pc_list st ++ new
              /\ Forall2 (mirrors source_nodes) new source_map.
Proof.
  revert st. induction source_map as [|source rest IH]; intros st H; simpl in H.
  - injection H as <-. exists []. by rewrite app_nil_r.
  - bind_inv H as st1 Hstep. apply step_mirrors in Hstep as (cur & Hpl & Hm).
    destruct (IH st1 H) as (new & Hpl' & Hall).
    exists (cur :: new). rewrite Hpl', Hpl, <- app_assoc. split; [done|].
    by constructor.
Qed.

End Mirror.

Lemma claim_keeps_offset (pl0 : list Pc.t) acc node acc' :
  claim acc node = Ok acc' ->
  (forall i e, acc.2 !! i = Some e -> Pc.jump_revert e = false ->
               Pc.offset <$> pl0 !! i = Some (Pc.offset e)) ->
  forall i e, acc'.2 !! i = Some e -> Pc.jump_revert e = false ->
              Pc.offset <$> pl0 !! i = Some (Pc.offset e).
Proof.
  destruct acc as [values pl]. unfold claim. simpl. intros H Hinv.
  destruct (has_offset pl (fc_offset node)); [by injection H as <-|].
  destruct values as [|i values]; [done|].
  bind_inv H as e He. apply of_option_ok in He. injection H as <-. simpl.
  intros k e' Hk Hj. destruct (decide (i = k)) as [<-|Hne].
  - rewrite list_lookup_insert_eq in Hk by (by eapply lookup_lt_Some).
    injection Hk as <-. done.
  - rewrite list_lookup_insert_ne in Hk by done. by apply Hinv.
Qed.

Lemma reconcile_reverts_keeps_offset sources rm pl rm' pl' :
  reconcile_reverts sources rm pl = Ok (rm', pl') ->
  forall i e, pl' !! i = Some e -> Pc.jump_revert e = false ->
              Pc.offset <$> pl !! i = Some (Pc.offset e).
Proof.
  unfold reconcile_reverts. intros H.
  refine (fold_result_preserves
            (fun acc : list (string * string * list nat) * list Pc.t =>
               forall i e, acc.2 !! i = Some e -> Pc.jump_revert e = false ->
                           Pc.offset <$> pl !! i = Some (Pc.offset e)) _ _ _ _ _ H _).
  - intros acc [[path fn_name] values] acc' Hstep HP.
    bind_inv Hstep as [values' pl1] Hfun. injection Hstep as <-. simpl.
    unfold reconcile_function in Hfun.
    bind_inv Hfun as unit Hunit. bind_inv Hfun as fn_node Hnode.
    refine (fold_result_preserves
              (fun a : list nat * list Pc.t =>
                 forall i e, a.2 !! i = Some e -> Pc.jump_revert e = false ->
                             Pc.offset <$> pl !! i = Some (Pc.offset e))
              _ _ _ _ _ Hfun _); [|done].
    intros a node a'. apply claim_keeps_offset.
  - simpl. intros i e Hi _. by rewrite Hi.
Qed.

(** X3: The jump code, path and offset of a record are those of its source
    map entry: the jump code unless it is ["-"], the path of the source
    unit unless the id is -1, the offset (start, start + length) unless
    the id or the start is -1.  Only a record marked ['jump_revert'] has
    another offset. *)
Theorem records_mirror_entries is_inside_offset source_map ops contract_node
    statement_nodes0 branch_nodes0 pcm smap bmap :
  ops ≠ EmptyString ->
  generate_coverage_data is_inside_offset source_map ops contract_node
    statement_nodes0 branch_nodes0 = Ok (pcm, smap, bmap) ->
  exists pl rows,
    pcm = dict_of ((fun e => (Pc.pc e, e)) <$> pl)
    /\ expand_source_map source_map = Ok rows
    /\ length pl = length rows
    /\ forall i e,
         pl !! i = Some e ->
         exists r, rows !! i = Some (Some r)
                   /\ Pc.jump e = entry_jump r
                   /\ Pc.path e = entry_path (source_nodes_of contract_node) r
                   /\ (Pc.jump_revert e = false -> Pc.offset e = entry_offset r).
Proof.
  intros Hops H.
  apply generate_inv in H
    as (sources & paths & bo & st & rm & pl & pl' & cnt' & Hc & Hr & Hf & -> & _);
    [|done].
  pose proof (reconcile_reverts_keeps_core _ _ _ _ _ Hr) as Hcore1.
  pose proof (finalize_branches_keeps_core _ _ _ _ _ _ _ _ Hf) as Hcore2.
  rewrite Hcore1 in Hcore2. symmetry in Hcore2.
  apply finalize_branches_keeps_marks in Hf.
  apply correlate_walk in Hc
    as (rows & nodes & orig & Hrows & -> & _ & _ & _ & _ & Hwalk).
  apply walk_mirrors in Hwalk as (new & Hpl & Hall). simpl in Hpl. subst new.
  exists pl', rows. split; [done|]. split; [done|]. split.
  { apply Forall2_length in Hall. rewrite <- Hall.
    apply (f_equal length) in Hcore2. by rewrite !length_fmap in Hcore2. }
  intros i e' He'.
  destruct (core_lookup _ _ _ _ Hcore2 He') as (e0 & He0 & Heq).
  destruct (Forall2_lookup_l _ _ _ _ _ Hall He0) as (source & Hsrc & r & -> & Hj & Hp & Ho).
  exists r. split; [done|]. injection Heq as _ _ _ Hj' _ Hp' _ _.
  split; [congruence|]. split; [congruence|]. intros Hjr.
  assert (exists e1, pl !! i = Some e1 /\ Pc.offset e1 = Pc.offset e'
                     /\ Pc.jump_revert e1 = false) as (e1 & He1 & Hoff & Hj1).
  { assert (((fun e => (Pc.offset e, Pc.jump_revert e)) <$> pl) !! i
            = Some (Pc.offset e', Pc.jump_revert e')) as Hi.
    { rewrite <- Hf, list_lookup_fmap, He'. done. }
    rewrite list_lookup_fmap in Hi. destruct (pl !! i) as [e1|]; [|done].
    simpl in Hi. exists e1. split; [done|]. split; congruence. }
  pose proof (reconcile_reverts_keeps_offset _ _ _ _ _ Hr i e1 He1 Hj1) as Hkeep.
  rewrite He0 in Hkeep. simpl in Hkeep. congruence.
Qed.

Lemma records_mirror_entries_witness :
  exists pl rows,
    Output.revert_run.1.1 = dict_of ((fun e => (Pc.pc e, e)) <$> pl)
    /\ expand_source_map Sample.revert_map_9 = Ok rows
    /\ length pl = length rows
    /\ forall i e,
         pl !! i = Some e ->
         exists r, rows !! i = Some (Some r)
                   /\ Pc.jump e = entry_jump r
                   /\ Pc.path e
                      = entry_path
                          (source_nodes_of
                             (Sample.contract_with [Sample.revert_at (50, 58)])) r
                   /\ (Pc.jump_revert e = false -> Pc.offset e = entry_offset r).
Proof.
  apply (records_mirror_entries contains Sample.revert_map_9
           Sample.revert_opcodes (Sample.contract_with [Sample.revert_at (50, 58)])
           Output.revert_statements Output.revert_branches
           _ Output.revert_run.1.2 Output.revert_run.2).
  - discriminate.
  - vm_compute. reflexivity.
Defined.

(** ** Position of an operand among the boolean operations *)

Module AstMore.
Import Ast.

Lemma find_filter {A} (P g : A -> bool) (l : list A) :
  find P (List.filter g l) = find (fun x => g x && P x) l.
Proof.
  induction l as [|x l IH]; simpl; [done|].
  destruct (g x); simpl; [|done]. by rewrite IH.
Qed.

Lemma find_first {A} (P : A -> bool) (l : list A) (x : A) :
  find P l = Some x ->
  exists i, l !! i = Some x /\ P x = true
            /\ forall j y, (j < i)%nat -> l !! j = Some y -> P y = false.
Proof.
  induction l as [|z l IH]; simpl; [done|].
  destruct (P z) eqn:Hz.
  - intros [= <-]. exists 0%nat. split; [done|]. split; [done|]. intros; lia.
  - intros H. destruct (IH H) as (i & Hi & Hx & Hbefore).
    exists (S i). split; [done|]. split; [done|].
    intros [|j] y Hj Hy; simpl in Hy; [congruence|]. apply (Hbefore j); [lia|done].
Qed.

Lemma find_none {A} (P : A -> bool) (l : list A) :
  find P l = None <-> forall x, x ∈ l -> P x = false.
Proof.
  induction l as [|z l IH]; simpl.
  - split; [|done]. intros _ x Hx. by apply elem_of_nil in Hx.
  - destruct (P z) eqn:Hz.
    + split; [done|]. intros H. rewrite H in Hz by left. done.
    + rewrite IH. split.
      * intros H x Hx. apply elem_of_cons in Hx as [->|Hx]; auto.
      * intros H x Hx. apply H. by right.
Qed.

(** The operand at [p] is in the left subtree of its ancestor at depth
    [k] when the step it takes below this ancestor is to child 0. *)
Lemma on_left_of_ancestor (p : ref) (k : nat) :
  (k < length p)%nat ->
  on_left_of p (take k p) = bool_decide (p !! k = Some 0%nat).
Proof.
  intros Hk. destruct (lookup_lt_is_Some_2 p k Hk) as [c Hc].
  pose proof (take_S_r p k c Hc) as Htake.
  unfold on_left_of, left, is_child_of.
  rewrite length_app, length_take. simpl.
  replace (k `min` length p + 1)%nat with (S k) by lia.
  rewrite Htake, Hc.
  destruct (decide (c = 0%nat)) as [->|Hne].
  - rewrite (bool_decide_eq_true_2 (Some 0%nat = Some 0%nat)) by done.
    destruct (decide (length p = S k)) as [Hl|Hl].
    + rewrite bool_decide_eq_true_2; [done|].
      rewrite <- Htake. apply take_ge. lia.
    + rewrite (bool_decide_eq_true_2 (S k < length p)%nat) by lia.
      rewrite (bool_decide_eq_true_2 (take k p ++ [0%nat] = take k p ++ [0%nat])) by done.
      by rewrite orb_true_r.
  - rewrite (bool_decide_eq_false_2 (Some c = Some 0%nat)) by congruence.
    rewrite (bool_decide_eq_false_2 (take k p ++ [c] = take k p ++ [0%nat])).
    2:{ intros H. apply app_inv_head in H. congruence. }
    rewrite andb_false_r, orb_false_r. apply bool_decide_eq_false_2.
    intros H. apply (f_equal (take (S k))) in H.
    rewrite Htake in H.
    rewrite take_ge in H by (rewrite length_app, length_take; simpl; lia).
    apply app_inv_head in H. congruence.
Qed.

Section Operand.

Variable root : node.

Lemma parents_find (p : ref) (depth : nat) :
  find (on_left_of p) (parents root p depth bool_operation)
  = find (fun q => boolean_at root q && on_left_of p q)
      ((fun k => take k p) <$> reverse (seq depth (length p - depth))).
Proof. unfold parents. by rewrite find_filter. Qed.

Lemma ancestors_lookup (p : ref) (depth i : nat) (q : ref) :
  ((fun k => take k p) <$> reverse (seq depth (length p - depth))) !! i = Some q ->
  exists k, q = take k p /\ (depth <= k < length p)%nat
            /\ i = (length p - 1 - k)%nat.
Proof.
  rewrite list_lookup_fmap. intros H.
  destruct (reverse (seq depth (length p - depth)) !! i) as [k|] eqn:Hk; [|done].
  injection H as <-. exists k. split; [done|].
  pose proof (lookup_lt_Some _ _ _ Hk) as Hi. rewrite length_reverse, length_seq in Hi.
  rewrite reverse_lookup in Hk by (by rewrite length_seq).
  rewrite length_seq in Hk. apply lookup_seq in Hk as [-> Hlt]. lia.
Qed.

Lemma ancestors_elem (p : ref) (depth k : nat) :
  (depth <= k < length p)%nat ->
  take k p ∈ (fun k => take k p) <$> reverse (seq depth (length p - depth)).
Proof.
  intros Hk. apply list_elem_of_fmap. exists k. split; [done|].
  apply elem_of_reverse, elem_of_seq. lia.
Qed.

(** What the search of both functions finds: nothing exactly when no
    boolean operation above the operand has it on its left, and else the
    nearest one that has. *)
Lemma left_ancestor_none (p : ref) (depth : nat) :
  find (on_left_of p) (parents root p depth bool_operation) = None
  <-> forall k, (depth <= k < length p)%nat ->
                boolean_at root (take k p) = true -> p !! k ≠ Some 0%nat.
Proof.
  rewrite parents_find, find_none. split.
  - intros H k Hk Hb Hleft. specialize (H (take k p) (ancestors_elem p depth k Hk)).
    rewrite Hb, on_left_of_ancestor in H by lia. simpl in H.
    by apply bool_decide_eq_false_1 in H.
  - intros H q Hq. apply list_elem_of_lookup_1 in Hq as [i Hi].
    apply ancestors_lookup in Hi as (k & -> & Hk & _).
    destruct (boolean_at root (take k p)) eqn:Hb; [|done]. simpl.
    rewrite on_left_of_ancestor by lia. apply bool_decide_eq_false_2.
    by apply H.
Qed.

Lemma left_ancestor_some (p : ref) (depth : nat) (q : ref) :
  find (on_left_of p) (parents root p depth bool_operation) = Some q ->
  exists k,
    q = take k p /\ (depth <= k < length p)%nat
    /\ boolean_at root (take k p) = true /\ p !! k = Some 0%nat
    /\ forall k', (k < k' < length p)%nat ->
                  boolean_at root (take k' p) = true -> p !! k' ≠ Some 0%nat.
Proof.
  rewrite parents_find. intros Hfind.
  apply find_first in Hfind as (i & Hi & Hq & Hbefore).
  apply ancestors_lookup in Hi as (k & -> & Hk & ->).
  apply andb_true_iff in Hq as [Hb Hleft].
  rewrite on_left_of_ancestor in Hleft by lia.
  apply bool_decide_eq_true_1 in Hleft.
  exists k. repeat (split; [done|]).
  intros k' Hk' Hb' Hleft'.
  assert (((fun k => take k p) <$> reverse (seq depth (length p - depth)))
            !! (length p - 1 - k')%nat = Some (take k' p)) as Hlook.
  { rewrite list_lookup_fmap, reverse_lookup by (rewrite length_seq; lia).
    rewrite length_seq. rewrite lookup_seq_lt by lia. simpl. f_equal. f_equal. lia. }
  specialize (Hbefore (length p - 1 - k')%nat (take k' p) ltac:(lia) Hlook).
  rewrite Hb', on_left_of_ancestor in Hbefore by lia. simpl in Hbefore.
  by apply bool_decide_eq_false_1 in Hbefore.
Qed.



End Operand.

End AstMore.

(** ** Branches of a single operation *)

Module AstRuns.
Import Ast AstFacts AstMore.




Section Operation.

Variables (root : node) (cond : ref) (depth : nat) (jump : bool).
Variables (operator : string) (op_off : Offset) (a b : node).
Hypothesis Hcond :
  node_at root cond = Some (boolean_operation operator op_off a b).
Hypothesis Hop : operator = "||" \/ operator = "&&".
Hypothesis Ha : plain a.
Hypothesis Hb : plain b.
(** No boolean operation stands between the base node and the operation. *)
Hypothesis Hdepth : (depth <= length cond)%nat.
Hypothesis Habove :
  forall k, (depth <= k < length cond)%nat -> boolean_at root (take k cond) = false.

Lemma operation_matches :
  check_filters filters (boolean_operation operator op_off a b) = true.
Proof. destruct Hop as [-> | ->]; reflexivity. Qed.

Lemma operation_boolean : boolean_at root cond = true.
Proof. unfold boolean_at. rewrite Hcond. reflexivity. Qed.

Lemma operand_at (i : nat) (n : node) :
  [a; b] !! i = Some n -> node_at root (cond ++ [i]) = Some n.
Proof. intros Hi. rewrite node_at_app, Hcond. simpl. by rewrite Hi. Qed.

Lemma operation_children : children root cond filters = [cond].
Proof.
  unfold children. rewrite Hcond.
  change (descendants (boolean_operation operator op_off a b)) with
    (([], boolean_operation operator op_off a b)
       :: ((fun d => (0%nat :: d.1, d.2)) <$> descendants a)
       ++ ((fun d => (1%nat :: d.1, d.2)) <$> descendants b) ++ []).
  rewrite filter_cons_True by (cbn [snd]; rewrite operation_matches; done).
  rewrite !filter_app, !filter_plain_shift by done.
  simpl. by rewrite app_nil_r.
Qed.

Lemma operand_above (i k : nat) :
  (depth <= k < length (cond ++ [i]))%nat ->
  boolean_at root (take k (cond ++ [i])) = bool_decide (k = length cond).
Proof.
  rewrite length_app. simpl. intros Hk.
  destruct (decide (k = length cond)) as [->|Hne].
  - rewrite take_app_length, operation_boolean. by rewrite bool_decide_eq_true_2.
  - rewrite take_app_le by lia. rewrite Habove by lia.
    by rewrite bool_decide_eq_false_2.
Qed.

Lemma left_operand_branch :
  branch_of root jump depth (cond ++ [0%nat])
  = Ok [(cond ++ [0%nat], bool_decide (operator = "||"))].
Proof.
  unfold branch_of, _is_rightmost_operation, _check_left_operator.
  rewrite (children_plain _ _ _ (operand_at 0 a eq_refl) Ha).
  rewrite bool_decide_eq_true_2 by done.
  destruct (find _ _) as [q|] eqn:Hfind.
  - apply left_ancestor_some in Hfind as (k & -> & Hk & Hbk & Hleft & Hnear).
    simpl.
    rewrite operand_above in Hbk by done. apply bool_decide_eq_true_1 in Hbk as ->.
    rewrite take_app_length. unfold attr. rewrite Hcond. simpl.
    do 3 f_equal. apply bool_decide_ext. split; congruence.
  - exfalso. rewrite left_ancestor_none in Hfind.
    apply (Hfind (length cond)).
    + rewrite length_app. simpl. lia.
    + rewrite operand_above, bool_decide_eq_true_2; [done..|].
      rewrite length_app. simpl. lia.
    + by rewrite list_lookup_middle.
Qed.

Lemma right_operand_branch :
  branch_of root jump depth (cond ++ [1%nat]) = Ok [(cond ++ [1%nat], jump)].
Proof.
  unfold branch_of, _is_rightmost_operation.
  rewrite (children_plain _ _ _ (operand_at 1 b eq_refl) Hb).
  rewrite bool_decide_eq_true_2 by done.
  assert (find (on_left_of (cond ++ [1%nat]))
            (parents root (cond ++ [1%nat]) depth bool_operation) = None) as ->.
  { apply left_ancestor_none. intros k Hk Hbk.
    rewrite operand_above in Hbk by done. apply bool_decide_eq_true_1 in Hbk as ->.
    by rewrite list_lookup_middle. }
  done.
Qed.

Lemma operation_branches :
  mapM (branch_of root jump depth) (children root cond filters ≫= iter root)
  = Ok [[(cond ++ [0%nat], bool_decide (operator = "||"))];
        [(cond ++ [1%nat], jump)]].
Proof.
  rewrite operation_children.
  assert (Hit : [cond] ≫= iter root = [cond ++ [0%nat]; cond ++ [1%nat]]).
  { simpl. unfold iter. rewrite Hcond. reflexivity. }
  rewrite Hit, !mapM_cons, left_operand_branch. simpl.
  rewrite right_operand_branch. reflexivity.
Qed.

End Operation.

(** X18: For [if (a op b)] and for the conditional [(a op b) ? _ : _], with
    [op] one of [||] and [&&] and operands that hold no further [||] or
    [&&], branch extraction returns the two operands: [a] with [jump]
    set exactly when [op] is [||], and [b] with [jump = False]. *)
Theorem if_operation_branches root base attrs off rest operator op_off a b :
  node_at root base
  = Some (Node attrs off (boolean_operation operator op_off a b :: rest)) ->
  dict_get "node_type" attrs ≠ Some "FunctionCall" ->
  dict_get "node_type" attrs ≠ Some "BinaryOperation" ->
  operator = "||" \/ operator = "&&" ->
  plain a -> plain b ->
  _get_recursive_branches root base
  = Ok [(base ++ [0%nat; 0%nat], bool_decide (operator = "||"));
        (base ++ [0%nat; 1%nat], false)].
Proof.
  intros Hbase Hcall Hbin Hop Ha Hb.
  assert (Hcond : node_at root (base ++ [0%nat])
                  = Some (boolean_operation operator op_off a b)).
  { rewrite node_at_app, Hbase. reflexivity. }
  unfold _get_recursive_branches, attr. rewrite Hbase. simpl.
  rewrite bool_decide_eq_false_2 by done. unfold condition. rewrite Hcond. simpl.
  rewrite (operation_children root (base ++ [0%nat]) operator op_off a b) by done.
  rewrite bool_decide_eq_false_2 by done.
  rewrite <- (operation_children root (base ++ [0%nat]) operator op_off a b) by done.
  rewrite (operation_branches root (base ++ [0%nat]) (length base) false
             operator op_off a b); try done.
  - simpl. by rewrite <- !app_assoc.
  - rewrite length_app. simpl. lia.
  - rewrite length_app. simpl. intros k Hk. replace k with (length base) by lia.
    rewrite take_app_length. unfold boolean_at. rewrite Hbase.
    unfold check_filter, bool_operation. simpl.
    rewrite (bool_decide_eq_false_2 _ Hbin). done.
Qed.

(** X19: For [require(a && b)], with operands that hold no further [||] or
    [&&], branch extraction returns the two operands: [a] with
    [jump = False], [b] with [jump = True]. *)
Theorem require_and_branches root base attrs off callee op_off a b :
  node_at root base
  = Some (Node attrs off [callee; boolean_operation "&&" op_off a b]) ->
  dict_get "node_type" attrs = Some "FunctionCall" ->
  plain callee -> plain a -> plain b ->
  _get_recursive_branches root base
  = Ok [(base ++ [1%nat; 0%nat], false); (base ++ [1%nat; 1%nat], true)].
Proof.
  intros Hbase Hcall Hcallee Ha Hb.
  assert (Hcond : node_at root (base ++ [1%nat])
                  = Some (boolean_operation "&&" op_off a b)).
  { rewrite node_at_app, Hbase. reflexivity. }
  assert (Hall : children root base filters = [base ++ [1%nat]]).
  { unfold children. rewrite Hbase.
    change (descendants (Node attrs off [callee; boolean_operation "&&" op_off a b]))
      with
      (([], Node attrs off [callee; boolean_operation "&&" op_off a b])
         :: ((fun d => (0%nat :: d.1, d.2)) <$> descendants callee)
         ++ (([1%nat], boolean_operation "&&" op_off a b) ::
               ((fun d => (1%nat :: d.1, d.2)) <$>
                  (((fun d => (0%nat :: d.1, d.2)) <$> descendants a)
                     ++ ((fun d => (1%nat :: d.1, d.2)) <$> descendants b) ++ [])))
         ++ []).
    rewrite filter_cons_False.
    2:{ cbn [snd]. unfold check_filters, check_filter, filters. simpl.
        rewrite Hcall. simpl. auto. }
    rewrite !filter_app, filter_plain_shift by done.
    rewrite filter_cons_True by (simpl; reflexivity).
    rewrite (filter_none (fun d => check_filters filters d.2)).
    2:{ apply Forall_fmap, Forall_app. split.
        - apply Forall_fmap. exact Ha.
        - rewrite app_nil_r. apply Forall_fmap. exact Hb. }
    reflexivity. }
  unfold _get_recursive_branches, attr. rewrite Hbase. simpl.
  rewrite Hcall. rewrite bool_decide_eq_true_2 by done. simpl.
  rewrite Hall. rewrite bool_decide_eq_false_2 by done.
  rewrite <- (operation_children root (base ++ [1%nat]) "&&" op_off a b)
    by (done || by right).
  rewrite (operation_branches root (base ++ [1%nat]) (length base) true
             "&&" op_off a b); try done.
  - simpl. by rewrite <- !app_assoc.
  - by right.
  - rewrite length_app. simpl. lia.
  - rewrite length_app. simpl. intros k Hk. replace k with (length base) by lia.
    rewrite take_app_length. unfold boolean_at. rewrite Hbase.
    unfold check_filter, bool_operation. simpl. rewrite Hcall. done.
Qed.

Lemma if_operation_branches_witness :
  _get_recursive_branches Trees.function_g [0; 0]%nat
  = Ok [([0; 0; 0; 0]%nat, false); ([0; 0; 0; 1]%nat, false)].
Proof.
  apply (if_operation_branches Trees.function_g [0; 0]%nat
           [("node_type", "IfStatement")] (40, 60)
           [Node [("node_type", "Block")] (52, 60) []] "&&" (44, 50)
           (Sample.identifier "a" (44, 45)) (Sample.identifier "b" (49, 50))).
  - reflexivity.
  - discriminate.
  - discriminate.
  - by right.
  - repeat constructor.
  - repeat constructor.
Defined.

Lemma require_and_branches_witness :
  _get_recursive_branches Trees.function_h [0; 0; 0]%nat
  = Ok [([0; 0; 0; 1; 0]%nat, false); ([0; 0; 0; 1; 1]%nat, true)].
Proof.
  apply (require_and_branches Trees.function_h [0; 0; 0]%nat
           [("node_type", "FunctionCall"); ("name", "require")] (40, 55)
           (Sample.identifier "require" (40, 47)) (48, 54)
           (Sample.identifier "a" (48, 49)) (Sample.identifier "b" (53, 54))).
  - reflexivity.
  - reflexivity.
  - repeat constructor.
  - repeat constructor.
  - repeat constructor.
Defined.

End AstRuns.

(** ** How the decoder fails *)

Lemma mapM_err {A B} (f : A -> result B) (l : list A) (e : exn) :
  mapM f l = Err e -> exists x, x ∈ l /\ f x = Err e.
Proof.
  induction l as [|x l IH]; [done|]. rewrite mapM_cons.
  destruct (f x) as [y|e'] eqn:Hx; simpl.
  - destruct (mapM f l) as [l'|e'] eqn:Hl; simpl; [done|].
    intros [= ->]. destruct (IH eq_refl) as (z & Hz & Hfz).
    exists z. split; [by right | done].
  - intros [= ->]. exists x. split; [left | done].
Qed.

Lemma int_err (s : string) (e : exn) : Str.int s = Err e -> e = ValueError.
Proof.
  unfold Str.int. generalize (match Str.rstrip (Str.lstrip s) with
                              | String "-" s' => Z.opp <$> Str.unsigned s'
                              | String "+" s' => Str.unsigned s'
                              | s' => Str.unsigned s'
                              end).
  intros [z|]; simpl; congruence.
Qed.

Lemma _expand_row_err (entry : string) (e : exn) :
  _expand_row entry = Err e ->
  e = ValueError
  /\ exists field, field ∈ take 3 (Str.split ":" entry) /\ field ≠ EmptyString
                   /\ Str.int field = Err ValueError.
Proof.
  unfold _expand_row. intros H.
  destruct (mapM _ (take 3 (Str.split ":" entry))) as [ints|e'] eqn:Hm;
    simpl in H; [done|].
  injection H as ->. apply mapM_err in Hm as (field & Hin & Hf).
  case_bool_decide as Hempty; [done|].
  destruct (Str.int field) as [z|e'] eqn:Hint; [done|].
  simpl in Hf. injection Hf as ->. pose proof (int_err _ _ Hint) as ->.
  split; [done|]. by exists field.
Qed.

Lemma inherit_from_row (p cur : row) (x : nat) :
  (4 <= length p)%nat -> (x < 4)%nat -> (x < length cur)%nat ->
  exists r, inherit (Some p) cur x = Ok r /\ length r = length cur.
Proof.
  intros Hp Hx Hlen. unfold inherit.
  destruct (lookup_lt_is_Some_2 cur x Hlen) as [v ->].
  destruct (lookup_lt_is_Some_2 p x ltac:(lia)) as [w ->].
  destruct v; simpl; eexists; (split; [done|]); by rewrite ?length_insert.
Qed.

Lemma expand_entry_from_row (p : row) (cur : option row) :
  (4 <= length p)%nat ->
  cur = None \/ (exists r, cur = Some r /\ (4 <= length r)%nat) ->
  exists p', expand_entry (Some p) cur = Ok (Some p') /\ (4 <= length p')%nat.
Proof.
  intros Hp [->|(r & -> & Hr)]; [by exists p|].
  destruct r as [|f r]; [simpl in Hr; lia|]. unfold expand_entry.
  destruct (inherit_from_row p (f :: r) 0 Hp) as (r0 & -> & L0); [lia..|]. simpl.
  destruct (inherit_from_row p r0 1 Hp) as (r1 & -> & L1); [lia..|]. simpl.
  destruct (inherit_from_row p r1 2 Hp) as (r2 & -> & L2); [lia..|]. simpl.
  destruct (inherit_from_row p r2 3 Hp) as (r3 & -> & L3); [lia..|]. simpl.
  exists r3. split; [done|]. lia.
Qed.

Lemma expand_from_row (p : row) (rest : list (option row)) :
  (4 <= length p)%nat ->
  Forall (fun cur => cur = None \/ exists r, cur = Some r /\ (4 <= length r)%nat) rest ->
  exists tl, expand_from (Some p) rest = Ok tl.
Proof.
  intros Hp Hrest. revert p Hp.
  induction Hrest as [|cur rest Hcur _ IH]; intros p Hp; [by exists []|].
  destruct (expand_entry_from_row p cur Hp Hcur) as (p' & Hp' & Hlen).
  destruct (IH p' Hlen) as [tl Htl].
  exists (Some p' :: tl). simpl. rewrite Hp'. simpl. by rewrite Htl.
Qed.

Lemma inherit_from_none (cur : row) (x : nat) :
  (x < length cur)%nat ->
  inherit None cur x = Ok cur \/ inherit None cur x = Err TypeError.
Proof.
  intros Hlen. unfold inherit.
  destruct (lookup_lt_is_Some_2 cur x Hlen) as [v ->]. destruct v; auto.
Qed.

Lemma expand_entry_from_none (cur : option row) :
  cur = None \/ (exists r, cur = Some r /\ (4 <= length r)%nat) ->
  expand_entry None cur = Ok cur \/ expand_entry None cur = Err TypeError.
Proof.
  intros [->|(r & -> & Hr)]; [by left|].
  destruct r as [|f r]; [simpl in Hr; lia|]. unfold expand_entry.
  destruct (inherit_from_none (f :: r) 0) as [-> | ->]; [lia| |by right]. simpl.
  destruct (inherit_from_none (f :: r) 1) as [-> | ->]; [lia| |by right]. simpl.
  destruct (inherit_from_none (f :: r) 2) as [-> | ->]; [lia| |by right]. simpl.
  destruct (inherit_from_none (f :: r) 3) as [-> | ->]; [lia| |by right]. simpl.
  by left.
Qed.

Lemma expand_from_err (prev : option row) (rest : list (option row)) (e : exn) :
  prev = None \/ (exists p, prev = Some p /\ (4 <= length p)%nat) ->
  Forall (fun cur => cur = None \/ exists r, cur = Some r /\ (4 <= length r)%nat) rest ->
  expand_from prev rest = Err e -> e = TypeError /\ prev = None.
Proof.
  intros Hprev Hrest. revert prev Hprev.
  induction Hrest as [|cur rest Hcur Hrest IH]; intros prev Hprev H; [done|].
  destruct Hprev as [->|(p & -> & Hp)].
  - simpl in H. destruct (expand_entry_from_none cur Hcur) as [Hc|Hc];
      rewrite Hc in H; simpl in H; [|by injection H as <-].
    destruct (expand_from cur rest) as [tl|e'] eqn:Hfrom; simpl in H; [done|].
    injection H as ->. apply IH in Hfrom as [-> _]; [done|].
    destruct Hcur as [->|Hcur]; [by left | by right].
  - destruct (expand_from_row p (cur :: rest) Hp) as [tl Htl]; [by constructor|].
    congruence.
Qed.

(** X12: The decoder fails in two ways only: with [ValueError], when a start,
    length or source-unit field of some entry is not empty and not an
    integer literal; and with [TypeError], when the leading entry is
    empty and a later one has to inherit from it. *)
Theorem expand_source_map_errors (source_map : string) (e : exn) :
  expand_source_map source_map = Err e ->
  (e = ValueError
   /\ exists entry field,
        entry ∈ Str.split ";" source_map
        /\ field ∈ take 3 (Str.split ":" entry) /\ field ≠ EmptyString
        /\ Str.int field = Err ValueError)
  \/ (e = TypeError /\ head (Str.split ";" source_map) = Some EmptyString).
Proof.
  unfold expand_source_map. intros H.
  destruct (mapM _ (Str.split ";" source_map)) as [rows|e'] eqn:Hm; simpl in H.
  - right.
    assert (Hrows : Forall (fun cur => cur = None
                      \/ exists r, cur = Some r /\ (4 <= length r)%nat) rows).
    { apply Forall_lookup. intros i cur Hi.
      destruct (lookup_lt_is_Some_2 (Str.split ";" source_map) i) as [entry He].
      { rewrite <- (mapM_length _ _ _ Hm). by eapply lookup_lt_Some. }
      destruct (mapM_lookup _ _ _ _ _ Hm He) as (y & Hy & Hfy).
      assert (y = cur) as -> by congruence. simpl in Hfy.
      case_bool_decide; [injection Hfy as <-; by left|].
      apply fmap_ok in Hfy as (r & Hr & ->). right. exists r. split; [done|].
      by eapply _expand_row_length. }
    destruct rows as [|r0 rest]; [done|].
    destruct (expand_from r0 rest) as [tl|e'] eqn:Hfrom; simpl in H; [done|].
    injection H as ->. apply Forall_cons in Hrows as [H0 Hrest].
    apply expand_from_err in Hfrom as [-> ->]; [|by destruct H0; [left|right]|done].
    split; [done|].
    destruct (Str.split ";" source_map) as [|entry entries]; [done|].
    rewrite mapM_cons in Hm. simpl. f_equal.
    case_bool_decide as Hempty; [done|].
    destruct (_expand_row entry); simpl in Hm; [|done].
    by destruct (mapM _ entries).
  - left. injection H as ->. apply mapM_err in Hm as (entry & Hin & Hf).
    case_bool_decide as Hempty; [done|].
    destruct (_expand_row entry) as [r|e'] eqn:Hr; [done|].
    simpl in Hf. injection Hf as ->.
    apply _expand_row_err in Hr as (-> & field & Hfield).
    split; [done|]. by exists entry, field.
Qed.

Lemma expand_source_map_errors_witness :
  (TypeError = ValueError
   /\ exists entry field,
        entry ∈ Str.split ";" ";0:5"
        /\ field ∈ take 3 (Str.split ":" entry) /\ field ≠ EmptyString
        /\ Str.int field = Err ValueError)
  \/ (TypeError = TypeError /\ head (Str.split ";" ";0:5") = Some EmptyString).
Proof. apply (expand_source_map_errors ";0:5" TypeError). reflexivity. Defined.

Lemma expand_source_map_total_witness :
  exists l, expand_source_map "0:10:0:-;10:5:0:i;;15::1" = Ok l /\ Forall complete l.
Proof.
  apply (expand_source_map_total "0:10:0:-;10:5:0:i;;15::1").
  - change (Str.split ";" "0:10:0:-;10:5:0:i;;15::1")
      with ["0:10:0:-"; "10:5:0:i"; ""; "15::1"]%string.
    apply Forall_cons; split; [right; eexists; reflexivity|].
    apply Forall_cons; split; [right; eexists; reflexivity|].
    apply Forall_cons; split; [by left|].
    apply Forall_cons; split; [right; eexists; reflexivity|].
    apply Forall_nil_2.
  - exists "0:10:0:-", [FInt 0; FInt 10; FInt 0; FStr "-"].
    split; [reflexivity|]. split; [discriminate|]. split; [reflexivity|].
    eexists. split; [reflexivity|].
    intros [|[|[|[|x]]]] Hx; try lia; eexists; (split; [reflexivity | discriminate]).
Defined.

Lemma expand_source_map_inherits_witness :
  exists p c,
    [Some [FInt 0; FInt 10; FInt 0; FStr "-"];
     Some [FInt 10; FInt 5; FInt 0; FStr "i"];
     Some [FInt 10; FInt 5; FInt 0; FStr "i"];
     Some [FInt 15; FInt 5; FInt 1; FStr "i"]] !! 2%nat = Some p
    /\ [Some [FInt 0; FInt 10; FInt 0; FStr "-"];
        Some [FInt 10; FInt 5; FInt 0; FStr "i"];
        Some [FInt 10; FInt 5; FInt 0; FStr "i"];
        Some [FInt 15; FInt 5; FInt 1; FStr "i"]] !! 3%nat = Some c
    /\ c ≫= (.!! 1%nat) = p ≫= (.!! 1%nat).
Proof.
  apply (expand_source_map_inherits "0:10:0:-;10:5:0:i;;15::1" _ 2 "15::1" 1).
  - reflexivity.
  - reflexivity.
  - lia.
  - right. right. split; [lia | reflexivity].
Defined.

(** ** Library placeholders in bytecode *)

Lemma string_length_append (s1 s2 : string) :
  String.length (String.append s1 s2) = (String.length s1 + String.length s2)%nat.
Proof. induction s1 as [|c s1 IH]; simpl; [done|]. by rewrite IH. Qed.

Lemma string_length_take (n : nat) (s : string) :
  String.length (Str.take n s) = (n `min` String.length s)%nat.
Proof.
  revert s. induction n as [|n IH]; intros [|c s]; simpl; try done.
  by rewrite IH.
Qed.

Lemma string_length_drop (n : nat) (s : string) :
  String.length (Str.drop n s) = (String.length s - n)%nat.
Proof.
  revert s. induction n as [|n IH]; intros [|c s]; simpl; auto.
Qed.

Lemma string_length_repeat (c : ascii) (n : nat) :
  String.length (repeat_char c n) = n.
Proof. induction n as [|n IH]; simpl; [done|]. by rewrite IH. Qed.

Lemma string_get_take (n i : nat) (s : string) :
  (i < n)%nat -> String.get i (Str.take n s) = String.get i s.
Proof.
  revert i s. induction n as [|n IH]; intros i [|c s] Hi; simpl; try done; [lia|].
  destruct i as [|i]; [done|]. apply IH. lia.
Qed.

Lemma string_get_drop (n i : nat) (s : string) :
  String.get i (Str.drop n s) = String.get (n + i) s.
Proof.
  revert s. induction n as [|n IH]; intros [|c s]; simpl; auto.
Qed.

Lemma placeholder_length (n : string) : String.length (placeholder n) = 40%nat.
Proof.
  unfold placeholder, pad36.
  rewrite !string_length_append, string_length_repeat, string_length_take.
  change (String.length "__") with 2%nat. lia.
Qed.

Lemma link_length (bytecode : string) (reference : string * Z) :
  in_range (String.length bytecode) reference ->
  String.length (link bytecode reference) = String.length bytecode.
Proof.
  destruct reference as [n loc]. unfold in_range, link, slice_to, slice_from.
  simpl. intros [H0 H40].
  rewrite (proj2 (Z.ltb_ge loc 0)), (proj2 (Z.ltb_ge (loc + 40) 0)) by lia.
  rewrite !string_length_append, placeholder_length, string_length_take,
    string_length_drop. lia.
Qed.

Lemma link_get (bytecode : string) (reference : string * Z) (i : nat) :
  in_range (String.length bytecode) reference ->
  String.get i (link bytecode reference)
  = if bool_decide (in_window i reference)
    then String.get (i - Z.to_nat reference.2) (placeholder reference.1)
    else String.get i bytecode.
Proof.
  destruct reference as [n loc]. unfold in_range, in_window, link, slice_to, slice_from.
  simpl. intros [H0 H40].
  rewrite (proj2 (Z.ltb_ge loc 0)), (proj2 (Z.ltb_ge (loc + 40) 0)) by lia.
  assert (Hlen : String.length (Str.take (Z.to_nat loc) bytecode) = Z.to_nat loc).
  { rewrite string_length_take. lia. }
  destruct (decide (Z.of_nat i < loc)) as [Hlt|Hge].
  - rewrite bool_decide_eq_false_2 by lia.
    rewrite <- String.append_correct1 by lia. apply string_get_take. lia.
  - replace i with ((i - Z.to_nat loc) + String.length (Str.take (Z.to_nat loc) bytecode))%nat
      at 1 by lia.
    rewrite <- String.append_correct2.
    destruct (decide (Z.of_nat i < loc + 40)) as [Hin|Hout].
    + rewrite bool_decide_eq_true_2 by lia.
      rewrite <- String.append_correct1; [done|]. rewrite placeholder_length. lia.
    + rewrite bool_decide_eq_false_2 by lia.
      replace (i - Z.to_nat loc)%nat
        with ((i - Z.to_nat loc - 40) + String.length (placeholder n))%nat
        by (rewrite placeholder_length; lia).
      rewrite <- String.append_correct2, string_get_drop. f_equal. lia.
Qed.

Lemma format_links_fold (references : list (string * Z)) (bytecode : string) :
  Forall (in_range (String.length bytecode)) references ->
  String.length (foldl link bytecode references) = String.length bytecode
  /\ (forall i, Forall (fun r => ~ in_window i r) references ->
                String.get i (foldl link bytecode references)
                = String.get i bytecode)
  /\ forall k r i,
       references !! k = Some r -> in_window i r ->
       (forall k' r', (k < k')%nat -> references !! k' = Some r' -> ~ in_window i r') ->
       String.get i (foldl link bytecode references)
       = String.get (i - Z.to_nat r.2) (placeholder r.1).
Proof.
  revert bytecode. induction references as [|r0 refs IH]; intros bytecode Hall.
  { simpl. split; [done|]. split; [done|]. intros k r i Hk. done. }
  apply Forall_cons in Hall as [H0 Hall]. simpl.
  pose proof (link_length bytecode r0 H0) as Hlen.
  destruct (IH (link bytecode r0)) as (IH1 & IH2 & IH3); [by rewrite Hlen|].
  split; [by rewrite IH1|]. split.
  - intros i Hout. apply Forall_cons in Hout as [Hout0 Hout].
    rewrite IH2 by done. rewrite link_get by done.
    by rewrite bool_decide_eq_false_2.
  - intros [|k] r i Hk Hin Hlater; simpl in Hk.
    + injection Hk as <-. rewrite IH2.
      * rewrite link_get by done. by rewrite bool_decide_eq_true_2.
      * apply Forall_lookup. intros k' r' Hk'. apply (Hlater (S k')); [lia|done].
    + apply (IH3 k r i Hk Hin). intros k' r' Hlt Hk'.
      apply (Hlater (S k')); [lia|done].
Qed.

(** X20: When every reference has its 40 characters within the bytecode, the
    result has the length of the bytecode.  A character outside the
    windows of all references is unchanged, and a character within a
    window is that of the placeholder [__<name, 36 characters>__] of the
    last reference, in the order of the loop, whose window holds it. *)
Theorem format_link_references_windows (object : string)
    (linkReferences : list (string * list (string * list LinkReference))) :
  Forall (in_range (String.length object)) (link_positions linkReferences) ->
  let result := format_link_references object linkReferences in
  String.length result = String.length object
  /\ (forall i, Forall (fun r => ~ in_window i r) (link_positions linkReferences) ->
                String.get i result = String.get i object)
  /\ forall k r i,
       link_positions linkReferences !! k = Some r -> in_window i r ->
       (forall k' r', (k < k')%nat -> link_positions linkReferences !! k' = Some r' ->
                      ~ in_window i r') ->
       String.get i result = String.get (i - Z.to_nat r.2) (placeholder r.1).
Proof. intros Hall. by apply format_links_fold. Qed.

Lemma format_link_references_windows_witness :
  let result := format_link_references Links.unlinked Links.references in
  String.length result = String.length Links.unlinked
  /\ (forall i, Forall (fun r => ~ in_window i r) (link_positions Links.references) ->
                String.get i result = String.get i Links.unlinked)
  /\ forall k r i,
       link_positions Links.references !! k = Some r -> in_window i r ->
       (forall k' r', (k < k')%nat -> link_positions Links.references !! k' = Some r' ->
                      ~ in_window i r') ->
       String.get i result = String.get (i - Z.to_nat r.2) (placeholder r.1).
Proof.
  apply (format_link_references_windows Links.unlinked Links.references).
  apply Forall_cons. split; [|apply Forall_nil_2].
  split; simpl; lia.
Defined.

(** * Gas strategies *)

Module GasFacts.
Import Gas.

Lemma mapM_outcome_cons {A B} (f : A -> outcome B) (x : A) (l : list A) :
  mapM f (x :: l) = y ← f x; k ← mapM f l; Return (y :: k).
Proof. reflexivity. Qed.

Lemma mapM_int16_raise (data : list string) (e : error) :
  mapM int16 data = Raise e -> e = ValueError.
Proof.
  induction data as [|s data IH]; [done|]. rewrite mapM_outcome_cons.
  destruct (int16 s) as [z|e'] eqn:Hs; simpl.
  - destruct (mapM int16 data) as [l|e'']; simpl; [done|].
    intros [= ->]. by apply IH.
  - intros [= ->]. unfold int16 in Hs.
    destruct (match Str.rstrip (Str.lstrip s) with
              | String "-" s' => Z.opp <$> unsigned16 s'
              | String "+" s' => unsigned16 s'
              | s' => unsigned16 s'
              end); simpl in Hs; congruence.
Qed.

Lemma bind_return {A B} (m : outcome A) (k : A -> outcome B) (r : B) :
  m ≫= k = Return r -> exists a, m = Return a /\ k a = Return r.
Proof. destruct m as [a|e]; simpl; [eauto | discriminate]. Qed.

Lemma filter_all_out {A} (P : A -> Prop) `{forall x, Decision (P x)} (l : list A) :
  Forall (fun x => ~ P x) l -> filter P l = [].
Proof.
  induction 1 as [|x l Hx _ IH]; [done|].
  by rewrite filter_cons, decide_False.
Qed.

Lemma filter_all_in {A} (P : A -> Prop) `{forall x, Decision (P x)} (l : list A) :
  Forall P l -> filter P l = l.
Proof.
  induction 1 as [|x l Hx _ IH]; [done|].
  by rewrite filter_cons, decide_True, IH.
Qed.

#[local] Instance flip_le_trans : Transitive (flip Z.le).
Proof. intros x y z. unfold flip. lia. Qed.

#[local] Instance flip_le_total : Total (flip Z.le).
Proof. intros x y. unfold flip. lia. Qed.

Lemma sorted_reverse_Permutation (prices : list Z) :
  sorted_reverse prices ≡ₚ prices.
Proof. apply merge_sort_Permutation. Qed.

(** In a list in descending order, fewer than [k] elements are greater
    than the [k]-th and at least [k] are not smaller. *)
Lemma descending_rank (l : list Z) (i : nat) (p : Z) :
  StronglySorted (flip Z.le) l -> l !! i = Some p ->
  (length (filter (fun x : Z => (p < x)%Z) l) <= i)%nat
  /\ (i < length (filter (fun x : Z => (p <= x)%Z) l))%nat.
Proof.
  intros Hs Hi. rewrite <- (take_drop_middle l i p Hi) in Hs |- *.
  pose proof (lookup_lt_Some _ _ _ Hi) as Hlt.
  assert (Hbefore : Forall (fun x : Z => (p <= x)%Z) (take i l)).
  { apply Forall_forall. intros x Hx.
    apply (StronglySorted_app_1_elem_of _ _ _ x p Hs Hx). left. }
  apply StronglySorted_app_1_r, StronglySorted_inv in Hs as [_ Hafter].
  rewrite !filter_app, !filter_cons, !length_app.
  rewrite decide_False by lia. rewrite decide_True by lia. split.
  - rewrite (filter_all_out (fun x : Z => (p < x)%Z) (drop (S i) l)).
    + pose proof (length_filter (fun x : Z => (p < x)%Z) (take i l)) as Hle.
      rewrite length_take in Hle. simpl. lia.
    + eapply Forall_impl; [exact Hafter|]. unfold flip. simpl. lia.
  - rewrite (filter_all_in (fun x : Z => (p <= x)%Z) (take i l)) by done.
    rewrite length_take. simpl. lia.
Qed.

Lemma list_slice_to_last {A} (position : Z) (l : list A) (x : A) :
  last (list_slice_to position l) = Some x ->
  exists k, (0 < k <= length l)%nat /\ l !! (k - 1)%nat = Some x
            /\ (0 < position -> k = (Z.to_nat position `min` length l)%nat).
Proof.
  unfold list_slice_to. intros H.
  assert (G : forall n, last (take n l) = Some x ->
            (0 < n `min` length l <= length l)%nat
            /\ l !! (n `min` length l - 1)%nat = Some x).
  { intros n Hn. rewrite last_lookup, length_take in Hn.
    assert (n `min` length l ≠ 0)%nat as Hne.
    { intros H0. rewrite H0 in Hn. simpl in Hn.
      destruct (take n l) eqn:Ht; [done|].
      apply (f_equal length) in Ht. rewrite length_take in Ht. simpl in Ht. lia. }
    split; [lia|]. rewrite lookup_take_lt in Hn by lia.
    rewrite <- Hn. f_equal. lia. }
  destruct (position <? 0) eqn:Hp.
  - apply G in H as [H1 H2]. eexists. split; [exact H1|]. split; [exact H2|].
    apply Z.ltb_lt in Hp. lia.
  - apply G in H as [H1 H2]. eexists. split; [exact H1|]. split; [exact H2|]. done.
Qed.

(** X22: The price returned is one of the pending prices, the
    [position]-th highest: fewer than [position] pending prices are
    higher.  With fewer than [position] pending transactions it is the
    lowest price. *)
Theorem mempool_price_selects (position : Z) (data : list string) (p : Z) :
  0 < position ->
  mempool_price position (Pending data) = Return p ->
  exists prices,
    mapM int16 data = Return prices /\ p ∈ prices
    /\ let k := (Z.to_nat position `min` length prices)%nat in
       (length (filter (fun x : Z => (p < x)%Z) prices) < k)%nat
       /\ (k <= length (filter (fun x : Z => (p <= x)%Z) prices))%nat.
Proof.
  intros Hpos H. simpl in H. apply bind_return in H as (prices & Hm & H).
  exists prices. split; [done|].
  destruct (last (list_slice_to position (sorted_reverse prices))) as [x|] eqn:Hl;
    [|done].
  injection H as ->.
  apply list_slice_to_last in Hl as (k & Hk & Hi & Hpos').
  pose proof (sorted_reverse_Permutation prices) as Hperm.
  rewrite (Permutation_length Hperm) in Hk, Hpos'.
  split.
  { rewrite <- Hperm. by eapply list_elem_of_lookup_2. }
  simpl. rewrite <- Hpos' by done.
  destruct (descending_rank (sorted_reverse prices) (k - 1) p) as [H1 H2]; [|done|].
  { apply StronglySorted_merge_sort; apply _. }
  rewrite <- !Hperm. lia.
Qed.

Lemma mempool_price_selects_witness :
  exists prices,
    mapM int16 ["0x5"; "0x3"; "0xa"]%string = Return prices /\ 5 ∈ prices
    /\ let k := (Z.to_nat 2 `min` length prices)%nat in
       (length (filter (fun x : Z => (5 < x)%Z) prices) < k)%nat
       /\ (k <= length (filter (fun x : Z => (5 <= x)%Z) prices))%nat.
Proof.
  apply (mempool_price_selects 2 ["0x5"; "0x3"; "0xa"]%string 5).
  - lia.
  - reflexivity.
Defined.

(** X23: [mempool_price] ends in an [IndexError] exactly when all prices are
    hexadecimal literals and none is left to choose from: no transaction
    is pending, or [position] is 0, or it is negative and its absolute
    value is at least the number of pending transactions. *)
Theorem mempool_price_index_error (position : Z) (data : list string) :
  mempool_price position (Pending data) = Raise IndexError
  <-> exists prices,
        mapM int16 data = Return prices
        /\ (prices = [] \/ position = 0
            \/ position <= - Z.of_nat (length prices)).
Proof.
  simpl. split.
  - intros H. destruct (mapM int16 data) as [prices|e] eqn:Hm; simpl in H.
    + exists prices. split; [done|].
      destruct (last _) as [x|] eqn:Hl; [done|].
      apply last_None in Hl. apply (f_equal length) in Hl.
      unfold list_slice_to in Hl.
      rewrite <- (Permutation_length (sorted_reverse_Permutation prices)).
      destruct (sorted_reverse prices) as [|y l] eqn:Hs.
      { left. symmetry. apply Permutation_nil_l.
        by rewrite <- Hs, sorted_reverse_Permutation. }
      right.
      destruct (position <? 0) eqn:Hp; rewrite length_take in Hl; simpl in Hl.
      * apply Z.ltb_lt in Hp. right. simpl. lia.
      * apply Z.ltb_ge in Hp. left. lia.
    + injection H as ->. by apply mapM_int16_raise in Hm.
  - intros (prices & -> & Hnone). simpl.
    assert (list_slice_to position (sorted_reverse prices) = []) as ->; [|done].
    apply length_zero_iff_nil. unfold list_slice_to.
    pose proof (Permutation_length (sorted_reverse_Permutation prices)) as Hlen.
    destruct (position <? 0) eqn:Hp; rewrite length_take, Hlen.
    + apply Z.ltb_lt in Hp. destruct Hnone as [->|[->|Hle]]; simpl; lia.
    + apply Z.ltb_ge in Hp. destruct Hnone as [->|[->|Hle]]; simpl; lia.
Qed.

(** ** The GasNow cache *)

Section FetchFacts.

Variable stale : Z -> bool.
Variable responses : nat -> Response.

#[local] Abbreviation attempt' := (attempt responses).
#[local] Abbreviation failed' := (failed responses).

Lemma poll_spec (l : list nat) data sent slept :
  foldl attempt' (data, sent, slept) l
  = (match last (filter (fun i => ~ failed' i) l) with
     | Some i => Some (json_data (responses i))
     | None => data
     end,
     (sent + length l)%nat,
     (slept + length (filter failed' l))%nat).
Proof.
  revert data sent slept. induction l as [|i l IH]; intros data sent slept.
  { simpl. do 2 f_equal; lia. }
  cbn [foldl attempt]. rewrite !filter_cons.
  case_bool_decide as Hf.
  - rewrite IH, decide_False, decide_True by (unfold failed; tauto). simpl.
    do 2 f_equal; lia.
  - rewrite IH, decide_True, decide_False by (unfold failed; tauto).
    assert (Hlast : forall F : list nat,
              last (i :: F) = Some (default i (last F))).
    { intros [|j F]; [done|]. cbn [last]. by destruct (last (j :: F)) eqn:E;
        [|apply last_None in E]. }
    rewrite Hlast.
    destruct (last (filter (fun i0 => ~ failed' i0) l)); simpl; do 2 f_equal; lia.
Qed.

(** X24: With a fresh cache no request is sent and the cached value is
    returned.  With a stale one twelve requests are sent, whatever the
    answers, with a pause after each that fails, and the call ends in a
    [ValueError] exactly when all twelve fail. *)
Theorem fetch_gasnow_polls (key : string) (c : Cache) :
  let r := _fetch_gasnow stale responses key c in
  if stale (_gasnow_update c) then
    requests r = 12%nat
    /\ sleeps r = length (filter failed' (seq 0 12))
    /\ (value r = Raise ValueError <-> forall i, (i < 12)%nat -> failed' i)
  else
    requests r = 0%nat /\ sleeps r = 0%nat /\ cache r = c
    /\ value r = get KeyError (dict_get key (_gasnow_data c)).
Proof.
  unfold _fetch_gasnow. destruct (stale (_gasnow_update c)); [|done].
  rewrite poll_spec.
  destruct (last (filter (fun i => ~ failed' i) (seq 0 12))) as [i|] eqn:Hlast.
  - assert (Hi : (i < 12)%nat /\ ~ failed' i).
    { apply last_Some_elem_of, list_elem_of_filter in Hlast as [Hok Hin].
      apply elem_of_seq in Hin. split; [lia | done]. }
    assert (Hnot : ~ forall i, (i < 12)%nat -> failed' i).
    { intros Hall. destruct Hi as [Hlt Hok]. by apply Hok, Hall. }
    destruct (dict_get "timestamp" (json_data (responses i))) as [ts|]; cbn.
    + split; [done|]. split; [done|]. split; [|done].
      intros H. by destruct (dict_get key _).
    + split; [done|]. split; [done|]. split; [done | done].
  - cbn. split; [done|]. split; [done|]. split; [|done].
    intros _ i Hi. apply last_None in Hlast.
    destruct (decide (failed' i)) as [Hf|Hok]; [done|]. exfalso.
    assert (i ∈ filter (fun i => ~ failed' i) (seq 0 12)) as Hin.
    { apply list_elem_of_filter. split; [done|]. apply elem_of_seq. lia. }
    rewrite Hlast in Hin. by apply elem_of_nil in Hin.
Qed.

Lemma dict_get_update (d data : list (string * Z)) (k : string) :
  NoDup data.*1 ->
  dict_get k (update d data)
  = match dict_get k data with
    | Some v => Some v
    | None => dict_get k d
    end.
Proof.
  unfold update. revert d. induction data as [|[k0 v0] data IH]; intros d Hnd; [done|].
  apply NoDup_cons in Hnd as [Hk0 Hnd]. cbn [foldl dict_get fst snd].
  rewrite IH by done. destruct (decide (k = k0)) as [->|Hne].
  - rewrite (proj2 (dict_get_None k0 data)) by done. apply dict_get_set_eq.
  - by rewrite dict_get_set_ne.
Qed.

Lemma dict_get_del (d : list (string * Z)) (k k' : string) :
  NoDup d.*1 ->
  dict_get k (dict_del k' d) = if decide (k = k') then None else dict_get k d.
Proof.
  induction d as [|[k0 v0] d IH]; intros Hnd; simpl.
  { by destruct (decide (k = k')). }
  apply NoDup_cons in Hnd as [Hk0 Hnd].
  destruct (decide (k' = k0)) as [->|Hne].
  - destruct (decide (k = k0)) as [->|Hk]; [by apply dict_get_None | done].
  - simpl. destruct (decide (k = k0)) as [->|Hk].
    + by rewrite decide_False by congruence.
    + by apply IH.
Qed.

Lemma last_success (i : nat) :
  (i < 12)%nat -> ~ failed' i ->
  (forall j, (i < j < 12)%nat -> failed' j) ->
  last (filter (fun i => ~ failed' i) (seq 0 12)) = Some i.
Proof.
  intros Hi Hok Hlater.
  replace 12%nat with (i + (1 + (12 - S i)))%nat at 1 by lia.
  rewrite !seq_app, !filter_app. simpl seq. rewrite filter_cons, decide_True by done.
  rewrite (filter_all_out (fun i => ~ failed' i) (seq (i + 1) (12 - S i))).
  - rewrite filter_nil. simpl. by rewrite last_snoc.
  - apply Forall_forall. intros j Hj Hokj. apply elem_of_seq in Hj.
    apply Hokj, Hlater. lia.
Qed.

(** X25: A stale cache is refreshed from the last of the twelve answers that
    has status 200: [_gasnow_update] becomes its timestamp in seconds,
    its prices replace those cached under the same key, and the prices
    cached under other keys stay. *)
Theorem fetch_gasnow_uses_last_success (key : string) (c : Cache)
    (i : nat) (timestamp : Z) :
  stale (_gasnow_update c) = true ->
  (i < 12)%nat -> ~ failed' i ->
  (forall j, (i < j < 12)%nat -> failed' j) ->
  NoDup (json_data (responses i)).*1 ->
  dict_get "timestamp" (json_data (responses i)) = Some timestamp ->
  let r := _fetch_gasnow stale responses key c in
  _gasnow_update (cache r) = timestamp / 1000
  /\ (forall k, k ≠ "timestamp"%string ->
                dict_get k (_gasnow_data (cache r))
                = match dict_get k (json_data (responses i)) with
                  | Some v => Some v
                  | None => dict_get k (_gasnow_data c)
                  end)
  /\ dict_get "timestamp" (_gasnow_data (cache r))
     = dict_get "timestamp" (_gasnow_data c)
  /\ value r = get KeyError (dict_get key (_gasnow_data (cache r))).
Proof.
  intros Hstale Hi Hok Hlater Hnd Hts. unfold _fetch_gasnow.
  rewrite Hstale, poll_spec, (last_success i) by done. rewrite Hts. cbn.
  split; [done|]. split; [|split; [|done]].
  - intros k Hk. rewrite dict_get_update by (by apply dict_del_NoDup).
    rewrite dict_get_del by done. by rewrite decide_False.
  - rewrite dict_get_update by (by apply dict_del_NoDup).
    rewrite dict_get_del by done. by rewrite decide_True.
Qed.

End FetchFacts.

Lemma fetch_gasnow_uses_last_success_witness :
  let r := _fetch_gasnow (fun _ => true) Answers.responses "fast"
             (Build_Cache 0 [("slow", 1)]) in
  _gasnow_update (cache r) = 1600000000123 / 1000
  /\ (forall k, k ≠ "timestamp"%string ->
                dict_get k (_gasnow_data (cache r))
                = match dict_get k (json_data (Answers.responses 2)) with
                  | Some v => Some v
                  | None => dict_get k (_gasnow_data (Build_Cache 0 [("slow", 1)]))
                  end)
  /\ dict_get "timestamp" (_gasnow_data (cache r))
     = dict_get "timestamp" (_gasnow_data (Build_Cache 0 [("slow", 1)]))
  /\ value r = get KeyError (dict_get "fast" (_gasnow_data (cache r))).
Proof.
  apply (fetch_gasnow_uses_last_success (fun _ => true) Answers.responses "fast"
           (Build_Cache 0 [("slow", 1)]) 2 1600000000123).
  - reflexivity.
  - lia.
  - intros H. by apply H.
  - intros j Hj. unfold failed, Answers.responses.
    destruct (Nat.ltb_spec j 3); [lia | discriminate].
  - change ((json_data (Answers.responses 2)).*1) with ["timestamp"; "fast"]%string.
    apply NoDup_cons. split; [|apply NoDup_singleton].
    intros H. apply list_elem_of_singleton in H. discriminate.
  - reflexivity.
Defined.

End GasFacts.

(** ** Reverts that claim their jumps *)





(** ** A branch is recorded once *)

Lemma resolve_NoDup (idx : nat) (active : list (Offset * nat))
    (resolved : list (Offset * (nat * nat))) :
  NoDup resolved.*1 ->
  NoDup (foldl (fun acc kv => dict_set kv.1 (kv.2, idx) acc) resolved active).*1.
Proof.
  revert resolved. induction active as [|[o a] active IH]; intros resolved Hnd; [done|].
  simpl. apply IH. by apply dict_set_NoDup.
Qed.

Section BranchKeys.

Variable is_inside_offset : Offset -> Offset -> bool.
Variable source_nodes : list (Z * SourceUnit).
Variable branch_nodes : list (string * list Offset).

#[local] Abbreviation step' := (step is_inside_offset source_nodes branch_nodes).
#[local] Abbreviation walk' := (walk is_inside_offset source_nodes branch_nodes).

Lemma step_preserves_branch_keys_inv source st st' :
  step' source st = Ok st' -> branch_keys_inv st -> branch_keys_inv st'.
Proof.
  intros H [Hkeys Hin]. apply step_inv in H as (ops & cur0 & pc' & fr & _ & H).
  destruct H as [(cur & _ & _ & _ & ->)
                |(unit & start & stop & offset & active' & resolved' & cur & nodes
                  & smap & cnt & rm & Hmark & _ & _ & ->)];
    unfold branch_keys_inv; simpl; [done|].
  apply mark_branches_cases in Hmark
    as [(active & resolved & Ha & Hr & -> & ->)
       |[(active & resolved & cands & Ha & Hr & Hc & Hcand & -> & ->)
        |[-> ->]]]; [| |done].
  - split; [by apply dict_set_NoDup|].
    intros path res Hp. apply dict_set_elem in Hp as [Hp|[-> ->]]; [by eapply Hin|].
    apply resolve_NoDup. eapply Hin. by apply dict_get_Some.
  - split; [by apply dict_set_NoDup|].
    intros path res Hp. apply dict_set_elem in Hp as [Hp|[-> ->]]; [by eapply Hin|].
    apply dict_del_NoDup. eapply Hin. by apply dict_get_Some.
Qed.

Lemma walk_preserves_branch_keys_inv source_map st st' :
  walk' source_map st = Ok st' -> branch_keys_inv st -> branch_keys_inv st'.
Proof.
  revert st. induction source_map as [|source rest IH]; intros st H Hinv; simpl in H.
  - by injection H as <-.
  - bind_inv H as st1 Hstep. eapply IH; [exact H|].
    by eapply step_preserves_branch_keys_inv.
Qed.

End BranchKeys.

Lemma pairs_of_resolved (bs : list (string * list (Offset * (nat * nat))))
    (path : string) :
  NoDup bs.*1 ->
  pairs_of path (resolved_pairs bs)
  = match dict_get path bs with
    | Some resolved => resolved.*1
    | None => []
    end.
Proof.
  unfold pairs_of, resolved_pairs.
  induction bs as [|[p resolved] bs IH]; intros Hnd; [done|].
  apply NoDup_cons in Hnd as [Hp Hnd]. rewrite bind_cons, omap_app, IH by done.
  cbn [dict_get fst snd]. destruct (decide (path = p)) as [->|Hne].
  - rewrite (proj2 (dict_get_None p bs)) by done. simpl. rewrite app_nil_r.
    clear. induction resolved as [|[o aj] resolved IH]; [done|].
    rewrite !fmap_cons. cbn. rewrite decide_True by done. by rewrite IH.
  - assert (omap (fun e : string * Offset * (nat * nat) =>
                    if decide (e.1.1 = path) then Some e.1.2 else None)
              ((fun xy : Offset * (nat * nat) => (p, xy.1, xy.2)) <$> resolved) = [])
      as ->; [|done].
    clear -Hne. induction resolved as [|[o aj] resolved IH]; [done|].
    rewrite fmap_cons. cbn. rewrite decide_False by congruence. exact IH.
Qed.

Lemma branches_under_set (bm : BranchMap) path by_fn f cnt (v : Z * Z * bool) p :
  dict_get path bm = Some by_fn ->
  (forall i, i ∈ coverage_indices bm -> i < cnt) ->
  branches_under
    (dict_set path
       (dict_set f (dict_set cnt v (default [] (dict_get f by_fn))) by_fn) bm) p
  ≡ₚ (if decide (p = path) then [v] else []) ++ branches_under bm p.
Proof.
  intros Hb Hlt. unfold branches_under.
  destruct (decide (p = path)) as [->|Hne].
  - rewrite dict_get_set_eq, Hb. simpl.
    destruct (fresh_index_keys cnt v _ (counter_is_fresh bm path by_fn f cnt Hb Hlt))
      as [_ Hvals].
    unfold recorded_branches. apply (flat_set _ _ _ []); [done|]. exact Hvals.
  - by rewrite dict_get_set_ne.
Qed.

Lemma finalize_offsets bo pairs :
  forall pl (bm : BranchMap) cnt pl' bm' cnt',
    fold_result (finalize_branch bo) (pl, bm, cnt) pairs = Ok (pl', bm', cnt') ->
    (forall i, i ∈ coverage_indices bm -> i < cnt) ->
    forall path,
      branch_range <$> branches_under bm' path
      ≡ₚ (branch_range <$> branches_under bm path) ++ pairs_of path pairs
      /\ forall v, v ∈ branches_under bm' path ->
                   v ∈ branches_under bm path
                   \/ exists nodes node,
                        dict_get path bo = Some nodes
                        /\ find (fun i => bool_decide (bn_offset i = branch_range v))
                             nodes = Some node
                        /\ v.2 = bn_jump node.
Proof.
  induction pairs as [|[[p o] [a j]] rest IH]; intros pl bm cnt pl' bm' cnt' H Hlt path.
  { injection H as <- <- <-. simpl. rewrite app_nil_r. split; [done|]. by left. }
  simpl in H. bind_inv H as [[pl1 bm1] cnt1] Hstep.
  apply finalize_branch_inv in Hstep
    as (e & e1 & f & nodes & node & by_fn & _ & _ & _ & _ & Hn & Hnode & Hb & -> & ->).
  destruct (IH _ _ _ _ _ _ H) with (path := path) as [Hperm Hfrom].
  { intros i Hi. rewrite coverage_indices_set in Hi by done.
    apply elem_of_cons in Hi as [->|Hi]; [lia|]. apply Hlt in Hi. lia. }
  pose proof (branches_under_set bm p by_fn f cnt (o.1, o.2, bn_jump node) path Hb Hlt)
    as Hset.
  split.
  - rewrite Hperm, Hset. unfold pairs_of. cbn [omap list_omap fst snd].
    destruct (decide (path = p)) as [->|Hne].
    + rewrite decide_True by done. rewrite fmap_app. simpl.
      unfold branch_range at 1. simpl. destruct o. simpl.
      by rewrite <- Permutation_middle.
    + rewrite decide_False by congruence. done.
  - intros v Hv. destruct (Hfrom v Hv) as [Hin|Hnew]; [|by right].
    rewrite Hset in Hin. apply elem_of_app in Hin as [Hin|Hin]; [|by left].
    destruct (decide (path = p)) as [->|Hne]; [|by apply elem_of_nil in Hin].
    apply list_elem_of_singleton in Hin as ->. right. exists nodes, node.
    split; [done|]. split; [|done]. unfold branch_range. simpl. by destruct o.
Qed.

Lemma branches_under_initial (paths : list string) (path : string) :
  branches_under (dict_of ((fun i => (i, [])) <$> paths)) path = [].
Proof.
  unfold branches_under.
  destruct (dict_get path _) as [by_fn|] eqn:Hd; [|done].
  by apply dict_get_Some, dict_of_empty_values in Hd as ->.
Qed.

(** X11: No branch is recorded twice: under one path the entries of the
    branch map have distinct ranges (start, end), and each is the range
    of a branch candidate given for the path, with the jump flag of the
    first candidate that has this range. *)
Theorem branches_recorded_once is_inside_offset source_map ops contract_node
    statement_nodes0 branch_nodes0 pcm smap bmap :
  generate_coverage_data is_inside_offset source_map ops contract_node
    statement_nodes0 branch_nodes0 = Ok (pcm, smap, bmap) ->
  forall path by_fn,
    dict_get path bmap = Some by_fn ->
    NoDup (branch_range <$> recorded_branches by_fn)
    /\ forall v, v ∈ recorded_branches by_fn ->
                 exists nodes node,
                   dict_get path branch_nodes0 = Some nodes
                   /\ find (fun i => bool_decide (bn_offset i = branch_range v))
                        nodes = Some node
                   /\ v.2 = bn_jump node.
Proof.
  intros H path by_fn Hpath. destruct (decide (ops = EmptyString)) as [->|Hops].
  { unfold generate_coverage_data in H. simpl in H. by injection H as <- <- <-. }
  apply generate_inv in H
    as (sources & paths & bo & st & rm & pl & pl' & cnt' & Hc & Hr & Hf & _ & _);
    [|done].
  apply correlate_walk in Hc
    as (rows & nodes & orig & _ & _ & _ & _ & Horig & -> & Hwalk).
  apply walk_preserves_branch_keys_inv in Hwalk as [Hkeys Hin].
  2:{ split; simpl; [apply dict_of_NoDup|]. intros p resolved Hp.
      apply dict_of_empty_values in Hp as ->. apply NoDup_nil_2. }
  unfold finalize_branches in Hf.
  destruct (finalize_offsets _ _ _ _ _ _ _ _ Hf) with (path := path) as [Hperm Hfrom].
  { intros i Hi. rewrite coverage_indices_initial in Hi. by apply elem_of_nil in Hi. }
  rewrite branches_under_initial in Hperm, Hfrom. simpl in Hperm.
  unfold branches_under in Hperm, Hfrom. rewrite Hpath in Hperm, Hfrom.
  simpl in Hperm, Hfrom. split.
  - rewrite Hperm, pairs_of_resolved by done.
    destruct (dict_get path (branch_set st)) as [resolved|] eqn:Hd; simpl;
      [|apply NoDup_nil_2].
    eapply Hin. by apply dict_get_Some.
  - intros v Hv. destruct (Hfrom v Hv) as [Hnil|(ns & node & Hn & Hnode & Hj)];
      [by apply elem_of_nil in Hnil|].
    exists ns, node. split; [|done].
    apply dict_get_Some, dict_of_elem in Hn. by eapply mapM_get.
Qed.

Lemma branches_recorded_once_witness :
  NoDup (branch_range
           <$> recorded_branches
                 [("C.f", [(1, (20, 25, true)); (2, (30, 35, false))])])
  /\ forall v,
       v ∈ recorded_branches
             [("C.f", [(1, (20, 25, true)); (2, (30, 35, false))])] ->
       exists nodes node,
         dict_get "c.sol" Sample.two_branches = Some nodes
         /\ find (fun i => bool_decide (bn_offset i = branch_range v)) nodes
            = Some node
         /\ v.2 = bn_jump node.
Proof.
  refine (branches_recorded_once contains Output.two_branch_map
            Output.two_branch_opcodes (Sample.contract_with [])
            Output.two_branch_statements Sample.two_branches
            Output.two_branch_run.1.1 Output.two_branch_run.1.2
            Output.two_branch_run.2 _ "c.sol"
            [("C.f", [(1, (20, 25, true)); (2, (30, 35, false))])] _).
  - vm_compute. reflexivity.
  - reflexivity.
Defined.

Lemma last_window (references : list (string * Z)) (i : nat) :
  Forall (fun r => ~ in_window i r) references
  \/ exists k r,
       references !! k = Some r /\ in_window i r
       /\ forall k' r', (k < k')%nat -> references !! k' = Some r' ->
                        ~ in_window i r'.
Proof.
  induction references as [|r0 refs IH]; [left; constructor|].
  destruct IH as [Hnone|(k & r & Hk & Hin & Hlast)].
  - assert (Hdec : in_window i r0 \/ ~ in_window i r0) by (unfold in_window; lia).
    destruct Hdec as [Hin|Hout]; [|left; by constructor].
    right. exists 0%nat, r0. split; [done|]. split; [done|].
    intros [|k'] r' Hlt Hk'; [lia|]. simpl in Hk'.
    rewrite Forall_lookup in Hnone. by eapply Hnone.
  - right. exists (S k), r. split; [done|]. split; [done|].
    intros [|k'] r' Hlt Hk'; [lia|]. simpl in Hk'. apply (Hlast k'); [lia|done].
Qed.

(** X21: Formatting is idempotent: when every reference has its 40 characters
    within the bytecode, formatting the result again with the same
    references gives the result. *)
Theorem format_link_references_idempotent (object : string)
    (linkReferences : list (string * list (string * list LinkReference))) :
  Forall (in_range (String.length object)) (link_positions linkReferences) ->
  format_link_references (format_link_references object linkReferences)
    linkReferences
  = format_link_references object linkReferences.
Proof.
  intros Hall. unfold format_link_references.
  set (refs := link_positions linkReferences) in *.
  destruct (format_links_fold refs object Hall) as (Hlen & Hout & Hin).
  destruct (format_links_fold refs (foldl link object refs)) as (_ & Hout' & Hin');
    [by rewrite Hlen|].
  apply String.get_correct. intros i.
  destruct (last_window refs i) as [Hnone|(k & r & Hk & Hw & Hlast)].
  - by rewrite Hout'.
  - by rewrite (Hin' k r i), (Hin k r i).
Qed.

Lemma format_link_references_idempotent_witness :
  format_link_references (format_link_references Links.unlinked Links.references)
    Links.references
  = format_link_references Links.unlinked Links.references.
Proof.
  apply (format_link_references_idempotent Links.unlinked Links.references).
  apply Forall_cons. split; [|apply Forall_nil_2].
  split; simpl; lia.
Defined.

(** ** Branch indices on records *)

Lemma claim_keeps_branch acc node acc' :
  claim acc node = Ok acc' ->
  (forall e, e ∈ acc.2 -> Pc.branch e = None) ->
  forall e, e ∈ acc'.2 -> Pc.branch e = None.
Proof.
  destruct acc as [values pl]. unfold claim. simpl. intros H Hinv.
  destruct (has_offset pl (fc_offset node)); [by injection H as <-|].
  destruct values as [|i values]; [done|].
  bind_inv H as e He. apply of_option_ok in He. injection H as <-. simpl.
  intros e' Hin. apply list_elem_of_lookup_1 in Hin as [k Hk].
  destruct (decide (i = k)) as [<-|Hne].
  - rewrite list_lookup_insert_eq in Hk by (by eapply lookup_lt_Some).
    injection Hk as <-. simpl. apply Hinv. by eapply list_elem_of_lookup_2.
  - rewrite list_lookup_insert_ne in Hk by done.
    apply Hinv. by eapply list_elem_of_lookup_2.
Qed.

Lemma reconcile_reverts_keeps_branch sources rm pl rm' pl' :
  reconcile_reverts sources rm pl = Ok (rm', pl') ->
  (forall e, e ∈ pl -> Pc.branch e = None) ->
  forall e, e ∈ pl' -> Pc.branch e = None.
Proof.
  unfold reconcile_reverts. intros H Hinit.
  refine (fold_result_preserves
            (fun acc : list (string * string * list nat) * list Pc.t =>
               forall e, e ∈ acc.2 -> Pc.branch e = None) _ _ _ _ _ H Hinit).
  intros acc [[path fn_name] values] acc' Hstep HP.
  bind_inv Hstep as [values' pl1] Hfun. injection Hstep as <-. simpl.
  unfold reconcile_function in Hfun.
  bind_inv Hfun as unit Hunit. bind_inv Hfun as fn_node Hnode.
  refine (fold_result_preserves
            (fun a : list nat * list Pc.t =>
               forall e, e ∈ a.2 -> Pc.branch e = None) _ _ _ _ _ Hfun HP).
  intros a node a'. apply claim_keeps_branch.
Qed.

Lemma finalize_branches_stamps paths bo bs pl cnt pl' bm cnt' :
  finalize_branches paths bo bs pl cnt = Ok (pl', bm, cnt') ->
  (forall e, e ∈ pl -> Pc.branch e = None) ->
  forall e c, e ∈ pl' -> Pc.branch e = Some c -> c ∈ coverage_indices bm.
Proof.
  unfold finalize_branches. intros H Hinit.
  refine (proj2 (fold_result_preserves
            (fun acc : list Pc.t * BranchMap * Z =>
               (forall i, i ∈ coverage_indices acc.1.2 -> i < acc.2)
               /\ forall e c, e ∈ acc.1.1 -> Pc.branch e = Some c ->
                              c ∈ coverage_indices acc.1.2) _ _ _ _ _ H _)).
  - intros [[pl0 bm0] cnt0] [[path o] [a j]] [[pl1 bm1] cnt1] Hstep [Hlt Hinv].
    simpl in *.
    apply finalize_branch_inv in Hstep
      as (e & e1 & f & nodes & node & by_fn & He & _ & He1 & -> & _ & _ & Hb & -> & ->).
    pose proof (coverage_indices_set bm0 path by_fn f cnt0
                  (o.1, o.2, bn_jump node) Hb Hlt) as Hidx.
    split.
    + intros i Hi. rewrite Hidx in Hi.
      apply elem_of_cons in Hi as [->|Hi]; [lia|]. apply Hlt in Hi. lia.
    + intros e' c Hin Hc. rewrite Hidx.
      apply list_elem_of_lookup_1 in Hin as [k Hk].
      destruct (decide (j = k)) as [<-|Hj].
      { rewrite list_lookup_insert_eq in Hk by (by eapply lookup_lt_Some).
        injection Hk as <-. simpl in Hc. injection Hc as <-. left. }
      rewrite list_lookup_insert_ne in Hk by done.
      destruct (decide (a = k)) as [<-|Ha].
      { rewrite list_lookup_insert_eq in Hk by (by eapply lookup_lt_Some).
        injection Hk as <-. simpl in Hc. injection Hc as <-. left. }
      rewrite list_lookup_insert_ne in Hk by done. right.
      apply (Hinv e'); [by eapply list_elem_of_lookup_2 | done].
  - simpl. split.
    + intros i Hi. rewrite coverage_indices_initial in Hi. by apply elem_of_nil in Hi.
    + intros e c He Hc. rewrite Hinit in Hc by done. done.
Qed.

(** X26: A branch index on a record of the program counter map is an index
    of the branch map: the finaliser stamps a record only with the index
    under which it puts the branch into the map, and nothing else sets
    ['branch']. *)
Theorem branch_indices_are_recorded
    (is_inside_offset : Offset -> Offset -> bool) (source_map ops : string)
    (contract_node : Contract) (statement_nodes0 : list (string * list Offset))
    (branch_nodes0 : list (string * list BranchNode)) pcm smap bmap :
  generate_coverage_data is_inside_offset source_map ops contract_node
    statement_nodes0 branch_nodes0 = Ok (pcm, smap, bmap) ->
  forall k e c,
    (k, e) ∈ pcm -> Pc.branch e = Some c -> c ∈ coverage_indices bmap.
Proof.
  intros H k e c Hin Hc. destruct (decide (ops = EmptyString)) as [->|Hops].
  { unfold generate_coverage_data in H. simpl in H. injection H as <- <- <-.
    by apply elem_of_nil in Hin. }
  apply generate_inv in H
    as (sources & paths & bo & st & rm & pl & pl' & cnt' & Hcor & Hr & Hf & -> & _);
    [|done].
  apply dict_of_elem, list_elem_of_fmap in Hin as (e' & [= -> <-] & Hin).
  apply correlate_walk in Hcor
    as (rows & nodes & orig & _ & _ & _ & _ & _ & _ & Hwalk).
  apply walk_preserves_revert_map_inv in Hwalk as [Hfresh _].
  2:{ split; simpl; [intros x Hx | intros p f values v Hx];
        by apply elem_of_nil in Hx. }
  eapply (finalize_branches_stamps _ _ _ _ _ _ _ _ Hf); [|exact Hin|exact Hc].
  eapply reconcile_reverts_keeps_branch; [exact Hr|].
  intros x Hx. by apply Hfresh.
Qed.

Lemma branch_indices_are_recorded_witness :
  2 ∈ coverage_indices Output.revert_run.2.
Proof.
  refine (branch_indices_are_recorded contains Sample.revert_map_9
            Sample.revert_opcodes (Sample.contract_with [Sample.revert_at (50, 58)])
            Output.revert_statements Output.revert_branches
            Output.revert_run.1.1 Output.revert_run.1.2 Output.revert_run.2 _ 10
            (Pc.mk "JUMPI" 10 false None None (Some "c.sol") (Some (35, 40))
               (Some "C.f") None (Some 2) false) 2 _ _).
  - vm_compute. reflexivity.
  - apply list_elem_of_lookup_2 with 7%nat. reflexivity.
  - reflexivity.
Defined.

(** ** Decoding a source map entry by entry *)

Lemma split_nonempty (sep : ascii) (s : string) : Str.split sep s ≠ [].
Proof.
  destruct s as [|c s]; simpl; [done|].
  destruct (Ascii.eqb c sep); [done|]. by destruct (Str.split sep s).
Qed.

Lemma split_append (sep : ascii) (a b : string) :
  Str.split sep (String.append a (String sep b))
  = Str.split sep a ++ Str.split sep b.
Proof.
  induction a as [|c a IH]; simpl.
  - by rewrite Ascii.eqb_refl.
  - rewrite IH. destruct (Ascii.eqb c sep); [done|].
    pose proof (split_nonempty sep a) as Hne.
    by destruct (Str.split sep a).
Qed.

Lemma mapM_app_ok {A B} (f : A -> result B) (l1 l2 : list A) (r : list B) :
  mapM f (l1 ++ l2) = Ok r ->
  exists r1 r2, mapM f l1 = Ok r1 /\ mapM f l2 = Ok r2 /\ r = r1 ++ r2.
Proof.
  revert r. induction l1 as [|x l1 IH]; intros r H.
  - exists [], r. done.
  - rewrite <- app_comm_cons, mapM_cons in H. bind_inv H as y Hy. bind_inv H as k Hk.
    injection H as <-. destruct (IH _ Hk) as (r1 & r2 & H1 & H2 & ->).
    exists (y :: r1), r2. rewrite mapM_cons, Hy. simpl. rewrite H1. done.
Qed.

Lemma expand_from_app prev (r1 r2 : list (option row)) tl :
  expand_from prev (r1 ++ r2) = Ok tl ->
  expand_from prev r1 = Ok (take (length r1) tl).
Proof.
  revert prev tl. induction r1 as [|cur r1 IH]; intros prev tl H; simpl in *.
  - by rewrite take_0.
  - bind_inv H as cur' Hcur. bind_inv H as tl' Htl. injection H as <-.
    rewrite Hcur. simpl. rewrite (IH _ _ Htl). done.
Qed.

(** X27: Decoding goes entry by entry: when a source map decodes, the part
    of it before any of its semicolons decodes too, to the entries that
    the part has, as they are in the decoding of the whole. *)
Theorem expand_source_map_prefix (a b : string) (l : list (option row)) :
  expand_source_map (String.append a (String ";" b)) = Ok l ->
  expand_source_map a = Ok (take (length (Str.split ";" a)) l).
Proof.
  unfold expand_source_map. rewrite split_append. intros H.
  bind_inv H as rows Hrows.
  apply mapM_app_ok in Hrows as (rows1 & rows2 & H1 & H2 & ->).
  rewrite H1. simpl. pose proof (mapM_length _ _ _ H1) as Hlen.
  destruct rows1 as [|r0 rest1].
  { pose proof (split_nonempty ";" a) as Hne.
    destruct (Str.split ";" a); [done | discriminate]. }
  simpl in H. bind_inv H as tl Htl. injection H as <-.
  rewrite (expand_from_app _ _ _ _ Htl). simpl. rewrite <- Hlen. done.
Qed.

Lemma expand_source_map_prefix_witness :
  expand_source_map "0:10:0:-;10:5:0:i"
  = Ok (take (length (Str.split ";" "0:10:0:-;10:5:0:i"))
          [Some [FInt 0; FInt 10; FInt 0; FStr "-"];
           Some [FInt 10; FInt 5; FInt 0; FStr "i"];
           Some [FInt 10; FInt 5; FInt 0; FStr "i"];
           Some [FInt 15; FInt 5; FInt 1; FStr "i"]]).
Proof.
  apply (expand_source_map_prefix "0:10:0:-;10:5:0:i" ";15::1").
  reflexivity.
Defined.
